(** * tron_worms: a shallow embedding of [script5.js]

    The script animates atoms, snakes, photons, black holes and portals on a
    canvas.  The embedding follows the script class by class.

    Conventions.
    - A JavaScript number that holds a coordinate, a time, a radius, an angle
      or a hue is a rational [Q]; a number that only ever holds an integer
      (the atom state, the photon life counter, the snake length) is a [Z].
      The script computes with doubles.  [double E q] is the double nearest
      to [q], and the embedding rounds with it every result in [Atom.draw]
      and in the move and the wrap of a snake's head, where a property turns
      on the rounded value: the quotient that is compared with 1, the sum
      that is wrapped.  Elsewhere the arithmetic is exact, so that the last
      place of a result can differ from the script's; the half-unit steps of
      a radius and the counters are exact in double precision as well.
    - There is no NaN.  The one place where the script makes one from
      finite numbers is [%] on a canvas without width or height; what is
      proved of a wrapped coordinate is proved for a canvas of positive
      size.
    - [Math.cos], [Math.sin], [Math.atan2], [Math.hypot], [Math.PI],
      [Math.random], [performance.now] and the rounding [double] are fields
      of an environment [Env]; a theorem holds for every environment unless
      it states what it needs of these functions.  The n-th call of
      [random()] returns [random E n]; the world counts the calls.
    - The five global arrays, the canvas size and the drawing context make up
      the [World].  Atoms, snakes, black holes and portals are never removed
      from their arrays, so an index into the array identifies the object
      (a snake's [target] and a portal's [partner] are such indices, [None]
      for [null]).  Photons are spliced out of their array while references
      to them are still in use, so the photon objects live in a store
      ([photon_store], in allocation order) and the array [photons] holds
      references into it.
    - The 2D context is a log of the calls made on it and of the assignments
      to its properties, in order.
    - An uncaught [TypeError] ends the script: a computation is a function
      [World -> option (A * World)], [None] for the exception. *)

From Stdlib Require Import QArith Qround Qabs Qpower Lqa ZArith String.
From stdpp Require Import base option list.

Open Scope Q_scope.

(** ** Data *)

(** [a < b] on numbers. *)
Definition Qltb (a b : Q) : bool :=
  if Qlt_le_dec a b then true else false.

(** [{ x, y }] *)
Record Vec2 := mkVec2 { x : Q; y : Q }.

(** ['normal'] and ['special'], the two strings the [Atom] constructor
    chooses from. *)
Inductive EType := normal | special.

Definition is_normal (t : EType) : bool :=
  match t with normal => true | special => false end.

Definition is_special (t : EType) : bool :=
  match t with normal => false | special => true end.

(** A style string.  The template literals print a number into the string;
    the constructors keep the number. *)
Inductive Style :=
| Lit (s : string)          (* a literal such as '#000' *)
| Hsl (hue : Q)             (* `hsl(${hue}, 100%, 70%)` *)
| Hsla (hue alpha : Q).     (* `hsla(${hue}, 100%, 70%, ${alpha})` *)

(** Calls and property assignments on [ctx]. *)
Inductive CanvasOp :=
| Save | Restore | BeginPath | Fill | Stroke
| Arc (cx cy r a0 a1 : Q)
| MoveTo (px py : Q)
| LineTo (px py : Q)
| ClearRect (rx ry rw rh : Q)
| FillRect (rx ry rw rh : Q)
| SetFillStyle (s : Style)
| SetStrokeStyle (s : Style)
| SetShadowColor (s : Style)
| SetShadowBlur (b : Q)
| SetLineWidth (lw : Q)
| SetLineCap (s : string)
| CreateRadialGradient (x0 y0 r0 x1 y1 r1 : Q)
| AddColorStop (offset : Q) (color : string)
| SetFillStyleGradient.     (* ctx.fillStyle = gradient *)

Module Atom.
Record t := mk {
  position : Vec2;
  state : Z;            (* 0 alive, 1 disintegrating, 2 gone *)
  startTime : Q;
  hue : Q;
  radius : Q;
  type : EType }.
End Atom.

Module Photon.
Record t := mk {
  position : Vec2;
  velocity : Vec2;
  hue : Q;
  life : Z;
  maxLife : Z;
  size : Q;
  type : EType }.
End Photon.

Module Snake.
Record t := mk {
  hue : Q;
  color : Style;
  positions : list Vec2;
  snakeLength : Z;
  angle : Q;
  target : option nat }.   (* index into [atoms]; [None] is null *)
End Snake.

Module BlackHole.
Record t := mk {
  position : Vec2;
  radius : Q;
  maxRadius : Q;
  growthRate : Q }.
End BlackHole.

Module Portal.
Record t := mk {
  position : Vec2;
  radius : Q;
  partner : option nat }.  (* index into [portals]; [None] is null *)
End Portal.

Record World := mkWorld {
  width : Q;
  height : Q;
  atoms : list Atom.t;
  snakes : list Snake.t;
  photon_store : list Photon.t;
  photons : list nat;
  blackHoles : list BlackHole.t;
  portals : list Portal.t;
  ctx : list CanvasOp;
  rnd : nat;       (* calls of random() so far *)
  clk : nat }.     (* calls of performance.now() so far *)

Record Env := mkEnv {
  cos : Q -> Q;
  sin : Q -> Q;
  atan2 : Q -> Q -> Q;
  hypot : Q -> Q -> Q;
  PI : Q;
  random : nat -> Q;
  now : nat -> Q;
  double : Q -> Q }.     (* the double nearest to a real number *)

(** The constants of the script. *)
Definition NUM_ATOMS : nat := 75.
Definition NUM_SNAKES : nat := 5.
Definition NUM_PORTALS : nat := 3.
Definition SNAKE_LENGTH : Z := 40.
Definition SNAKE_SIZE : Q := 6.
Definition SPEED : Q := 2.
Definition PHOTON_SPEED : Q := 4.
Definition DISAPPEAR_TIME : Q := 1000.
Definition GRAVITY : Q := 0.05.

(** ** Field updates on the world *)

Definition with_size (wd ht : Q) (w : World) : World :=
  mkWorld wd ht (atoms w) (snakes w) (photon_store w) (photons w)
          (blackHoles w) (portals w) (ctx w) (rnd w) (clk w).

Definition with_atoms (l : list Atom.t) (w : World) : World :=
  mkWorld (width w) (height w) l (snakes w) (photon_store w) (photons w)
          (blackHoles w) (portals w) (ctx w) (rnd w) (clk w).

Definition with_snakes (l : list Snake.t) (w : World) : World :=
  mkWorld (width w) (height w) (atoms w) l (photon_store w) (photons w)
          (blackHoles w) (portals w) (ctx w) (rnd w) (clk w).

Definition with_photon_store (l : list Photon.t) (w : World) : World :=
  mkWorld (width w) (height w) (atoms w) (snakes w) l (photons w)
          (blackHoles w) (portals w) (ctx w) (rnd w) (clk w).

Definition with_photons (l : list nat) (w : World) : World :=
  mkWorld (width w) (height w) (atoms w) (snakes w) (photon_store w) l
          (blackHoles w) (portals w) (ctx w) (rnd w) (clk w).

Definition with_blackHoles (l : list BlackHole.t) (w : World) : World :=
  mkWorld (width w) (height w) (atoms w) (snakes w) (photon_store w) (photons w)
          l (portals w) (ctx w) (rnd w) (clk w).

Definition with_portals (l : list Portal.t) (w : World) : World :=
  mkWorld (width w) (height w) (atoms w) (snakes w) (photon_store w) (photons w)
          (blackHoles w) l (ctx w) (rnd w) (clk w).

Definition with_ctx (l : list CanvasOp) (w : World) : World :=
  mkWorld (width w) (height w) (atoms w) (snakes w) (photon_store w) (photons w)
          (blackHoles w) (portals w) l (rnd w) (clk w).

Definition with_rnd (n : nat) (w : World) : World :=
  mkWorld (width w) (height w) (atoms w) (snakes w) (photon_store w) (photons w)
          (blackHoles w) (portals w) (ctx w) n (clk w).

Definition with_clk (n : nat) (w : World) : World :=
  mkWorld (width w) (height w) (atoms w) (snakes w) (photon_store w) (photons w)
          (blackHoles w) (portals w) (ctx w) (rnd w) n.

(** ** Computations on the world *)

Definition M (A : Type) : Type := World -> option (A * World).

Definition ret {A} (a : A) : M A := fun w => Some (a, w).

Definition bind {A B} (m : M A) (f : A -> M B) : M B :=
  fun w => match m w with
           | Some (a, w') => f a w'
           | None => None
           end.

(** An uncaught exception. *)
Definition throw {A} : M A := fun _ => None.

Definition get : M World := fun w => Some (w, w).

Definition modify (f : World -> World) : M unit := fun w => Some (tt, f w).

Notation "x <- m ;; k" := (bind m (fun x => k))
  (at level 100, m at next level, right associativity).
Notation "m ;;; k" := (bind m (fun _ => k))
  (at level 100, right associativity).

(** [o] is an object that is about to be dereferenced: [undefined] and
    [null] throw. *)
Definition deref {A} (o : option A) : M A :=
  match o with Some a => ret a | None => throw end.

(** One call or assignment on [ctx]. *)
Definition emit (op : CanvasOp) : M unit :=
  modify (fun w => with_ctx (ctx w ++ [op]) w).

(** A run of calls and assignments on [ctx], in the order of the list. *)
Fixpoint emit_all (ops : list CanvasOp) : M unit :=
  match ops with
  | [] => ret tt
  | op :: ops' => emit op ;;; emit_all ops'
  end.

(** [for (let i = 0; i < n; i++) body] where the body does not use [i]. *)
Fixpoint times (n : nat) (body : M unit) : M unit :=
  match n with
  | O => ret tt
  | S n' => body ;;; times n' body
  end.

(** [arr.forEach(f)].  The length is read once, before the first call; the
    element at index [k] is read when its turn comes, and an index that the
    array no longer has is passed over.  [b] carries the local variables that
    the callback assigns. *)
Fixpoint forEach_from {A B} (arr : World -> list A) (f : nat -> A -> B -> M B)
    (k n : nat) (b : B) : M B :=
  match n with
  | O => ret b
  | S n' => fun w =>
      match arr w !! k with
      | Some a => (b' <- f k a b ;; forEach_from arr f (S k) n' b') w
      | None => forEach_from arr f (S k) n' b w
      end
  end.

Definition forEach {A B} (arr : World -> list A) (f : nat -> A -> B -> M B)
    (b : B) : M B :=
  fun w => forEach_from arr f 0 (length (arr w)) b w.

Section Script.

Variable E : Env.

Definition TWO_PI : Q := 2 * PI E.

(** [random()] *)
Definition next_random : M Q :=
  fun w => Some (random E (rnd w), with_rnd (S (rnd w)) w).

(** [performance.now()] *)
Definition performance_now : M Q :=
  fun w => Some (now E (clk w), with_clk (S (clk w)) w).

(** ** Photon: constructor *)

(** [new Photon(x, y, hue, type)] *)
Definition Photon_new (px py hue : Q) (type : EType) : M Photon.t :=
  r <- next_random ;;
  let angle := r * TWO_PI in
  let speed := if is_normal type then PHOTON_SPEED else PHOTON_SPEED * 1.5 in
  ret (Photon.mk (mkVec2 px py)
                 (mkVec2 (cos E angle * speed) (sin E angle * speed))
                 hue 0%Z 100%Z
                 (if is_normal type then 3 else 5)
                 type).

(** [photons.push(p)]: the new object goes to the store, the reference to it
    to the end of the array. *)
Definition photons_push (p : Photon.t) : M unit :=
  modify (fun w =>
    with_photons (photons w ++ [length (photon_store w)])
      (with_photon_store (photon_store w ++ [p]) w)).

(** ** BlackHole: constructor *)

Definition BlackHole_new (px py : Q) : BlackHole.t :=
  BlackHole.mk (mkVec2 px py) 0 50 0.5.

Definition blackHoles_push (h : BlackHole.t) : M unit :=
  modify (fun w => with_blackHoles (blackHoles w ++ [h]) w).

(** ** Atom *)

(** [new Atom(x, y)] *)
Definition Atom_new (px py : Q) : M Atom.t :=
  r1 <- next_random ;;
  r2 <- next_random ;;
  ret (Atom.mk (mkVec2 px py) 0%Z 0 (270 + r1 * 60) 10
               (if Qltb r2 0.5 then normal else special)).

(** The atom at index [i] of [atoms]. *)
Definition atom_at (i : nat) : M Atom.t :=
  fun w => deref (atoms w !! i) w.

Definition set_atom (i : nat) (a : Atom.t) : M unit :=
  modify (fun w => with_atoms (<[i := a]> (atoms w)) w).

Definition photonCount (type : EType) : nat :=
  if is_normal type then 5%nat else 15%nat.

(** [atoms[i].disintegrate(t)] *)
Definition Atom_disintegrate (i : nat) (t : Q) : M unit :=
  a <- atom_at i ;;
  let a := Atom.mk (Atom.position a) 1%Z t (Atom.hue a) (Atom.radius a)
                   (Atom.type a) in
  set_atom i a ;;;
  times (photonCount (Atom.type a))
        (p <- Photon_new (x (Atom.position a)) (y (Atom.position a))
                         (Atom.hue a) (Atom.type a) ;;
         photons_push p) ;;;
  if is_special (Atom.type a)
  then blackHoles_push (BlackHole_new (x (Atom.position a)) (y (Atom.position a)))
  else ret tt.

(** [atoms[i].draw(t)].  The results of the arithmetic on the way from the
    two times to the numbers that are compared and drawn are doubles: each
    is rounded as the script rounds it. *)
Definition Atom_draw (i : nat) (t : Q) : M unit :=
  a <- atom_at i ;;
  let pos := Atom.position a in
  if (Atom.state a =? 0)%Z then
    emit_all
      [BeginPath;
       Arc (x pos) (y pos) (Atom.radius a) 0 TWO_PI;
       SetFillStyle (Hsl (Atom.hue a));
       SetShadowColor (Hsl (Atom.hue a));
       SetShadowBlur 20;
       Fill;
       SetShadowBlur 0]
  else if (Atom.state a =? 1)%Z then
    let dt := double E (t - Atom.startTime a) in
    let alpha := double E (dt / DISAPPEAR_TIME) in
    if Qltb 1 alpha then
      set_atom i (Atom.mk pos 2%Z (Atom.startTime a) (Atom.hue a)
                          (Atom.radius a) (Atom.type a))
    else
      emit_all
        [BeginPath;
         Arc (x pos) (y pos) (double E (Atom.radius a * double E (1 - alpha))) 0 TWO_PI;
         SetFillStyle (Hsla (Atom.hue a) (double E (1 - alpha)));
         SetShadowColor (Hsla (Atom.hue a) (double E (1 - alpha)));
         SetShadowBlur (double E (20 * double E (1 - alpha)));
         Fill;
         SetShadowBlur 0]
  else ret tt.

(** ** Portal *)

Definition Portal_new (px py : Q) : Portal.t :=
  Portal.mk (mkVec2 px py) 20 None.

(** [portal.partner], about to be dereferenced. *)
Definition partner_of (portal : Portal.t) : M Portal.t :=
  fun w => deref (j ← Portal.partner portal; portals w !! j) w.

Definition Portal_draw (portal : Portal.t) : M unit :=
  emit_all
    [Save;
     BeginPath;
     Arc (x (Portal.position portal)) (y (Portal.position portal))
         (Portal.radius portal) 0 TWO_PI;
     SetStrokeStyle (Lit "hsl(300, 100%, 70%)");
     SetLineWidth 5;
     SetShadowColor (Lit "hsl(300, 100%, 70%)");
     SetShadowBlur 15;
     Stroke;
     Restore].

(** ** Photon: methods *)

(** The photon object behind the reference [r]. *)
Definition photon_at (r : nat) : M Photon.t :=
  fun w => deref (photon_store w !! r) w.

Definition set_photon (r : nat) (p : Photon.t) : M unit :=
  modify (fun w => with_photon_store (<[r := p]> (photon_store w)) w).

(** [photons.indexOf(r)]: the first index that holds the reference, or -1. *)
Definition indexOf (r : nat) (l : list nat) : Z :=
  match list_find (fun r' => r' = r) l with
  | Some (i, _) => Z.of_nat i
  | None => (-1)%Z
  end.

(** [l.splice(start, 1)]: a negative [start] counts from the end. *)
Definition splice1 (start : Z) (l : list nat) : list nat :=
  let len := Z.of_nat (length l) in
  let from := if (start <? 0)%Z then Z.max (len + start) 0 else Z.min start len in
  delete (Z.to_nat from) l.

(** [this.update()] for the photon behind [r].  The fields of [this] are
    kept in a local and stored before the splice; nothing else reads the
    object in between. *)
Definition Photon_update (r : nat) : M unit :=
  p <- photon_at r ;;
  pos <- forEach portals (fun _ portal pos =>
           let dx := x pos - x (Portal.position portal) in
           let dy := y pos - y (Portal.position portal) in
           let dist := hypot E dx dy in
           if Qltb dist (Portal.radius portal) then
             q <- partner_of portal ;;
             r1 <- next_random ;;
             r2 <- next_random ;;
             ret (mkVec2 (x (Portal.position q) + (r1 - 0.5) * 10)
                         (y (Portal.position q) + (r2 - 0.5) * 10))
           else ret pos)
         (Photon.position p) ;;
  let vel := Photon.velocity p in
  let pos := mkVec2 (x pos + x vel) (y pos + y vel) in
  let vel := mkVec2 (x vel) (y vel + GRAVITY) in
  let life := (Photon.life p + 1)%Z in
  set_photon r (Photon.mk pos vel (Photon.hue p) life (Photon.maxLife p)
                          (Photon.size p) (Photon.type p)) ;;;
  w <- get ;;
  if (Photon.maxLife p <? life)%Z
     || Qltb (x pos) 0 || Qltb (width w) (x pos)
     || Qltb (y pos) 0 || Qltb (height w) (y pos)
  then modify (fun w => with_photons (splice1 (indexOf r (photons w)) (photons w)) w)
  else ret tt.

(** [this.draw()] for the photon behind [r]. *)
Definition Photon_draw (r : nat) : M unit :=
  p <- photon_at r ;;
  emit_all
    [BeginPath;
     Arc (x (Photon.position p)) (y (Photon.position p)) (Photon.size p) 0 TWO_PI;
     SetFillStyle (Hsl (Photon.hue p));
     SetShadowColor (Hsl (Photon.hue p));
     SetShadowBlur 15;
     Fill;
     SetShadowBlur 0].

(** ** BlackHole: methods *)

Definition hole_at (k : nat) : M BlackHole.t :=
  fun w => deref (blackHoles w !! k) w.

Definition set_hole (k : nat) (h : BlackHole.t) : M unit :=
  modify (fun w => with_blackHoles (<[k := h]> (blackHoles w)) w).

(** The first statement of [update()]: the radius grows while it is below
    the maximum. *)
Definition BlackHole_grow (h : BlackHole.t) : BlackHole.t :=
  if Qltb (BlackHole.radius h) (BlackHole.maxRadius h)
  then BlackHole.mk (BlackHole.position h)
                    (BlackHole.radius h + BlackHole.growthRate h)
                    (BlackHole.maxRadius h) (BlackHole.growthRate h)
  else h.

(** [blackHoles[k].update()] *)
Definition BlackHole_update (k : nat) : M unit :=
  h <- hole_at k ;;
  let h := BlackHole_grow h in
  set_hole k h ;;;
  forEach photons (fun _ r _ =>
    p <- photon_at r ;;
    let dx := x (BlackHole.position h) - x (Photon.position p) in
    let dy := y (BlackHole.position h) - y (Photon.position p) in
    let dist := hypot E dx dy in
    if Qltb dist (BlackHole.radius h) then
      let angle := atan2 E dy dx in
      let vel := Photon.velocity p in
      set_photon r (Photon.mk (Photon.position p)
                      (mkVec2 (x vel + cos E angle * 0.5) (y vel + sin E angle * 0.5))
                      (Photon.hue p) (Photon.life p) (Photon.maxLife p)
                      (Photon.size p) (Photon.type p))
    else ret tt) tt.

(** [blackHoles[k].draw()] *)
Definition BlackHole_draw (k : nat) : M unit :=
  h <- hole_at k ;;
  let pos := BlackHole.position h in
  emit_all
    [Save;
     CreateRadialGradient (x pos) (y pos) 0 (x pos) (y pos) (BlackHole.radius h);
     AddColorStop 0 "rgba(0, 0, 0, 1)";
     AddColorStop 1 "rgba(0, 0, 0, 0)";
     SetFillStyleGradient;
     BeginPath;
     Arc (x pos) (y pos) (BlackHole.radius h) 0 TWO_PI;
     Fill;
     Restore].

(** ** Snake *)

(** [a % b] for [b] other than 0: the quotient is truncated, the remainder
    has the sign of [a]; the remainder of two doubles is a double, so that
    nothing is rounded.  For [b] = 0 the script computes NaN, which the model
    does not have: there [js_rem] gives [a], and what is proved of a value
    that comes from [js_rem] is proved for a divisor above 0. *)
Definition js_rem (a b : Q) : Q :=
  a - b * inject_Z (Z.quot (Qnum a * QDen b) (Qnum b * QDen a)).

(** [new Snake()] *)
Definition Snake_new : M Snake.t :=
  r1 <- next_random ;;
  let hue := 180 + r1 * 60 in
  w <- get ;;
  r2 <- next_random ;;
  let startX := r2 * width w in
  r3 <- next_random ;;
  let startY := r3 * height w in
  r4 <- next_random ;;
  ret (Snake.mk hue (Hsl hue)
                (replicate (Z.to_nat SNAKE_LENGTH) (mkVec2 startX startY))
                SNAKE_LENGTH (r4 * TWO_PI) None).

Definition lengthToAdd (type : EType) : nat :=
  if is_normal type then 5%nat else 15%nat.

(** The loop of [grow]: each round reads the last position and pushes a copy
    of it.  Reading a field of [undefined] throws. *)
Fixpoint grow_loop (n : nat) (ps : list Vec2) : option (list Vec2) :=
  match n with
  | O => Some ps
  | S n' =>
      match last ps with
      | Some tail => grow_loop n' (ps ++ [mkVec2 (x tail) (y tail)])
      | None => None
      end
  end.

(** [this.grow(type)] *)
Definition Snake_grow (type : EType) (s : Snake.t) : option Snake.t :=
  ps ← grow_loop (lengthToAdd type) (Snake.positions s);
  Some (Snake.mk (Snake.hue s) (Snake.color s) ps
                 (Snake.snakeLength s + Z.of_nat (lengthToAdd type))%Z
                 (Snake.angle s) (Snake.target s)).

(** [if (this.positions.length > 0) this.positions.pop()] *)
Definition pop_guarded (ps : list Vec2) : list Vec2 :=
  if (0 <? length ps)%nat then removelast ps else ps.

(** [this.shrink()] *)
Definition Snake_shrink (s : Snake.t) : Snake.t :=
  Snake.mk (Snake.hue s) (Snake.color s)
           (Nat.iter 10 pop_guarded (Snake.positions s))
           (Z.max 10 (Snake.snakeLength s - 10))
           (Snake.angle s) (Snake.target s).

Definition snake_at (k : nat) : M Snake.t :=
  fun w => deref (snakes w !! k) w.

Definition set_snake (k : nat) (s : Snake.t) : M unit :=
  modify (fun w => with_snakes (<[k := s]> (snakes w)) w).

Definition with_target (tg : option nat) (s : Snake.t) : Snake.t :=
  Snake.mk (Snake.hue s) (Snake.color s) (Snake.positions s)
           (Snake.snakeLength s) (Snake.angle s) tg.

Definition with_angle (a : Q) (s : Snake.t) : Snake.t :=
  Snake.mk (Snake.hue s) (Snake.color s) (Snake.positions s)
           (Snake.snakeLength s) a (Snake.target s).

Definition with_positions (ps : list Vec2) (s : Snake.t) : Snake.t :=
  Snake.mk (Snake.hue s) (Snake.color s) ps
           (Snake.snakeLength s) (Snake.angle s) (Snake.target s).

(** [this.target && this.target.state === 0] *)
Definition target_alive (s : Snake.t) : M bool :=
  match Snake.target s with
  | None => ret false
  | Some i => a <- atom_at i ;; ret (Atom.state a =? 0)%Z
  end.

(** [dist < minDist], where [None] is [Infinity]. *)
Definition below (dist : Q) (minDist : option Q) : bool :=
  match minDist with
  | None => true
  | Some m => Qltb dist m
  end.

(** [snakes[k].update()].  The fields of [this] are kept in the local [s]
    and stored at the end; nothing else reads the snake in between.  The
    head is read first; every path through the method reads [head.x], which
    throws when the head is [undefined]. *)
Definition Snake_update (k : nat) : M unit :=
  s <- snake_at k ;;
  head <- deref (Snake.positions s !! 0%nat) ;;
  (* seek the nearest atom if there is no target *)
  alive <- target_alive s ;;
  s <- (if negb alive then
          found <- forEach atoms (fun i atom (acc : option Q * option nat) =>
                     if (Atom.state atom =? 0)%Z then
                       let dist := hypot E (x head - x (Atom.position atom))
                                           (y head - y (Atom.position atom)) in
                       if below dist (fst acc) then ret (Some dist, Some i)
                       else ret acc
                     else ret acc)
                   (None, Snake.target s) ;;
          ret (with_target (snd found) s)
        else ret s) ;;
  (* adjust the angle towards the target *)
  alive <- target_alive s ;;
  s <- (if alive then
          tg <- deref (Snake.target s) ;;
          a <- atom_at tg ;;
          let dx := x (Atom.position a) - x head in
          let dy := y (Atom.position a) - y head in
          let angleToTarget := atan2 E dy dx in
          let angleDifference := angleToTarget - Snake.angle s in
          ret (with_angle (Snake.angle s
                 + atan2 E (sin E angleDifference) (cos E angleDifference) * 0.05) s)
        else
          r <- next_random ;;
          ret (with_angle (Snake.angle s + (r - 0.5) * 0.2) s)) ;;
  let newHead := mkVec2 (double E (x head + double E (cos E (Snake.angle s) * SPEED)))
                        (double E (y head + double E (sin E (Snake.angle s) * SPEED))) in
  (* wrap around the canvas edges; the sum is rounded before [%] *)
  w <- get ;;
  let newHead := mkVec2 (js_rem (double E (x newHead + width w)) (width w))
                        (y newHead) in
  let newHead := mkVec2 (x newHead)
                        (js_rem (double E (y newHead + height w)) (height w)) in
  (* collision with atoms *)
  s <- forEach atoms (fun i atom s =>
         if (Atom.state atom =? 0)%Z then
           let dist := hypot E (x newHead - x (Atom.position atom))
                               (y newHead - y (Atom.position atom)) in
           if Qltb dist (Atom.radius atom + SNAKE_SIZE / 2) then
             t <- performance_now ;;
             Atom_disintegrate i t ;;;
             s <- deref (Snake_grow (Atom.type atom) s) ;;
             ret (with_target None s)
           else ret s
         else ret s) s ;;
  (* collision with black holes *)
  s <- forEach blackHoles (fun _ hole s =>
         let dist := hypot E (x newHead - x (BlackHole.position hole))
                             (y newHead - y (BlackHole.position hole)) in
         if Qltb dist (BlackHole.radius hole + SNAKE_SIZE / 2)
         then ret (Snake_shrink s)
         else ret s) s ;;
  (* collision with portals *)
  newHead <- forEach portals (fun _ portal newHead =>
         let dist := hypot E (x newHead - x (Portal.position portal))
                             (y newHead - y (Portal.position portal)) in
         if Qltb dist (Portal.radius portal + SNAKE_SIZE / 2) then
           r1 <- next_random ;;
           let offsetX := (r1 - 0.5) * 10 in
           r2 <- next_random ;;
           let offsetY := (r2 - 0.5) * 10 in
           q <- partner_of portal ;;
           ret (mkVec2 (x (Portal.position q) + offsetX)
                       (y (Portal.position q) + offsetY))
         else ret newHead) newHead ;;
  let ps := newHead :: Snake.positions s in
  let ps := if (Snake.snakeLength s <? Z.of_nat (length ps))%Z
            then removelast ps else ps in
  set_snake k (with_positions ps s).

(** The calls of [moveTo] and [lineTo] that the [forEach] of [draw] makes,
    one per position. *)
Definition path_ops (ps : list Vec2) : list CanvasOp :=
  imap (fun i pos => if (i =? 0)%nat then MoveTo (x pos) (y pos)
                     else LineTo (x pos) (y pos)) ps.

(** [snakes[k].draw()] *)
Definition Snake_draw (k : nat) : M unit :=
  s <- snake_at k ;;
  emit_all
    ([Save;
      SetLineWidth SNAKE_SIZE;
      SetLineCap "round";
      SetStrokeStyle (Snake.color s);
      SetShadowColor (Snake.color s);
      SetShadowBlur 15;
      BeginPath]
     ++ path_ops (Snake.positions s)
     ++ [Stroke; Restore]).

(** ** Driver *)

(** [for (let v = v0; v <= limit; v += gridSpacing) line(v)].  [fuel]
    bounds the number of rounds; [grid_fuel limit] rounds from 0 are enough
    ([grid_loop_enough]). *)
Fixpoint grid_loop (fuel : nat) (v limit : Q) (line : Q -> M unit) : M unit :=
  match fuel with
  | O => ret tt
  | S fuel' =>
      if Qltb limit v then ret tt
      else line v ;;; grid_loop fuel' (v + 50) limit line
  end.

Definition grid_fuel (limit : Q) : nat := S (Z.to_nat (Qfloor (limit / 50))).

Definition drawBackgroundGrid : M unit :=
  w <- get ;;
  emit_all
    [Save;
     SetStrokeStyle (Lit "rgba(255, 0, 255, 0.2)");
     SetLineWidth 1;
     BeginPath] ;;;
  grid_loop (grid_fuel (width w)) 0 (width w)
    (fun gx => emit_all [MoveTo gx 0; LineTo gx (height w)]) ;;;
  grid_loop (grid_fuel (height w)) 0 (height w)
    (fun gy => emit_all [MoveTo 0 gy; LineTo (width w) gy]) ;;;
  emit_all [Stroke; Restore].

(** [resizeCanvas()], with the window's inner size. *)
Definition resizeCanvas (innerWidth innerHeight : Q) : M unit :=
  modify (with_size innerWidth innerHeight).

(** The loop of [init] that assigns the partners, from index [i] on for [n]
    rounds: [portals[i].partner = portals[(i + 1) % portals.length]].
    Assigning to a field of [undefined] throws. *)
Fixpoint assign_partners (i n : nat) (ps : list Portal.t) : option (list Portal.t) :=
  match n with
  | O => Some ps
  | S n' =>
      p ← ps !! i;
      assign_partners (S i) n'
        (<[i := Portal.mk (Portal.position p) (Portal.radius p)
                          (Some ((i + 1) mod length ps)%nat)]> ps)
  end.

(** [animate()]; the call of [requestAnimationFrame] is the next [Frame]
    event. *)
Definition animate : M unit :=
  w <- get ;;
  emit_all
    [ClearRect 0 0 (width w) (height w);
     SetFillStyle (Lit "#000");
     FillRect 0 0 (width w) (height w)] ;;;
  drawBackgroundGrid ;;;
  forEach blackHoles (fun k _ _ => BlackHole_update k ;;; BlackHole_draw k) tt ;;;
  currentTime <- performance_now ;;
  forEach atoms (fun i _ _ => Atom_draw i currentTime) tt ;;;
  forEach snakes (fun k _ _ => Snake_update k ;;; Snake_draw k) tt ;;;
  forEach photons (fun _ r _ => Photon_update r ;;; Photon_draw r) tt ;;;
  forEach portals (fun _ portal _ => Portal_draw portal) tt.

(** [init()] *)
Definition init (innerWidth innerHeight : Q) : M unit :=
  resizeCanvas innerWidth innerHeight ;;;
  modify (with_atoms []) ;;;
  modify (with_snakes []) ;;;
  modify (with_photons []) ;;;
  modify (with_blackHoles []) ;;;
  modify (with_portals []) ;;;
  times NUM_ATOMS
    (w <- get ;;
     r1 <- next_random ;;
     r2 <- next_random ;;
     a <- Atom_new (r1 * width w) (r2 * height w) ;;
     modify (fun w => with_atoms (atoms w ++ [a]) w)) ;;;
  times NUM_SNAKES
    (s <- Snake_new ;;
     modify (fun w => with_snakes (snakes w ++ [s]) w)) ;;;
  times NUM_PORTALS
    (w <- get ;;
     r1 <- next_random ;;
     r2 <- next_random ;;
     modify (fun w => with_portals (portals w ++ [Portal_new (r1 * width w) (r2 * height w)]) w)) ;;;
  w <- get ;;
  ps <- deref (assign_partners 0 (length (portals w)) (portals w)) ;;
  modify (with_portals ps) ;;;
  animate.

(** [addSnakeAt(x, y)] *)
Definition addSnakeAt (px py : Q) : M unit :=
  s <- Snake_new ;;
  let s := with_positions [] s in
  let s := with_positions (replicate (Z.to_nat (Snake.snakeLength s)) (mkVec2 px py)) s in
  modify (fun w => with_snakes (snakes w ++ [s]) w).

(** What the browser does after [init]: it calls the scheduled [animate],
    or delivers a click or a resize. *)
Inductive Event :=
| Frame
| Click (clientX clientY : Q)
| Resize (innerWidth innerHeight : Q).

Definition handle (ev : Event) : M unit :=
  match ev with
  | Frame => animate
  | Click cx cy => addSnakeAt cx cy
  | Resize iw ih => resizeCanvas iw ih
  end.

Fixpoint handle_all (evs : list Event) : M unit :=
  match evs with
  | [] => ret tt
  | ev :: evs' => handle ev ;;; handle_all evs'
  end.

(** The world when the script is loaded: empty arrays, nothing drawn. *)
Definition empty_world : World :=
  mkWorld 0 0 [] [] [] [] [] [] [] 0 0.

(** The world after [init] and the events [evs]; [None] when an exception
    ended the script on the way. *)
Definition run (innerWidth innerHeight : Q) (evs : list Event) : option World :=
  snd <$> (init innerWidth innerHeight ;;; handle_all evs) empty_world.

End Script.

(** * Vocabulary of the properties *)

(** The atom after [disintegrate(t)]. *)
Definition disintegrated (t : Q) (a : Atom.t) : Atom.t :=
  Atom.mk (Atom.position a) 1%Z t (Atom.hue a) (Atom.radius a) (Atom.type a).

(** The black holes that [disintegrate] pushes. *)
Definition spawned_holes (a : Atom.t) : list BlackHole.t :=
  match Atom.type a with
  | normal => []
  | special => [BlackHole_new (x (Atom.position a)) (y (Atom.position a))]
  end.

(** The atom after [draw] has found it faded out. *)
Definition gone (a : Atom.t) : Atom.t :=
  Atom.mk (Atom.position a) 2%Z (Atom.startTime a) (Atom.hue a) (Atom.radius a)
          (Atom.type a).

(** [alpha] in [Atom.draw]: the elapsed share of the fade, as the script
    computes it. *)
Definition elapsed (E : Env) (t : Q) (a : Atom.t) : Q :=
  double E (double E (t - Atom.startTime a) / DISAPPEAR_TIME).

(** The opacity [1 - alpha] that [Atom.draw] prints into the style. *)
Definition fade_alpha (E : Env) (t : Q) (a : Atom.t) : Q :=
  double E (1 - elapsed E t a).

(** What the properties need of [double], where they need anything.  It is
    monotone; it leaves alone a number [m / 2^e] with [|m| <= 2^53] and
    [e <= 1074], which is a double; and up to [2^1023] its result is off by
    at most the [2^53]-th part of the number, or by [2^-1075] where the
    doubles are evenly spaced.  Rounding to the nearest double has the three
    properties ([binary64_rounding]). *)
Record rounding (fl : Q -> Q) : Prop := {
  round_mono : forall a b, a <= b -> fl a <= fl b;
  round_exact : forall (m : Z) (e : nat),
      (Z.abs m <= 2 ^ 53)%Z -> (e <= 1074)%nat ->
      fl (inject_Z m / 2 ^ Z.of_nat e) == inject_Z m / 2 ^ Z.of_nat e;
  round_error : forall a, Qabs a <= 2 ^ 1023 ->
      Qabs (fl a - a) <= Qabs a / 2 ^ 53 + 1 / 2 ^ 1075 }.

(** What [draw(t)] sends to the canvas for the atom [a], and the atom it
    leaves ([Atom_draw_run]). *)
Definition Atom_out (E : Env) (t : Q) (a : Atom.t) : list CanvasOp :=
  let pos := Atom.position a in
  if (Atom.state a =? 0)%Z then
    [BeginPath; Arc (x pos) (y pos) (Atom.radius a) 0 (TWO_PI E);
     SetFillStyle (Hsl (Atom.hue a)); SetShadowColor (Hsl (Atom.hue a));
     SetShadowBlur 20; Fill; SetShadowBlur 0]
  else if (Atom.state a =? 1)%Z && negb (Qltb 1 (elapsed E t a)) then
    [BeginPath;
     Arc (x pos) (y pos) (double E (Atom.radius a * fade_alpha E t a)) 0 (TWO_PI E);
     SetFillStyle (Hsla (Atom.hue a) (fade_alpha E t a));
     SetShadowColor (Hsla (Atom.hue a) (fade_alpha E t a));
     SetShadowBlur (double E (20 * fade_alpha E t a)); Fill; SetShadowBlur 0]
  else [].

Definition Atom_after (E : Env) (t : Q) (a : Atom.t) : Atom.t :=
  if (Atom.state a =? 1)%Z && Qltb 1 (elapsed E t a) then gone a else a.

(** A call of some entity's [draw]: the atom at an index at a time, the
    photon behind a reference, the snake or the black hole at an index, a
    portal. *)
Inductive DrawCall :=
| DrawAtom (i : nat) (t : Q)
| DrawPhoton (r : nat)
| DrawSnake (k : nat)
| DrawHole (k : nat)
| DrawPortal (portal : Portal.t).

Definition draw_call (E : Env) (c : DrawCall) : M unit :=
  match c with
  | DrawAtom i t => Atom_draw E i t
  | DrawPhoton r => Photon_draw E r
  | DrawSnake k => Snake_draw k
  | DrawHole k => BlackHole_draw E k
  | DrawPortal portal => Portal_draw E portal
  end.

(** Every reference in [photons] points into the store. *)
Definition refs_ok (w : World) : Prop :=
  Forall (fun r => (r < length (photon_store w))%nat) (photons w).

(** [w'] differs from [w] at most in the fields of the photon objects. *)
Definition photons_touched (w w' : World) : Prop :=
  w' = with_photon_store (photon_store w') w
  /\ length (photon_store w') = length (photon_store w).

(** The black hole made at [(px, py)], after [n] calls of [update]. *)
Definition hole_after (px py : Q) (n : nat) : BlackHole.t :=
  Nat.iter n BlackHole_grow (BlackHole_new px py).

(** The portal reached from portal [i] after following the partner link
    [n] times. *)
Fixpoint follow (ps : list Portal.t) (n i : nat) : option nat :=
  match n with
  | O => Some i
  | S n' => p ← ps !! i; j ← Portal.partner p; follow ps n' j
  end.

(** The partner of portal [i] is portal [(i + 1) mod count]. *)
Definition ring (ps : list Portal.t) : Prop :=
  forall i p, ps !! i = Some p ->
    Portal.partner p = Some ((i + 1) mod length ps)%nat.

(** The photon [p] after the move of [update()], from the position [pos]
    that the portals left it at. *)
Definition moved (pos : Vec2) (p : Photon.t) : Photon.t :=
  Photon.mk (mkVec2 (x pos + x (Photon.velocity p)) (y pos + y (Photon.velocity p)))
            (mkVec2 (x (Photon.velocity p)) (y (Photon.velocity p) + GRAVITY))
            (Photon.hue p) (Photon.life p + 1)%Z (Photon.maxLife p)
            (Photon.size p) (Photon.type p).

(** The test at the end of [Photon.update]. *)
Definition expired (w : World) (p : Photon.t) : bool :=
  (Photon.maxLife p <? Photon.life p)%Z
  || Qltb (x (Photon.position p)) 0 || Qltb (width w) (x (Photon.position p))
  || Qltb (y (Photon.position p)) 0 || Qltb (height w) (y (Photon.position p)).

(** The photons and the black holes that an atom has made so far: none
    while it is alive, one batch once it has disintegrated. *)
Definition photons_of (a : Atom.t) : nat :=
  if (Atom.state a =? 0)%Z then 0%nat else photonCount (Atom.type a).

Definition holes_of (a : Atom.t) : nat :=
  if (Atom.state a =? 0)%Z then 0%nat
  else if is_special (Atom.type a) then 1%nat else 0%nat.

Definition special_count (l : list Atom.t) : nat :=
  sum_list_with (fun a => if is_special (Atom.type a) then 1%nat else 0%nat) l.

(** A snake in the middle of [update()]: the length floor, the positions
    within the length, the target inside the atoms. *)
Record snake_mid (n_atoms : nat) (s : Snake.t) : Prop := {
  mid_floor : (10 <= Snake.snakeLength s)%Z;
  mid_bound : (Z.of_nat (length (Snake.positions s)) <= Snake.snakeLength s)%Z;
  mid_target : forall i, Snake.target s = Some i -> (i < n_atoms)%nat }.

(** A snake between two events: it has a head as well. *)
Record snake_ok (n_atoms : nat) (s : Snake.t) : Prop := {
  ok_head : (1 <= length (Snake.positions s))%nat;
  ok_mid : snake_mid n_atoms s }.

(** What holds of the world between two events. *)
Record Inv (w : World) : Prop := {
  inv_snakes : Forall (snake_ok (length (atoms w))) (snakes w);
  inv_ring : ring (portals w);
  inv_portals : length (portals w) = NUM_PORTALS;
  inv_refs : refs_ok w;
  inv_nodup : NoDup (photons w);
  inv_emitted : length (photon_store w) = sum_list_with photons_of (atoms w);
  inv_holes : length (blackHoles w) = sum_list_with holes_of (atoms w) }.

(** The world while [init] fills the arrays: no photon has been made, no
    atom has disintegrated. *)
Record fresh (w : World) : Prop := {
  fresh_store : photon_store w = [];
  fresh_photons : photons w = [];
  fresh_holes : blackHoles w = [];
  fresh_atoms : Forall (fun a => Atom.state a = 0%Z) (atoms w);
  fresh_snakes : Forall (fun s => forall n, snake_ok n s) (snakes w) }.

(** The lengths of the position sequences of the snakes. *)
Definition snake_lengths (w : World) : list nat :=
  map (fun s => length (Snake.positions s)) (snakes w).

(** ** A concrete environment

    Rational stand-ins for the [Math] functions, good to about six decimals
    on the arguments used below; [random()] always returns 0.5 and the clock
    advances by 16 ms per reading.  The stand-ins compute with rationals,
    and [double] rounds nothing here. *)

Definition demo_PI : Q := 3.141592653589793.

(** [q] cut to nine decimals. *)
Definition round9 (q : Q) : Q := Qmake (Qfloor (q * 1000000000)) 1000000000.

(** One step of a Taylor sum in Horner form. *)
Definition horner (a2 k acc : Q) : Q := round9 (1 - a2 / k * acc).

Definition demo_cos (a : Q) : Q :=
  let a2 := round9 (a * a) in
  horner a2 2 (horner a2 12 (horner a2 30 (horner a2 56 (horner a2 90
    (horner a2 132 (horner a2 182 (horner a2 240 1))))))).

Definition demo_sin (a : Q) : Q :=
  let a2 := round9 (a * a) in
  round9 (a * horner a2 6 (horner a2 20 (horner a2 42 (horner a2 72 (horner a2 110
    (horner a2 156 (horner a2 210 (horner a2 272 1)))))))).

Definition demo_hypot (a b : Q) : Q :=
  let a6 := Qfloor (a * 1000000) in
  let b6 := Qfloor (b * 1000000) in
  Qmake (Z.sqrt (a6 * a6 + b6 * b6)) 1000000.

Definition demo_atan (t : Q) : Q := t * (demo_PI / 4 + 0.273 * (1 - Qabs t)).

Definition demo_atan2 (dy dx : Q) : Q :=
  round9
    (if Qeq_bool dx 0 && Qeq_bool dy 0 then 0
     else if Qle_bool (Qabs dy) (Qabs dx) then
       let a := demo_atan (dy / dx) in
       if Qle_bool 0 dx then a
       else if Qle_bool 0 dy then a + demo_PI else a - demo_PI
     else
       let a := demo_atan (dx / dy) in
       if Qle_bool 0 dy then demo_PI / 2 - a else - demo_PI / 2 - a).

Definition demo : Env :=
  mkEnv demo_cos demo_sin demo_atan2 demo_hypot demo_PI
        (fun _ => 0.5) (fun n => inject_Z (Z.of_nat n) * 16) (fun q => q).

(** ** Rounding to the nearest double

    [binary64 q] is the double nearest to [q], the one with the even last
    place of two that are equally near, with the subnormal numbers down to
    [2^-1074] and with no overflow: it is the rounding of the script as long
    as no result passes the largest double. *)

(** The integer nearest to [x], the even one of two that are equally
    near. *)
Definition nearest_even (x : Q) : Z :=
  let f := Qfloor x in
  match Qcompare (x - inject_Z f) (1 # 2) with
  | Lt => f
  | Gt => (f + 1)%Z
  | Eq => if Z.even f then f else (f + 1)%Z
  end.

(** The exponent [e] of a number above 0: [2^e <= q < 2^(e + 1)]. *)
Definition binade (q : Q) : Z :=
  if Qle_bool 1 q then Z.log2 (Qfloor q) else (- Z.log2_up (Qceiling (/ q)))%Z.

(** The exponent of the last place of the double nearest to [q]: 52 places
    below the first one, but not below -1074, where the doubles end. *)
Definition last_place (q : Q) : Z := Z.max (-1074) (binade q - 52).

(** The number in units of its last place. *)
Definition scaled (q : Q) : Q := q / 2 ^ last_place q.

(** The double nearest to a number above 0. *)
Definition round_pos (q : Q) : Q :=
  inject_Z (nearest_even (q / 2 ^ last_place q)) * 2 ^ last_place q.

(** Rounding to the nearest double, ties to even; no overflow. *)
Definition binary64 (q : Q) : Q :=
  match Qcompare q 0 with
  | Eq => 0
  | Gt => round_pos q
  | Lt => - round_pos (- q)
  end.

(** The stand-ins with this rounding. *)
Definition ieee : Env :=
  mkEnv demo_cos demo_sin demo_atan2 demo_hypot demo_PI
        (fun _ => 0.5) (fun n => inject_Z (Z.of_nat n) * 16) binary64.

(** The same stand-ins with random numbers that change from call to call,
    so that atoms, snakes and portals are spread over the canvas. *)
Definition spread : Env :=
  mkEnv demo_cos demo_sin demo_atan2 demo_hypot demo_PI
        (fun n => inject_Z (Z.of_nat ((n * 37 + 11) mod 101)) / 101)
        (fun n => inject_Z (Z.of_nat n) * 16) binary64.

(** Whether the [update()] of snake [k], called in a window of 800 x 600
    right after [init], draws at most one random number. *)
Definition calm_update (E : Env) (k : nat) : bool :=
  match run E 800 600 [] with
  | Some w =>
      match Snake_update E k w with
      | Some (_, w') => (rnd w' <=? S (rnd w))%nat
      | None => false
      end
  | None => false
  end.

(** Whether that call leaves the snake with a head that is not at the [x]
    of the head it had. *)
Definition head_moved (E : Env) (k : nat) : bool :=
  match run E 800 600 [] with
  | Some w =>
      match Snake_update E k w with
      | Some (_, w') =>
          match (s ← snakes w !! k; Snake.positions s !! 0%nat),
                (s' ← snakes w' !! k; Snake.positions s' !! 0%nat) with
          | Some h, Some h' => negb (Qeq_bool (x h) (x h'))
          | _, _ => false
          end
      | None => false
      end
  | None => false
  end.

(** ** Concrete worlds *)

(** An 800 x 600 canvas with the given atoms and photons and nothing else. *)
Definition world_of (ats : list Atom.t) (store : list Photon.t) (refs : list nat) : World :=
  mkWorld 800 600 ats [] store refs [] [] [] 0 0.

(** One special atom, alive. *)
Definition one_atom : World :=
  world_of [Atom.mk (mkVec2 400 300) 0%Z 0 300 10 special] [] [].

(** The same atom, disintegrating since time 0. *)
Definition fading_atom : World :=
  world_of [Atom.mk (mkVec2 400 300) 1%Z 0 300 10 special] [] [].

(** The same atom, disintegrating since the time 16.7, which the clock
    returns as the double nearest to it. *)
Definition late_atom : World :=
  world_of [Atom.mk (mkVec2 400 300) 1%Z (binary64 16.7) 300 10 special] [] [].

(** Two photons in the array: the first at the end of its life, the second
    just made. *)
Definition two_photons : World :=
  world_of []
    [Photon.mk (mkVec2 100 100) (mkVec2 1 0) 300 100%Z 100%Z 3 normal;
     Photon.mk (mkVec2 200 200) (mkVec2 0 1) 300 0%Z 100%Z 3 normal]
    [0%nat; 1%nat].

(** A black hole that has been updated twice. *)
Definition one_hole : World :=
  mkWorld 800 600 [] [] [] [] [hole_after 400 300 2] [] [] 0 0.

(** A snake of 40 positions at the centre of a black hole of radius 50, no
    atoms, no portals. *)
Definition snake_in_hole : World :=
  mkWorld 800 600 []
    [Snake.mk 200 (Hsl 200) (replicate 40 (mkVec2 400 300)) 40 0 None]
    [] [] [BlackHole.mk (mkVec2 400 300) 50 50 0.5] [] [] 0 0.

Definition is_arc (op : CanvasOp) : bool :=
  match op with Arc _ _ _ _ _ => true | _ => false end.

(** ** The phases of [Snake.update] *)

(** The scan for the nearest alive atom, run when the target is null or no
    longer alive ([alive] is the test of the target). *)
Definition seek (E : Env) (head : Vec2) (s : Snake.t) (alive : bool) : M Snake.t :=
  if negb alive then
    found <- forEach atoms (fun i atom (acc : option Q * option nat) =>
               if (Atom.state atom =? 0)%Z then
                 let dist := hypot E (x head - x (Atom.position atom))
                                     (y head - y (Atom.position atom)) in
                 if below dist (fst acc) then ret (Some dist, Some i)
                 else ret acc
               else ret acc)
             (None, Snake.target s) ;;
    ret (with_target (snd found) s)
  else ret s.

(** The turn towards the target, or the random turn. *)
Definition steer (E : Env) (head : Vec2) (s : Snake.t) (alive : bool) : M Snake.t :=
  if alive then
    tg <- deref (Snake.target s) ;;
    a <- atom_at tg ;;
    let dx := x (Atom.position a) - x head in
    let dy := y (Atom.position a) - y head in
    let angleToTarget := atan2 E dy dx in
    let angleDifference := angleToTarget - Snake.angle s in
    ret (with_angle (Snake.angle s
           + atan2 E (sin E angleDifference) (cos E angleDifference) * 0.05) s)
  else
    r <- next_random E ;;
    ret (with_angle (Snake.angle s + (r - 0.5) * 0.2) s).

(** The new head, wrapped around the canvas edges. *)
Definition advance (E : Env) (head : Vec2) (s : Snake.t) (w : World) : Vec2 :=
  let newHead := mkVec2 (double E (x head + double E (cos E (Snake.angle s) * SPEED)))
                        (double E (y head + double E (sin E (Snake.angle s) * SPEED))) in
  let newHead := mkVec2 (js_rem (double E (x newHead + width w)) (width w))
                        (y newHead) in
  mkVec2 (x newHead) (js_rem (double E (y newHead + height w)) (height w)).

(** The collision with the atoms. *)
Definition eat (E : Env) (newHead : Vec2) (s : Snake.t) : M Snake.t :=
  forEach atoms (fun i atom s =>
    if (Atom.state atom =? 0)%Z then
      let dist := hypot E (x newHead - x (Atom.position atom))
                          (y newHead - y (Atom.position atom)) in
      if Qltb dist (Atom.radius atom + SNAKE_SIZE / 2) then
        t <- performance_now E ;;
        Atom_disintegrate E i t ;;;
        s <- deref (Snake_grow (Atom.type atom) s) ;;
        ret (with_target None s)
      else ret s
    else ret s) s.

(** The collision with the black holes. *)
Definition suffer (E : Env) (newHead : Vec2) (s : Snake.t) : M Snake.t :=
  forEach blackHoles (fun _ hole s =>
    let dist := hypot E (x newHead - x (BlackHole.position hole))
                        (y newHead - y (BlackHole.position hole)) in
    if Qltb dist (BlackHole.radius hole + SNAKE_SIZE / 2)
    then ret (Snake_shrink s)
    else ret s) s.

(** The collision with the portals. *)
Definition teleport (E : Env) (newHead : Vec2) : M Vec2 :=
  forEach portals (fun _ portal newHead =>
    let dist := hypot E (x newHead - x (Portal.position portal))
                        (y newHead - y (Portal.position portal)) in
    if Qltb dist (Portal.radius portal + SNAKE_SIZE / 2) then
      r1 <- next_random E ;;
      let offsetX := (r1 - 0.5) * 10 in
      r2 <- next_random E ;;
      let offsetY := (r2 - 0.5) * 10 in
      q <- partner_of portal ;;
      ret (mkVec2 (x (Portal.position q) + offsetX)
                  (y (Portal.position q) + offsetY))
    else ret newHead) newHead.

(** The new head goes in front; one position is popped when the snake is
    then longer than [snakeLength]. *)
Definition settle (k : nat) (newHead : Vec2) (s : Snake.t) : M unit :=
  let ps := newHead :: Snake.positions s in
  let ps := if (Snake.snakeLength s <? Z.of_nat (length ps))%Z
            then removelast ps else ps in
  set_snake k (with_positions ps s).

(** ** What a frame keeps *)

(** What stays of an atom: everything but the start time and the state,
    which does not go back and does not pass 2. *)
Record atom_step (a a' : Atom.t) : Prop := {
  step_position : Atom.position a' = Atom.position a;
  step_hue : Atom.hue a' = Atom.hue a;
  step_radius : Atom.radius a' = Atom.radius a;
  step_type : Atom.type a' = Atom.type a;
  step_state : (Atom.state a <= Atom.state a' <= Z.max (Atom.state a) 2)%Z }.

(** What stays of a photon object: hue, size, type and cap; the life counter
    does not go back. *)
Record photon_step (p p' : Photon.t) : Prop := {
  step_photon_hue : Photon.hue p' = Photon.hue p;
  step_photon_size : Photon.size p' = Photon.size p;
  step_photon_type : Photon.type p' = Photon.type p;
  step_maxLife : Photon.maxLife p' = Photon.maxLife p;
  step_life : (Photon.life p <= Photon.life p')%Z }.

(** [l'] is [l] with its elements changed along [R], followed by new
    elements. *)
Definition extends {A} (R : A -> A -> Prop) (l l' : list A) : Prop :=
  exists l1 l2, l' = l1 ++ l2 /\ Forall2 R l l1.

(** A black hole as [disintegrate] makes it, at the place of a special atom
    of [ats]. *)
Definition born (ats : list Atom.t) (h : BlackHole.t) : Prop :=
  exists a, a ∈ ats /\ Atom.type a = special
            /\ h = BlackHole_new (x (Atom.position a)) (y (Atom.position a)).

(** What every step of a frame after the loop over the black holes keeps. *)
Record steps (w w' : World) : Prop := {
  st_width : width w' = width w;
  st_height : height w' = height w;
  st_atoms : Forall2 atom_step (atoms w) (atoms w');
  st_portals : portals w' = portals w;
  st_snakes : length (snakes w') = length (snakes w);
  st_holes : exists new, blackHoles w' = blackHoles w ++ new /\ Forall (born (atoms w)) new;
  st_store : extends photon_step (photon_store w) (photon_store w') }.

(** ** The background grid *)

(** The coordinate of the [i]-th grid line: 0, then 50 more each round. *)
Definition grid_coord (i : nat) : Q := Nat.iter i (fun v => v + 50) 0.

(** The number of grid lines on a side of length [limit]. *)
Definition grid_count (limit : Q) : nat :=
  if Qltb limit 0 then 0%nat else grid_fuel limit.

(** ** The pull of a black hole *)

(** The photon [p] after the loop body of [BlackHole.update] for the black
    hole [h]: inside the radius the velocity turns towards the hole. *)
Definition pulled (E : Env) (h : BlackHole.t) (p : Photon.t) : Photon.t :=
  let dx := x (BlackHole.position h) - x (Photon.position p) in
  let dy := y (BlackHole.position h) - y (Photon.position p) in
  let dist := hypot E dx dy in
  if Qltb dist (BlackHole.radius h) then
    let angle := atan2 E dy dx in
    let vel := Photon.velocity p in
    Photon.mk (Photon.position p)
              (mkVec2 (x vel + cos E angle * 0.5) (y vel + sin E angle * 0.5))
              (Photon.hue p) (Photon.life p) (Photon.maxLife p)
              (Photon.size p) (Photon.type p)
  else p.

(** The store after the photons behind the references [refs] have been
    pulled by [h]. *)
Definition pull_all (E : Env) (h : BlackHole.t) (refs : list nat)
    (store : list Photon.t) : list Photon.t :=
  imap (fun r p => if decide (r ∈ refs) then pulled E h p else p) store.

(** A black hole of radius 10 and a photon 5 to its right, in the array;
    a second photon object that the array no longer holds. *)
Definition hole_and_photon : World :=
  mkWorld 800 600 [] []
    [Photon.mk (mkVec2 405 300) (mkVec2 1 0) 300 7%Z 100%Z 3 normal;
     Photon.mk (mkVec2 400 300) (mkVec2 0 1) 300 101%Z 100%Z 3 normal]
    [0%nat] [BlackHole.mk (mkVec2 400 300) 10 50 0.5] [] [] 0 0.

(** ** What the loops of a frame keep *)

(** What the pull of a black hole keeps of a photon: everything but the
    velocity. *)
Record photon_turn (p p' : Photon.t) : Prop := {
  turn_position : Photon.position p' = Photon.position p;
  turn_hue : Photon.hue p' = Photon.hue p;
  turn_life : Photon.life p' = Photon.life p;
  turn_maxLife : Photon.maxLife p' = Photon.maxLife p;
  turn_size : Photon.size p' = Photon.size p;
  turn_type : Photon.type p' = Photon.type p }.

(** What [BlackHole.update] and the draw methods keep: everything but the
    black holes, the canvas and the velocities of the photons. *)
Record pulls (w w' : World) : Prop := {
  pl_width : width w' = width w;
  pl_height : height w' = height w;
  pl_atoms : atoms w' = atoms w;
  pl_snakes : snakes w' = snakes w;
  pl_portals : portals w' = portals w;
  pl_photons : photons w' = photons w;
  pl_store : Forall2 photon_turn (photon_store w) (photon_store w') }.

(** What a frame keeps. *)
Record frame (w w' : World) : Prop := {
  fr_width : width w' = width w;
  fr_height : height w' = height w;
  fr_portals : portals w' = portals w;
  fr_snakes : length (snakes w') = length (snakes w);
  fr_atoms : Forall2 atom_step (atoms w) (atoms w');
  fr_holes : exists new, blackHoles w' = (BlackHole_grow <$> blackHoles w) ++ new
                         /\ Forall (born (atoms w)) new;
  fr_store : extends photon_step (photon_store w) (photon_store w') }.

(** ** The photons between two events *)

(** A step that leaves the photon objects alone and adds new ones: the new
    objects at the end of the store, with life 0 and cap 100, and their
    references at the end of the array. *)
Definition grows (w w' : World) : Prop :=
  exists new, photon_store w' = photon_store w ++ new
    /\ photons w' = photons w ++ seq (length (photon_store w)) (length new)
    /\ Forall (fun p => Photon.life p = 0%Z /\ Photon.maxLife p = 100%Z) new.

(** The photons between two events: no reference is twice in the array,
    every object has the cap 100 and a life that is not negative, and the
    objects in the array have not passed the cap. *)
Record photons_ok (w : World) : Prop := {
  po_nodup : NoDup (photons w);
  po_store : Forall (fun p => Photon.maxLife p = 100%Z /\ (0 <= Photon.life p)%Z)
                    (photon_store w);
  po_live : Forall (fun r => exists p, photon_store w !! r = Some p
                                       /\ (Photon.life p <= 100)%Z) (photons w) }.

(** ** What [init] makes *)

(** The [i]-th atom that [init] makes in a window of [iw] x [ih]: it takes
    the random numbers 4i to 4i + 3. *)
Definition atom_made (E : Env) (iw ih : Q) (i : nat) : Atom.t :=
  Atom.mk (mkVec2 (random E (4 * i) * iw) (random E (4 * i + 1) * ih)) 0%Z 0
          (270 + random E (4 * i + 2) * 60) 10
          (if Qltb (random E (4 * i + 3)) 0.5 then normal else special).

(** The [j]-th portal that [init] makes, before the partners are assigned:
    it takes two random numbers after those of the atoms and the snakes. *)
Definition portal_raw (E : Env) (iw ih : Q) (j : nat) : Portal.t :=
  Portal_new (random E (4 * NUM_ATOMS + 4 * NUM_SNAKES + 2 * j) * iw)
             (random E (4 * NUM_ATOMS + 4 * NUM_SNAKES + 2 * j + 1) * ih).

(** The same portal with its partner. *)
Definition portal_made (E : Env) (iw ih : Q) (j : nat) : Portal.t :=
  Portal.mk (Portal.position (portal_raw E iw ih j)) (Portal.radius (portal_raw E iw ih j))
            (Some ((j + 1) mod NUM_PORTALS)%nat).

(** The number of clicks among the events. *)
Fixpoint clicks (evs : list Event) : nat :=
  match evs with
  | [] => 0
  | Click _ _ :: evs' => S (clicks evs')
  | _ :: evs' => clicks evs'
  end.

(** The window size after the events: that of the last resize. *)
Fixpoint size_after (iw ih : Q) (evs : list Event) : Q * Q :=
  match evs with
  | [] => (iw, ih)
  | Resize iw' ih' :: evs' => size_after iw' ih' evs'
  | _ :: evs' => size_after iw ih evs'
  end.

(** The world while [init] fills the arrays: [na] atoms, [ns] snakes and
    [np] portals have been made. *)
Record made (E : Env) (iw ih : Q) (na ns np : nat) (w : World) : Prop := {
  md_width : width w = iw;
  md_height : height w = ih;
  md_atoms : atoms w = atom_made E iw ih <$> seq 0 na;
  md_snakes : length (snakes w) = ns;
  md_portals : portals w = portal_raw E iw ih <$> seq 0 np;
  md_rnd : rnd w = (4 * na + 4 * ns + 2 * np)%nat;
  md_photons : photons w = [];
  md_store : photon_store w = [];
  md_holes : blackHoles w = [] }.

(** A black hole at the place of a special atom of [ats], after some calls
    of [update]. *)
Definition hole_of (ats : list Atom.t) (h : BlackHole.t) : Prop :=
  exists a n, a ∈ ats /\ Atom.type a = special
              /\ h = hole_after (x (Atom.position a)) (y (Atom.position a)) n.

(** What holds of the world between two events, whatever the events were. *)
Record settled (E : Env) (iw ih : Q) (w : World) : Prop := {
  se_atoms : Forall2 atom_step (atom_made E iw ih <$> seq 0 NUM_ATOMS) (atoms w);
  se_portals : portals w = portal_made E iw ih <$> seq 0 NUM_PORTALS;
  se_photons : photons_ok w;
  se_holes : Forall (hole_of (atoms w)) (blackHoles w) }.

(** ** The portals *)

(** The point [p] is within 5 of [c] in both coordinates: where the offsets
    of a teleport leave it. *)
Definition near (c p : Vec2) : Prop :=
  Qabs (x p - x c) <= 5 /\ Qabs (y p - y c) <= 5.

(** The test of the portal loop in [Snake.update]. *)
Definition enters (E : Env) (newHead : Vec2) (portal : Portal.t) : bool :=
  Qltb (hypot E (x newHead - x (Portal.position portal))
                (y newHead - y (Portal.position portal)))
       (Portal.radius portal + SNAKE_SIZE / 2).

(** Three portals in a ring, as [init] leaves them. *)
Definition three_portals : World :=
  mkWorld 800 600 [] [] [] [] []
    [Portal.mk (mkVec2 100 100) 20 (Some 1%nat);
     Portal.mk (mkVec2 400 300) 20 (Some 2%nat);
     Portal.mk (mkVec2 700 500) 20 (Some 0%nat)] [] 0 0.

(** The test of the portal loop in [Photon.update]. *)
Definition warps (E : Env) (pos : Vec2) (portal : Portal.t) : bool :=
  Qltb (hypot E (x pos - x (Portal.position portal))
                (y pos - y (Portal.position portal)))
       (Portal.radius portal).

(** The loop over the portals in [Photon.update], from the position [pos]. *)
Definition warp (E : Env) (pos : Vec2) : M Vec2 :=
  forEach portals (fun _ portal pos =>
    let dx := x pos - x (Portal.position portal) in
    let dy := y pos - y (Portal.position portal) in
    let dist := hypot E dx dy in
    if Qltb dist (Portal.radius portal) then
      q <- partner_of portal ;;
      r1 <- next_random E ;;
      r2 <- next_random E ;;
      ret (mkVec2 (x (Portal.position q) + (r1 - 0.5) * 10)
                  (y (Portal.position q) + (r2 - 0.5) * 10))
    else ret pos) pos.

(** ** The scan for an atom and the black holes *)

(** The distance that [Snake.update] computes from [head] to the atom. *)
Definition dist_to (E : Env) (head : Vec2) (a : Atom.t) : Q :=
  hypot E (x head - x (Atom.position a)) (y head - y (Atom.position a)).

(** The test of the loop over the black holes in [Snake.update]. *)
Definition swallows (E : Env) (newHead : Vec2) (hole : BlackHole.t) : bool :=
  Qltb (hypot E (x newHead - x (BlackHole.position hole))
                (y newHead - y (BlackHole.position hole)))
       (BlackHole.radius hole + SNAKE_SIZE / 2).

(** ** The atoms that a snake eats *)

(** The test of the loop over the atoms in [Snake.update]: the atom is
    alive and the new head touches it. *)
Definition bites (E : Env) (newHead : Vec2) (a : Atom.t) : bool :=
  (Atom.state a =? 0)%Z
  && Qltb (hypot E (x newHead - x (Atom.position a)) (y newHead - y (Atom.position a)))
          (Atom.radius a + SNAKE_SIZE / 2).

(** The atoms that the new head eats. *)
Definition eaten (E : Env) (newHead : Vec2) (ats : list Atom.t) : list Atom.t :=
  filter (fun a => bites E newHead a = true) ats.

(** The length that the eaten atoms add to the snake. *)
Definition growth (ats : list Atom.t) : nat :=
  sum_list_with (fun a => lengthToAdd (Atom.type a)) ats.

(** The photons that the eaten atoms send out. *)
Definition burst (ats : list Atom.t) : nat :=
  sum_list_with (fun a => photonCount (Atom.type a)) ats.

(** What the loop does to one atom. *)
Definition eats (E : Env) (newHead : Vec2) (a a' : Atom.t) : Prop :=
  if bites E newHead a then exists t, a' = disintegrated t a else a' = a.

(** The snake and the world after the first [k] rounds of the loop over the
    atoms, from the snake [s] with the last position [tail] and the world
    [w]. *)
Record eat_state (E : Env) (newHead : Vec2) (s : Snake.t) (w : World) (tail : Vec2)
    (k : nat) (s1 : Snake.t) (w1 : World) : Prop := {
  es_snake : s1 = Snake.mk (Snake.hue s) (Snake.color s)
               (Snake.positions s
                ++ replicate (growth (eaten E newHead (take k (atoms w)))) tail)
               (Snake.snakeLength s
                + Z.of_nat (growth (eaten E newHead (take k (atoms w)))))%Z
               (Snake.angle s)
               (match eaten E newHead (take k (atoms w)) with
                | [] => Snake.target s
                | _ => None
                end);
  es_atoms : exists l1, atoms w1 = l1 ++ drop k (atoms w)
                        /\ Forall2 (eats E newHead) (take k (atoms w)) l1;
  es_store : exists new, photon_store w1 = photon_store w ++ new
               /\ length new = burst (eaten E newHead (take k (atoms w)))
               /\ photons w1 = photons w ++ seq (length (photon_store w)) (length new);
  es_holes : blackHoles w1
             = blackHoles w ++ flat_map spawned_holes (eaten E newHead (take k (atoms w)));
  es_rest : width w1 = width w /\ height w1 = height w /\ snakes w1 = snakes w
            /\ portals w1 = portals w /\ ctx w1 = ctx w }.

(** ** The loop over the photons *)

(** The loop of [animate] over the photons. *)
Definition photon_pass (E : Env) : M unit :=
  forEach photons (fun _ r _ => Photon_update E r ;;; Photon_draw E r) tt.

(** The photon behind [r] has the life in [w1] that it had in [w]: no
    [update()] has run on it in between. *)
Definition untouched (w w1 : World) (r : nat) : bool :=
  bool_decide (Photon.life <$> photon_store w1 !! r = Photon.life <$> photon_store w !! r).

(** The world after [k] rounds of the loop over the photons, from [w]. *)
Record pass_state (w : World) (k : nat) (w1 : World) : Prop := {
  ps_portals : portals w1 = portals w;
  ps_sub : photons w1 `sublist_of` photons w;
  ps_length : length (photon_store w1) = length (photon_store w);
  ps_once : forall r p, photon_store w !! r = Some p ->
      exists p', photon_store w1 !! r = Some p'
        /\ (p' = p \/ (Photon.life p' = (Photon.life p + 1)%Z
                       /\ (r ∉ drop k (photons w1)) /\ (r ∈ photons w)));
  ps_skip : (length (filter (fun r => untouched w w1 r = true) (take k (photons w1)))
             + length (photons w1) <= length (photons w))%nat;
  ps_all : length (photons w1) = length (photons w) ->
      photons w1 = photons w
      /\ forall j r p, (j < k)%nat -> photons w !! j = Some r ->
           photon_store w !! r = Some p ->
           exists p', photon_store w1 !! r = Some p'
                      /\ Photon.life p' = (Photon.life p + 1)%Z }.

(** ** A snake that meets nothing *)

(** The first half of [Snake.update]: the snake with its target and its new
    angle, and the new head that it takes. *)
Definition aim (E : Env) (k : nat) : M (Snake.t * Vec2) :=
  s <- snake_at k ;;
  head <- deref (Snake.positions s !! 0%nat) ;;
  alive <- target_alive s ;;
  s <- seek E head s alive ;;
  alive <- target_alive s ;;
  s <- steer E head s alive ;;
  w <- get ;;
  ret (s, advance E head s w).

(** A snake of three positions, at its full length, alone on the canvas. *)
Definition lone_snake : World :=
  mkWorld 800 600 []
    [Snake.mk 200 (Hsl 200) (replicate 3 (mkVec2 400 300)) 3 0 None]
    [] [] [] [] [] 0 0.

(** * Properties *)

(** ** Reading computations *)

Lemma Qltb_true a b : Qltb a b = true <-> a < b.
Proof.
  unfold Qltb. destruct (Qlt_le_dec a b) as [H|H]; split; intros; try done.
  exfalso. apply (Qlt_irrefl a). eapply Qlt_le_trans; eauto.
Qed.

Lemma Qltb_false a b : Qltb a b = false <-> b <= a.
Proof.
  unfold Qltb. destruct (Qlt_le_dec a b) as [H|H]; split; intros; try done.
  exfalso. apply (Qlt_irrefl a). eapply Qlt_le_trans; eauto.
Qed.

Lemma bind_Some {A B} (m : M A) (f : A -> M B) w a w' :
  m w = Some (a, w') -> bind m f w = f a w'.
Proof. unfold bind. by intros ->. Qed.

Lemma bind_inv {A B} (m : M A) (f : A -> M B) w r :
  bind m f w = Some r -> exists a w', m w = Some (a, w') /\ f a w' = Some r.
Proof.
  unfold bind. destruct (m w) as [[a w']|]; [|done]. intros. by exists a, w'.
Qed.

(** ** Rounding *)

Section Rounding.

Variable fl : Q -> Q.
Hypothesis Hfl : rounding fl.

Lemma round_proper a b : a == b -> fl a == fl b.
Proof.
  intros Hab. apply Qle_antisym; apply (round_mono fl Hfl); rewrite Hab; apply Qle_refl.
Qed.

Lemma round_dyadic (m : Z) (e : nat) q :
  (Z.abs m <= 2 ^ 53)%Z -> (e <= 1074)%nat ->
  q == inject_Z m / 2 ^ Z.of_nat e -> fl q == q.
Proof.
  intros Hm He Hq. rewrite (round_proper _ _ Hq), Hq. by apply round_exact.
Qed.

Lemma round_0 : fl 0 == 0.
Proof. apply (round_dyadic 0 0); [done|lia|reflexivity]. Qed.

Lemma round_1 : fl 1 == 1.
Proof. apply (round_dyadic 1 0); [done|lia|reflexivity]. Qed.

Lemma round_1000 : fl 1000 == 1000.
Proof. apply (round_dyadic 1000 0); [done|lia|reflexivity]. Qed.

Lemma round_to a b : a == b -> fl b == b -> fl a == b.
Proof. intros Hab Hb. rewrite (round_proper _ _ Hab). exact Hb. Qed.

Lemma round_nonneg a : 0 <= a -> 0 <= fl a.
Proof. intros Ha. rewrite <- round_0. by apply (round_mono fl Hfl). Qed.

Lemma round_le_1 a : a <= 1 -> fl a <= 1.
Proof. intros Ha. rewrite <- round_1. by apply (round_mono fl Hfl). Qed.

(** The error of one rounding of a number between 0 and [b]. *)
Lemma round_near a b :
  0 <= a -> a <= b -> b <= 1000 ->
  - (b * (1 # 9007199254740992) + (1 # 9007199254740992)) <= fl a - a
  /\ fl a - a <= b * (1 # 9007199254740992) + (1 # 9007199254740992).
Proof.
  intros H0 Hb Hk.
  assert (Habs : Qabs a == a) by (apply Qabs_pos; exact H0).
  pose proof (round_error fl Hfl a) as He. rewrite Habs in He.
  assert (Hbig : a <= 2 ^ 1023).
  { apply Qle_trans with 1000; [lra|]. vm_compute. discriminate. }
  specialize (He Hbig). apply Qabs_Qle_condition in He as [He1 He2].
  assert (Heta : 1 / 2 ^ 1075 <= 1 # 9007199254740992) by (vm_compute; discriminate).
  assert (Hu : a / 2 ^ 53 == a * (1 # 9007199254740992)) by reflexivity.
  rewrite Hu in He1, He2. revert He1 He2 Heta. generalize (1 / 2 ^ 1075). intros eta He1 He2 Heta.
  split; lra.
Qed.

Lemma fade_near d :
  0 <= d -> d <= 1000 ->
  Qabs (fl (1 - fl (fl d / 1000)) - (1 - d / 1000)) <= 1 / 2 ^ 50.
Proof.
  intros H0 H1.
  assert (A0 : 0 <= fl d) by (by apply round_nonneg).
  assert (A1 : fl d <= 1000) by (rewrite <- round_1000; by apply (round_mono fl Hfl)).
  assert (Hd : d / 1000 == d * (1 # 1000)) by reflexivity.
  rewrite Hd.
  assert (Hq : fl d / 1000 == fl d * (1 # 1000)) by reflexivity.
  revert Hq. generalize (fl d / 1000). intros q Hq.
  assert (C0 : 0 <= fl q) by (apply round_nonneg; lra).
  assert (C1 : fl q <= 1) by (apply round_le_1; lra).
  destruct (round_near d 1000 H0 H1 ltac:(lra)) as [E1 E2].
  destruct (round_near q 1 ltac:(lra) ltac:(lra) ltac:(lra)) as [F1 F2].
  destruct (round_near (1 - fl q) 1 ltac:(lra) ltac:(lra) ltac:(lra)) as [G1 G2].
  apply Qabs_Qle_condition.
  change (1 / 2 ^ 50) with (1 # 1125899906842624).
  revert G1 G2. generalize (fl (1 - fl q)). intros x3 G1 G2.
  revert C0 C1 F1 F2 G1 G2. generalize (fl q). intros x2 C0 C1 F1 F2 G1 G2.
  revert A0 A1 Hq E1 E2. generalize (fl d). intros x1 A0 A1 Hq E1 E2.
  split; lra.
Qed.

(** The quotient that [Atom.draw] compares with 1, on both sides of the
    threshold. *)
Lemma fade_below d : d <= 1000 -> fl (fl d / 1000) <= 1.
Proof.
  intros Hd. apply round_le_1.
  pose proof (round_mono fl Hfl _ _ Hd) as H1. rewrite round_1000 in H1.
  apply Qle_shift_div_r; [reflexivity|]. lra.
Qed.

Lemma fade_above d : 1000.001 <= d -> 1 < fl (fl d / 1000).
Proof.
  intros Hd.
  assert (H1 : 1024001 * (1 # 1024) <= fl d).
  { rewrite <- (round_dyadic 1024001 10 (1024001 * (1 # 1024))); [|done|lia|reflexivity].
    apply (round_mono fl Hfl). lra. }
  assert (Hq : fl d / 1000 == fl d * (1 # 1000)) by reflexivity.
  revert Hq. generalize (fl d / 1000). intros q Hq.
  assert (H2 : 1048577 * (1 # 1048576) <= fl q).
  { rewrite <- (round_dyadic 1048577 20 (1048577 * (1 # 1048576))); [|done|lia|reflexivity].
    apply (round_mono fl Hfl). lra. }
  lra.
Qed.

End Rounding.

(** ** Rounding to the nearest double *)

(** *** The nearest integer *)

Lemma nearest_even_comp x y : x == y -> nearest_even x = nearest_even y.
Proof.
  intros H. unfold nearest_even. rewrite (Qfloor_comp x y H).
  assert (Hc : Qcompare (x - inject_Z (Qfloor y)) (1 # 2)
               = Qcompare (y - inject_Z (Qfloor y)) (1 # 2)).
  { apply Qcompare_comp; [rewrite H; reflexivity|reflexivity]. }
  rewrite Hc. reflexivity.
Qed.

Lemma nearest_even_near x :
  - (1 # 2) <= inject_Z (nearest_even x) - x /\ inject_Z (nearest_even x) - x <= 1 # 2.
Proof.
  unfold nearest_even.
  pose proof (Qfloor_le x) as H1. pose proof (Qlt_floor x) as H2.
  rewrite inject_Z_plus in H2. change (inject_Z 1) with 1 in H2.
  assert (Hup : inject_Z (Qfloor x + 1) == inject_Z (Qfloor x) + 1)
    by (rewrite inject_Z_plus; reflexivity).
  destruct (Qcompare_spec (x - inject_Z (Qfloor x)) (1 # 2)) as [H|H|H].
  - destruct (Z.even (Qfloor x)); rewrite ?Hup; split; lra.
  - split; lra.
  - rewrite Hup. split; lra.
Qed.

Lemma nearest_even_Z z : nearest_even (inject_Z z) = z.
Proof.
  unfold nearest_even. rewrite Qfloor_Z.
  assert (H : Qcompare (inject_Z z - inject_Z z) (1 # 2) = Lt).
  { apply (proj1 (Qlt_alt _ _)). generalize (inject_Z z). intros q. lra. }
  rewrite H. reflexivity.
Qed.

Lemma nearest_even_int x z : x == inject_Z z -> nearest_even x = z.
Proof. intros H. rewrite (nearest_even_comp _ _ H). apply nearest_even_Z. Qed.

Lemma nearest_even_mono x y : x <= y -> (nearest_even x <= nearest_even y)%Z.
Proof.
  intros Hxy. destruct (Qle_lt_or_eq _ _ Hxy) as [Hlt|Heq].
  - destruct (Z.le_gt_cases (nearest_even x) (nearest_even y)) as [H|H]; [exact H|].
    exfalso.
    assert (H1 : inject_Z (nearest_even y) + 1 <= inject_Z (nearest_even x)).
    { change 1 with (inject_Z 1). rewrite <- inject_Z_plus, <- Zle_Qle. lia. }
    destruct (nearest_even_near x) as [_ Hx]. destruct (nearest_even_near y) as [Hy _].
    lra.
  - rewrite (nearest_even_comp _ _ Heq). lia.
Qed.

(** *** The exponent *)

Lemma pow2_pos e : 0 < 2 ^ e.
Proof. apply Qpower_0_lt. reflexivity. Qed.

Lemma pow2_Z k : (0 <= k)%Z -> inject_Z (2 ^ k) == 2 ^ k.
Proof. intros Hk. rewrite Zpower_Qpower by exact Hk. reflexivity. Qed.

Lemma pow2_add a b : 2 ^ (a + b) == 2 ^ a * 2 ^ b.
Proof. apply Qpower_plus. discriminate. Qed.

Lemma pow2_le a b : (a <= b)%Z -> 2 ^ a <= 2 ^ b.
Proof. intros H. apply Qpower_le_compat_l; [exact H|discriminate]. Qed.

Lemma pow2_lt_inv a b : 2 ^ a < 2 ^ b -> (a < b)%Z.
Proof. intros H. apply (Qpower_lt_compat_l_inv 2); [exact H|reflexivity]. Qed.

Lemma binade_spec q : 0 < q -> 2 ^ binade q <= q /\ q < 2 ^ (binade q + 1).
Proof.
  intros Hq. unfold binade. destruct (Qle_bool 1 q) eqn:H1.
  - apply Qle_bool_iff in H1.
    assert (Hf : (1 <= Qfloor q)%Z).
    { change 1%Z with (Qfloor 1). apply Qfloor_resp_le; exact H1. }
    destruct (Z.log2_spec (Qfloor q)) as [L1 L2]; [lia|].
    pose proof (Z.log2_nonneg (Qfloor q)) as L0.
    split.
    + rewrite <- pow2_Z by exact L0.
      apply Qle_trans with (inject_Z (Qfloor q)); [|apply Qfloor_le].
      rewrite <- Zle_Qle. exact L1.
    + apply Qlt_le_trans with (inject_Z (Qfloor q + 1)); [apply Qlt_floor|].
      rewrite <- pow2_Z by lia. rewrite <- Zle_Qle.
      change (Z.log2 (Qfloor q) + 1)%Z with (Z.succ (Z.log2 (Qfloor q))). lia.
  - assert (Hlt : q < 1).
    { apply Qnot_le_lt. intros H. apply Qle_bool_iff in H. congruence. }
    assert (Hc : 1 < / q).
    { apply Qlt_shift_inv_l; [exact Hq|]. lra. }
    assert (Hn : (1 < Qceiling (/ q))%Z).
    { rewrite Zlt_Qlt. apply Qlt_le_trans with (/ q); [exact Hc|apply Qle_ceiling]. }
    destruct (Z.log2_up_spec (Qceiling (/ q)) Hn) as [L1 L2].
    pose proof (Z.log2_up_pos (Qceiling (/ q)) Hn) as L0.
    set (k := Z.log2_up (Qceiling (/ q))) in *.
    assert (Hqq : / q * q == 1) by (field; lra).
    split.
    + rewrite Qpower_opp. apply Qle_shift_inv_r; [apply pow2_pos|].
      assert (H : / q <= 2 ^ k).
      { apply Qle_trans with (inject_Z (Qceiling (/ q))); [apply Qle_ceiling|].
        rewrite <- pow2_Z by lia. rewrite <- Zle_Qle. exact L2. }
      rewrite <- Hqq. rewrite (Qmult_comm q). apply Qmult_le_compat_r; [exact H|lra].
    + replace (- k + 1)%Z with (- (k - 1))%Z by lia.
      rewrite Qpower_opp. apply Qlt_shift_inv_l; [apply pow2_pos|].
      assert (H : 2 ^ (k - 1) < / q).
      { apply Qle_lt_trans with (inject_Z (Qceiling (/ q) - 1)); [|apply Qceiling_lt].
        rewrite <- pow2_Z by lia. rewrite <- Zle_Qle.
        change (k - 1)%Z with (Z.pred k). lia. }
      rewrite <- Hqq. rewrite (Qmult_comm q). apply Qmult_lt_compat_r; [exact Hq|exact H].
Qed.

Lemma binade_mono a b : 0 < a -> a <= b -> (binade a <= binade b)%Z.
Proof.
  intros Ha Hab.
  destruct (binade_spec a Ha) as [A1 _].
  destruct (binade_spec b (Qlt_le_trans _ _ _ Ha Hab)) as [_ B2].
  assert (binade a < binade b + 1)%Z; [|lia].
  apply pow2_lt_inv. apply Qle_lt_trans with a; [exact A1|].
  apply Qle_lt_trans with b; [exact Hab|exact B2].
Qed.

Lemma last_place_mono a b : 0 < a -> a <= b -> (last_place a <= last_place b)%Z.
Proof. intros Ha Hab. pose proof (binade_mono a b Ha Hab). unfold last_place. lia. Qed.

(** *** A number above 0 *)

Lemma scaled_back q : scaled q * 2 ^ last_place q == q.
Proof.
  unfold scaled. field. intros H. pose proof (pow2_pos (last_place q)) as Hp.
  rewrite H in Hp. discriminate.
Qed.

Lemma scaled_lt q : 0 < q -> scaled q < 2 ^ 53.
Proof.
  intros Hq. unfold scaled. apply Qlt_shift_div_r; [apply pow2_pos|].
  destruct (binade_spec q Hq) as [_ B2].
  apply Qlt_le_trans with (2 ^ (binade q + 1)); [exact B2|].
  rewrite <- pow2_add. apply pow2_le. unfold last_place. lia.
Qed.

Lemma scaled_ge q : 0 < q -> (-1074 < last_place q)%Z -> 2 ^ 52 <= scaled q.
Proof.
  intros Hq He. unfold scaled. apply Qle_shift_div_l; [apply pow2_pos|].
  destruct (binade_spec q Hq) as [B1 _].
  apply Qle_trans with (2 ^ binade q); [|exact B1].
  rewrite <- pow2_add. apply pow2_le. unfold last_place in *. lia.
Qed.

Lemma round_pos_scaled q :
  round_pos q = inject_Z (nearest_even (scaled q)) * 2 ^ last_place q.
Proof. reflexivity. Qed.

Lemma nearest_scaled_le q : 0 < q -> (nearest_even (scaled q) <= 2 ^ 53)%Z.
Proof.
  intros Hq. rewrite <- (nearest_even_Z (2 ^ 53)). apply nearest_even_mono.
  rewrite pow2_Z by lia. apply Qlt_le_weak. apply scaled_lt. exact Hq.
Qed.

Lemma nearest_scaled_ge q :
  0 < q -> (-1074 < last_place q)%Z -> (2 ^ 52 <= nearest_even (scaled q))%Z.
Proof.
  intros Hq He. rewrite <- (nearest_even_Z (2 ^ 52)). apply nearest_even_mono.
  rewrite pow2_Z by lia. apply scaled_ge; assumption.
Qed.

Lemma nearest_scaled_nonneg q : 0 < q -> (0 <= nearest_even (scaled q))%Z.
Proof.
  intros Hq. rewrite <- (nearest_even_Z 0). apply nearest_even_mono.
  unfold scaled. apply Qle_shift_div_l; [apply pow2_pos|].
  change (inject_Z 0) with 0. rewrite Qmult_0_l. lra.
Qed.

Lemma round_pos_nonneg q : 0 < q -> 0 <= round_pos q.
Proof.
  intros Hq. rewrite round_pos_scaled. apply Qmult_le_0_compat.
  - change 0 with (inject_Z 0). rewrite <- Zle_Qle. apply nearest_scaled_nonneg. exact Hq.
  - apply Qlt_le_weak, pow2_pos.
Qed.

Lemma round_pos_mono a b : 0 < a -> a <= b -> round_pos a <= round_pos b.
Proof.
  intros Ha Hab. assert (Hb : 0 < b) by (eapply Qlt_le_trans; eauto).
  rewrite !round_pos_scaled.
  pose proof (last_place_mono a b Ha Hab) as He.
  destruct (Z.eq_dec (last_place a) (last_place b)) as [Heq|Hne].
  - unfold scaled. rewrite Heq.
    apply Qmult_le_compat_r; [|apply Qlt_le_weak, pow2_pos].
    rewrite <- Zle_Qle. apply nearest_even_mono.
    apply Qmult_le_compat_r; [exact Hab|].
    apply Qlt_le_weak, Qinv_lt_0_compat, pow2_pos.
  - assert (Hlt : (last_place a + 1 <= last_place b)%Z) by lia.
    assert (Hnorm : (-1074 < last_place b)%Z) by (unfold last_place in *; lia).
    apply Qle_trans with (inject_Z (2 ^ 53) * 2 ^ last_place a).
    { apply Qmult_le_compat_r; [|apply Qlt_le_weak, pow2_pos].
      rewrite <- Zle_Qle. apply nearest_scaled_le. exact Ha. }
    apply Qle_trans with (inject_Z (2 ^ 52) * 2 ^ last_place b).
    2:{ apply Qmult_le_compat_r; [|apply Qlt_le_weak, pow2_pos].
        rewrite <- Zle_Qle. apply nearest_scaled_ge; assumption. }
    rewrite !pow2_Z by lia. rewrite <- !pow2_add. apply pow2_le. lia.
Qed.

Lemma round_pos_comp a b : 0 < a -> a == b -> round_pos a == round_pos b.
Proof.
  intros Ha Hab. assert (Hb : 0 < b) by (rewrite <- Hab; exact Ha).
  apply Qle_antisym; apply round_pos_mono; try assumption; rewrite Hab; apply Qle_refl.
Qed.

(** The result is off by at most half a unit of the last place. *)
Lemma round_pos_near q :
  Qabs (round_pos q - q) <= (1 # 2) * 2 ^ last_place q.
Proof.
  rewrite round_pos_scaled.
  assert (H : inject_Z (nearest_even (scaled q)) * 2 ^ last_place q - q
              == (inject_Z (nearest_even (scaled q)) - scaled q) * 2 ^ last_place q).
  { pose proof (scaled_back q) as Hb. revert Hb.
    generalize (inject_Z (nearest_even (scaled q))) (scaled q) (2 ^ last_place q).
    intros m x s Hb. rewrite <- Hb. ring. }
  rewrite H, Qabs_Qmult.
  rewrite (Qabs_pos (2 ^ last_place q)) by apply Qlt_le_weak, pow2_pos.
  apply Qmult_le_compat_r; [|apply Qlt_le_weak, pow2_pos].
  apply Qabs_Qle_condition. apply nearest_even_near.
Qed.

Lemma half_last_place q :
  0 < q -> (1 # 2) * 2 ^ last_place q <= q / 2 ^ 53 + 1 / 2 ^ 1075.
Proof.
  intros Hq. destruct (Z.le_gt_cases (binade q - 52) (-1074)) as [Hsub|Hnorm].
  - assert (He : last_place q = (-1074)%Z) by (unfold last_place; lia).
    rewrite He.
    assert (H1 : (1 # 2) * 2 ^ (-1074) == 1 / 2 ^ 1075) by (vm_compute; reflexivity).
    assert (H2 : 0 <= q / 2 ^ 53).
    { apply Qle_shift_div_l; [apply pow2_pos|]. lra. }
    rewrite H1. revert H2. generalize (q / 2 ^ 53) (1 / 2 ^ 1075). intros u v H2. lra.
  - assert (He : last_place q = (binade q - 52)%Z) by (unfold last_place; lia).
    rewrite He. destruct (binade_spec q Hq) as [B1 _].
    assert (H0 : 0 <= 1 / 2 ^ 1075) by (vm_compute; discriminate).
    assert (H1 : (1 # 2) * 2 ^ (binade q - 52) <= q / 2 ^ 53).
    { apply Qle_shift_div_l; [apply pow2_pos|].
      apply Qle_trans with (2 ^ binade q); [|exact B1].
      replace (binade q) with ((binade q - 52) + 52)%Z at 2 by lia.
      rewrite pow2_add.
      assert (H53 : 2 ^ 53 == 2 * 2 ^ 52) by reflexivity.
      rewrite H53. generalize (2 ^ (binade q - 52)) (2 ^ 52). intros u v.
      setoid_replace ((1 # 2) * u * (2 * v)) with (u * v) using relation Qeq by ring.
      apply Qle_refl. }
    revert H0 H1. generalize ((1 # 2) * 2 ^ (binade q - 52)) (q / 2 ^ 53) (1 / 2 ^ 1075).
    intros u v w H0 H1. lra.
Qed.

Lemma round_pos_error q :
  0 < q -> Qabs (round_pos q - q) <= q / 2 ^ 53 + 1 / 2 ^ 1075.
Proof.
  intros Hq. eapply Qle_trans; [apply round_pos_near|apply half_last_place; exact Hq].
Qed.

Lemma pow2_le_inv a b : 2 ^ a <= 2 ^ b -> (a <= b)%Z.
Proof. intros H. apply (Qpower_le_compat_l_inv 2); [exact H|reflexivity]. Qed.

Lemma round_pos_int q z : scaled q == inject_Z z -> round_pos q == q.
Proof.
  intros H. rewrite round_pos_scaled, (nearest_even_int _ _ H), <- H.
  apply scaled_back.
Qed.

(** A double above 0 is left alone. *)
Lemma round_pos_exact (m : Z) (k : nat) :
  (0 < m <= 2 ^ 53)%Z -> (k <= 1074)%nat ->
  round_pos (inject_Z m / 2 ^ Z.of_nat k) == inject_Z m / 2 ^ Z.of_nat k.
Proof.
  intros Hm Hk. set (K := Z.of_nat k). assert (HK : (0 <= K <= 1074)%Z) by lia.
  set (q := inject_Z m / 2 ^ K).
  assert (Hm0 : 0 < inject_Z m) by (change 0 with (inject_Z 0); rewrite <- Zlt_Qlt; lia).
  assert (Hq : 0 < q).
  { unfold q. apply Qlt_shift_div_l; [apply pow2_pos|]. lra. }
  assert (Hs : scaled q == inject_Z m * 2 ^ (- K - last_place q)).
  { unfold scaled. replace (- K - last_place q)%Z with (- K + - last_place q)%Z by lia.
    rewrite pow2_add, !Qpower_opp.
    pose proof (pow2_pos (last_place q)) as Hp. revert Hp.
    generalize (2 ^ last_place q). intros s Hp. unfold q.
    pose proof (pow2_pos K) as HpK. revert HpK. generalize (2 ^ K). intros t HpK.
    field. split; intros H; [rewrite H in Hp|rewrite H in HpK]; discriminate. }
  destruct (Z.le_gt_cases 0 (- K - last_place q)) as [Hint|Hfrac].
  - apply (round_pos_int q (m * 2 ^ (- K - last_place q))).
    rewrite Hs, inject_Z_mult, pow2_Z by exact Hint. reflexivity.
  - assert (Hnorm : (-1074 < last_place q)%Z) by lia.
    pose proof (scaled_ge q Hq Hnorm) as Hlo. rewrite Hs in Hlo.
    assert (Hle : 2 ^ (52 + (K + last_place q)) <= inject_Z m).
    { rewrite pow2_add.
      assert (Hinv : 2 ^ (K + last_place q) * 2 ^ (- K - last_place q) == 1).
      { rewrite <- pow2_add. replace (K + last_place q + (- K - last_place q))%Z with 0%Z by lia.
        reflexivity. }
      pose proof (pow2_pos (K + last_place q)) as Hp.
      revert Hlo Hinv Hp.
      generalize (2 ^ (K + last_place q)) (2 ^ (- K - last_place q)) (inject_Z m) (2 ^ 52).
      intros u v mm c Hlo Hinv Hp.
      apply Qle_trans with (mm * v * u).
      - apply Qmult_le_compat_r; [exact Hlo|lra].
      - setoid_replace (mm * v * u) with (mm * (u * v)) using relation Qeq by ring.
        rewrite Hinv. lra. }
    assert (H53 : inject_Z m <= 2 ^ 53).
    { rewrite <- pow2_Z by lia. rewrite <- Zle_Qle. lia. }
    assert (Hd : (K + last_place q = 1)%Z).
    { assert (52 + (K + last_place q) <= 53)%Z; [|lia].
      apply pow2_le_inv. eapply Qle_trans; eauto. }
    apply (round_pos_int q (2 ^ 52)).
    rewrite Hs. replace (- K - last_place q)%Z with (-1)%Z by lia.
    rewrite Hd in Hle. change (52 + 1)%Z with 53%Z in Hle.
    assert (Hmm : inject_Z m == 2 ^ 53) by (apply Qle_antisym; assumption).
    rewrite Hmm. reflexivity.
Qed.

(** *** Any number *)

Lemma binary64_pos q : 0 < q -> binary64 q = round_pos q.
Proof.
  intros Hq. unfold binary64.
  assert (H : Qcompare q 0 = Gt) by (apply (proj1 (Qgt_alt _ _)); exact Hq).
  rewrite H. reflexivity.
Qed.

Lemma binary64_neg q : q < 0 -> binary64 q = - round_pos (- q).
Proof.
  intros Hq. unfold binary64.
  assert (H : Qcompare q 0 = Lt) by (apply (proj1 (Qlt_alt _ _)); exact Hq).
  rewrite H. reflexivity.
Qed.

Lemma binary64_zero q : q == 0 -> binary64 q = 0.
Proof.
  intros Hq. unfold binary64.
  assert (H : Qcompare q 0 = Eq) by (apply (proj1 (Qeq_alt _ _)); exact Hq).
  rewrite H. reflexivity.
Qed.

Lemma sign_cases q : q < 0 \/ q == 0 \/ 0 < q.
Proof. destruct (Qcompare_spec q 0) as [H|H|H]; auto. Qed.

Lemma binary64_mono a b : a <= b -> binary64 a <= binary64 b.
Proof.
  intros Hab.
  destruct (sign_cases a) as [Ha|[Ha|Ha]], (sign_cases b) as [Hb|[Hb|Hb]];
    try (exfalso; lra).
  - rewrite (binary64_neg a Ha), (binary64_neg b Hb).
    assert (H : round_pos (- b) <= round_pos (- a)) by (apply round_pos_mono; lra).
    lra.
  - rewrite (binary64_neg a Ha), (binary64_zero b Hb).
    assert (H : 0 <= round_pos (- a)) by (apply round_pos_nonneg; lra). lra.
  - rewrite (binary64_neg a Ha), (binary64_pos b Hb).
    assert (H : 0 <= round_pos (- a)) by (apply round_pos_nonneg; lra).
    assert (H' : 0 <= round_pos b) by (apply round_pos_nonneg; lra). lra.
  - rewrite (binary64_zero a Ha), (binary64_zero b Hb). apply Qle_refl.
  - rewrite (binary64_zero a Ha), (binary64_pos b Hb). apply round_pos_nonneg; lra.
  - rewrite (binary64_pos a Ha), (binary64_pos b Hb). apply round_pos_mono; assumption.
Qed.

Lemma binary64_exact (m : Z) (k : nat) :
  (Z.abs m <= 2 ^ 53)%Z -> (k <= 1074)%nat ->
  binary64 (inject_Z m / 2 ^ Z.of_nat k) == inject_Z m / 2 ^ Z.of_nat k.
Proof.
  intros Hm Hk. pose proof (pow2_pos (Z.of_nat k)) as Hp.
  assert (Hinv : 0 < / 2 ^ Z.of_nat k) by (apply Qinv_lt_0_compat; exact Hp).
  destruct (Z.lt_trichotomy m 0) as [Hneg|[->|Hpos]].
  - assert (Hm0 : inject_Z m < 0) by (change 0 with (inject_Z 0); rewrite <- Zlt_Qlt; lia).
    assert (Hq : inject_Z m / 2 ^ Z.of_nat k < 0).
    { unfold Qdiv. revert Hm0 Hinv. generalize (inject_Z m) (/ 2 ^ Z.of_nat k).
      intros u v Hu Hv. setoid_replace (u * v) with (- ((- u) * v)) using relation Qeq by ring.
      assert (0 < - u * v) by (apply Qmult_lt_0_compat; lra). lra. }
    rewrite (binary64_neg _ Hq).
    assert (Hopp : - (inject_Z m / 2 ^ Z.of_nat k) == inject_Z (- m) / 2 ^ Z.of_nat k).
    { rewrite inject_Z_opp. unfold Qdiv. ring. }
    assert (Hq' : 0 < - (inject_Z m / 2 ^ Z.of_nat k)).
    { revert Hq. generalize (inject_Z m / 2 ^ Z.of_nat k). intros u Hu. lra. }
    rewrite (round_pos_comp _ _ Hq' Hopp).
    rewrite round_pos_exact by lia. rewrite <- Hopp. ring.
  - change (inject_Z 0 / 2 ^ Z.of_nat k) with (0 / 2 ^ Z.of_nat k).
    assert (H0 : 0 / 2 ^ Z.of_nat k == 0) by (unfold Qdiv; ring).
    rewrite (binary64_zero _ H0), H0. reflexivity.
  - assert (Hm0 : 0 < inject_Z m) by (change 0 with (inject_Z 0); rewrite <- Zlt_Qlt; lia).
    assert (Hq : 0 < inject_Z m / 2 ^ Z.of_nat k).
    { apply Qlt_shift_div_l; [exact Hp|]. lra. }
    rewrite (binary64_pos _ Hq). apply round_pos_exact; lia.
Qed.

Lemma binary64_error a :
  Qabs (binary64 a - a) <= Qabs a / 2 ^ 53 + 1 / 2 ^ 1075.
Proof.
  destruct (sign_cases a) as [Ha|[Ha|Ha]].
  - rewrite (binary64_neg a Ha).
    assert (H1 : - round_pos (- a) - a == - (round_pos (- a) - - a)) by ring.
    rewrite H1, Qabs_opp. rewrite (Qabs_neg a) by lra.
    apply round_pos_error. lra.
  - rewrite (binary64_zero a Ha).
    assert (H1 : 0 - a == 0) by (rewrite Ha; reflexivity).
    rewrite H1, Ha. vm_compute. discriminate.
  - rewrite (binary64_pos a Ha). rewrite (Qabs_pos a) by lra.
    apply round_pos_error. exact Ha.
Qed.

Theorem binary64_rounding : rounding binary64.
Proof.
  split.
  - apply binary64_mono.
  - apply binary64_exact.
  - intros a _. apply binary64_error.
Qed.

Section AtomProps.

Variable E : Env.

(** The photons that [disintegrate] makes: [n] constructor calls, each
    pushed at once. *)
Lemma emit_photons px py hue type n : forall w,
  exists ps,
    times n (p <- Photon_new E px py hue type ;; photons_push p) w
    = Some (tt, with_rnd (rnd w + n)
                  (with_photons (photons w ++ seq (length (photon_store w)) n)
                     (with_photon_store (photon_store w ++ ps) w)))
    /\ length ps = n
    /\ Forall (fun p => Photon.position p = mkVec2 px py /\ Photon.hue p = hue
                        /\ Photon.type p = type /\ Photon.life p = 0%Z
                        /\ Photon.maxLife p = 100%Z) ps.
Proof.
  induction n as [|n IH]; intros w.
  - exists []. split; [|by split]. cbn. unfold ret. do 2 f_equal.
    destruct w; unfold with_rnd, with_photons, with_photon_store; cbn.
    by rewrite !app_nil_r, Nat.add_0_r.
  - cbn [times]. unfold bind at 1. unfold bind at 1. unfold Photon_new at 1.
    unfold bind at 1. cbn.
    match goal with |- context [times n _ ?w1] =>
      destruct (IH w1) as (ps & Hrun & Hlen & Hall) end.
    rewrite Hrun. eexists (_ :: ps). split; [|split].
    + do 2 f_equal. unfold with_rnd, with_photons, with_photon_store. cbn.
      rewrite length_app. cbn. rewrite <- !app_assoc. cbn.
      by rewrite Nat.add_1_r, Nat.add_succ_r.
    + cbn. by rewrite Hlen.
    + constructor; [|done]. by cbn.
Qed.

Lemma Atom_disintegrate_run i t a w :
  atoms w !! i = Some a ->
  exists ps,
    Atom_disintegrate E i t w
    = Some (tt, with_blackHoles (blackHoles w ++ spawned_holes a)
                  (with_rnd (rnd w + photonCount (Atom.type a))
                     (with_photons (photons w ++ seq (length (photon_store w))
                                                     (photonCount (Atom.type a)))
                        (with_photon_store (photon_store w ++ ps)
                           (with_atoms (<[i := disintegrated t a]> (atoms w)) w)))))
    /\ length ps = photonCount (Atom.type a)
    /\ Forall (fun p => Photon.position p = Atom.position a
                        /\ Photon.hue p = Atom.hue a
                        /\ Photon.type p = Atom.type a
                        /\ Photon.life p = 0%Z
                        /\ Photon.maxLife p = 100%Z) ps.
Proof.
  intros Hi. unfold Atom_disintegrate.
  rewrite (bind_Some _ _ w a w) by (unfold atom_at; by rewrite Hi).
  cbn [Atom.position Atom.type Atom.hue].
  unfold bind at 1. cbn [set_atom modify]. unfold bind at 1.
  match goal with |- context [times _ _ ?w1] =>
    destruct (emit_photons (x (Atom.position a)) (y (Atom.position a))
                (Atom.hue a) (Atom.type a) (photonCount (Atom.type a)) w1)
      as (ps & Hrun & Hlen & Hall) end.
  rewrite Hrun. exists ps. split; [|split; [done|]].
  - unfold spawned_holes, disintegrated, ret, blackHoles_push, modify.
    destruct (Atom.type a); cbn; [|done].
    do 2 f_equal. unfold with_blackHoles, with_rnd, with_photons, with_photon_store,
      with_atoms. cbn. by rewrite app_nil_r.
  - eapply Forall_impl; [exact Hall|]. intros p (? & ? & ? & ? & ?).
    destruct (Atom.position a); by cbn in *.
Qed.

(** C4: [disintegrate(t)] on an alive atom records [t] as the start time,
    makes the state 1 (disintegrating), appends exactly 5 photons for a normal
    atom and exactly 15 for a special one, each at the atom's position with
    the atom's hue and type, and appends exactly one black hole at the atom's
    position for a special atom and none for a normal one. *)
Theorem Atom_disintegrate_spec i t a w :
  atoms w !! i = Some a ->
  Atom.state a = 0%Z ->
  exists w' ps,
    Atom_disintegrate E i t w = Some (tt, w')
    /\ atoms w' !! i = Some (Atom.mk (Atom.position a) 1%Z t (Atom.hue a)
                                     (Atom.radius a) (Atom.type a))
    /\ length ps = match Atom.type a with normal => 5%nat | special => 15%nat end
    /\ photon_store w' = photon_store w ++ ps
    /\ photons w' = photons w ++ seq (length (photon_store w)) (length ps)
    /\ Forall (fun p => Photon.position p = Atom.position a
                        /\ Photon.hue p = Atom.hue a
                        /\ Photon.type p = Atom.type a) ps
    /\ blackHoles w'
       = blackHoles w ++
         match Atom.type a with
         | normal => []
         | special => [BlackHole.mk (Atom.position a) 0 50 0.5]
         end.
Proof.
  intros Hi _. destruct (Atom_disintegrate_run i t a w Hi) as (ps & Hrun & Hlen & Hall).
  eexists _, ps. split; [exact Hrun|]. cbn.
  split; [|split; [|split; [|split; [|split]]]].
  - apply list_lookup_insert_eq. by eapply lookup_lt_Some.
  - rewrite Hlen. by destruct (Atom.type a).
  - done.
  - by rewrite Hlen.
  - eapply Forall_impl; [exact Hall|]. intros p (? & ? & ? & _). auto.
  - unfold spawned_holes, BlackHole_new. destruct (Atom.type a); [done|].
    by destruct (Atom.position a).
Qed.


Lemma with_ctx_same w : with_ctx (ctx w) w = w.
Proof. by destruct w. Qed.

Lemma with_atoms_same w : with_atoms (atoms w) w = w.
Proof. by destruct w. Qed.

Lemma emit_all_run ops : forall w,
  emit_all ops w = Some (tt, with_ctx (ctx w ++ ops) w).
Proof.
  induction ops as [|op ops IH]; intros w; cbn.
  - unfold ret. by rewrite app_nil_r, with_ctx_same.
  - unfold bind, emit, modify. rewrite IH. do 2 f_equal.
    unfold with_ctx. cbn. by rewrite <- app_assoc.
Qed.

(** [draw(t)] on the atom at index [i]. *)
Lemma Atom_draw_run i t a w :
  atoms w !! i = Some a ->
  Atom_draw E i t w
  = Some (tt, with_ctx (ctx w ++ Atom_out E t a)
                (with_atoms (<[i := Atom_after E t a]> (atoms w)) w)).
Proof.
  intros Hi. unfold Atom_draw.
  rewrite (bind_Some _ _ w a w) by (unfold atom_at; by rewrite Hi).
  unfold Atom_out, Atom_after, fade_alpha, elapsed.
  destruct (Atom.state a =? 0)%Z eqn:H0.
  - assert ((Atom.state a =? 1)%Z = false) as -> by lia. cbn [andb].
    rewrite list_insert_id by exact Hi. rewrite with_atoms_same.
    apply emit_all_run.
  - destruct (Atom.state a =? 1)%Z eqn:H1; cbn [andb negb].
    + destruct (Qltb 1 _) eqn:Hlt; cbn [negb].
      * unfold set_atom, modify, gone. do 2 f_equal.
        unfold with_ctx, with_atoms. cbn [atoms ctx]. rewrite app_nil_r. reflexivity.
      * rewrite list_insert_id by exact Hi. rewrite with_atoms_same.
        apply emit_all_run.
    + rewrite list_insert_id by exact Hi.
      rewrite with_atoms_same, app_nil_r, with_ctx_same. reflexivity.
Qed.

Lemma Atom_out_after t a : Atom_out E t (Atom_after E t a) = Atom_out E t a.
Proof.
  unfold Atom_after.
  destruct ((Atom.state a =? 1)%Z && Qltb 1 (elapsed E t a)) eqn:Hc; [|reflexivity].
  apply andb_prop in Hc as [H1 Hlt].
  assert (H0 : (Atom.state a =? 0)%Z = false) by lia.
  unfold Atom_out. rewrite H0, H1, Hlt.
  cbn [gone Atom.state Z.eqb Pos.eqb andb negb]. reflexivity.
Qed.

Lemma Atom_after_after t a : Atom_after E t (Atom_after E t a) = Atom_after E t a.
Proof.
  unfold Atom_after.
  destruct ((Atom.state a =? 1)%Z && Qltb 1 (elapsed E t a)) eqn:Hc.
  - reflexivity.
  - by rewrite Hc.
Qed.

(** C7: for an atom in state 1 (disintegrating) with start time [t0],
    [draw(t)] compares [alpha], the double that the script computes for
    [(t - t0)/1000], with 1.  Up to 1 it sends a circle of opacity
    [1 - alpha]; above 1 the state becomes 2 (gone) and nothing is sent; an
    atom in state 2 is never drawn and stays in state 2.  With the rounding
    of doubles, [alpha] is at most 1 up to [t0 + 1000] and above 1 from
    [t0 + 1000.001] on, so that a call at [t0 + 1001] or later leaves the
    atom gone; the opacity is 1 at [t0] and 0 at [t0 + 1000], it never rises
    with [t], and between the two times it is within [2^-50] of the line
    [1 - (t - t0)/1000]. *)
Theorem Atom_draw_fading i t a w :
  atoms w !! i = Some a ->
  (Atom.state a = 1%Z -> elapsed E t a <= 1 ->
     Atom_draw E i t w
     = Some (tt, with_ctx (ctx w ++
               [BeginPath;
                Arc (x (Atom.position a)) (y (Atom.position a))
                    (double E (Atom.radius a * fade_alpha E t a)) 0 (TWO_PI E);
                SetFillStyle (Hsla (Atom.hue a) (fade_alpha E t a));
                SetShadowColor (Hsla (Atom.hue a) (fade_alpha E t a));
                SetShadowBlur (double E (20 * fade_alpha E t a));
                Fill;
                SetShadowBlur 0]) w))
  /\ (Atom.state a = 1%Z -> 1 < elapsed E t a ->
      Atom_draw E i t w = Some (tt, with_atoms (<[i := gone a]> (atoms w)) w))
  /\ (Atom.state a = 2%Z -> Atom_draw E i t w = Some (tt, w))
  /\ elapsed E t a = double E (double E (t - Atom.startTime a) / 1000)
  /\ fade_alpha E t a = double E (1 - elapsed E t a)
  /\ (rounding (double E) ->
      (t <= Atom.startTime a + 1000 -> elapsed E t a <= 1)
      /\ (Atom.startTime a + 1000.001 <= t -> 1 < elapsed E t a)
      /\ (Atom.state a = 1%Z -> Atom.startTime a + 1001 <= t ->
          Atom_draw E i t w = Some (tt, with_atoms (<[i := gone a]> (atoms w)) w))
      /\ (t == Atom.startTime a -> fade_alpha E t a == 1)
      /\ (t == Atom.startTime a + 1000 -> fade_alpha E t a == 0)
      /\ (forall t', t <= t' -> fade_alpha E t' a <= fade_alpha E t a)
      /\ (Atom.startTime a <= t -> t <= Atom.startTime a + 1000 ->
          Qabs (fade_alpha E t a - (1 - (t - Atom.startTime a) / 1000)) <= 1 / 2 ^ 50)).
Proof.
  intros Hi. rewrite (Atom_draw_run i t a w Hi).
  assert (Hgone : Atom.state a = 1%Z -> 1 < elapsed E t a ->
     Some (tt, with_ctx (ctx w ++ Atom_out E t a)
                 (with_atoms (<[i:=Atom_after E t a]> (atoms w)) w))
     = Some (tt, with_atoms (<[i := gone a]> (atoms w)) w)).
  { intros Hs Hlt. apply Qltb_true in Hlt.
    unfold Atom_out, Atom_after. rewrite Hs, Hlt. cbn [Z.eqb andb negb].
    rewrite app_nil_r. reflexivity. }
  split; [|split; [exact Hgone|split; [|split; [reflexivity|split; [reflexivity|]]]]].
  - intros Hs Hle. apply Qltb_false in Hle.
    unfold Atom_out, Atom_after. rewrite Hs, Hle. cbn [Z.eqb andb negb].
    rewrite list_insert_id by exact Hi. rewrite with_atoms_same. reflexivity.
  - intros Hs. unfold Atom_out, Atom_after. rewrite Hs. cbn [Z.eqb andb negb].
    rewrite list_insert_id by exact Hi.
    rewrite with_atoms_same, app_nil_r, with_ctx_same. reflexivity.
  - intros Hfl.
    assert (Habove : Atom.startTime a + 1000.001 <= t -> 1 < elapsed E t a).
    { intros Ht. apply (fade_above _ Hfl). lra. }
    split; [|split; [exact Habove|split; [|split; [|split; [|split]]]]].
    + intros Ht. apply (fade_below _ Hfl). lra.
    + intros Hs Ht. apply (Hgone Hs). apply Habove. lra.
    + intros Ht. unfold fade_alpha, elapsed, DISAPPEAR_TIME.
      assert (H1 : double E (t - Atom.startTime a) == 0)
        by (apply (round_to _ Hfl); [lra|apply (round_0 _ Hfl)]).
      assert (H2 : double E (double E (t - Atom.startTime a) / 1000) == 0)
        by (apply (round_to _ Hfl); [rewrite H1; reflexivity|apply (round_0 _ Hfl)]).
      apply (round_to _ Hfl); [rewrite H2; reflexivity|apply (round_1 _ Hfl)].
    + intros Ht. unfold fade_alpha, elapsed, DISAPPEAR_TIME.
      assert (H1 : double E (t - Atom.startTime a) == 1000)
        by (apply (round_to _ Hfl); [lra|apply (round_1000 _ Hfl)]).
      assert (H2 : double E (double E (t - Atom.startTime a) / 1000) == 1)
        by (apply (round_to _ Hfl); [rewrite H1; reflexivity|apply (round_1 _ Hfl)]).
      apply (round_to _ Hfl); [rewrite H2; reflexivity|apply (round_0 _ Hfl)].
    + intros t' Ht. unfold fade_alpha, elapsed, DISAPPEAR_TIME.
      apply (round_mono _ Hfl).
      assert (H1 : double E (t - Atom.startTime a) <= double E (t' - Atom.startTime a))
        by (apply (round_mono _ Hfl); lra).
      assert (H2 : double E (double E (t - Atom.startTime a) / 1000)
                   <= double E (double E (t' - Atom.startTime a) / 1000)).
      { apply (round_mono _ Hfl). apply Qmult_le_compat_r; [exact H1|discriminate]. }
      lra.
    + intros H0 H1. unfold fade_alpha, elapsed, DISAPPEAR_TIME.
      apply (fade_near _ Hfl); lra.
Qed.

End AtomProps.

Section DrawProps.

Variable E : Env.

Lemma deref_bind_inv {A B} (o : World -> option A) (f : A -> M B) w r :
  bind (fun w => deref (o w) w) f w = Some r ->
  exists a, o w = Some a /\ f a w = Some r.
Proof.
  intros H. apply bind_inv in H as (a & w' & H1 & H2).
  destruct (o w) as [a'|] eqn:Ho; [|done].
  cbn in H1. unfold ret in H1. injection H1 as -> ->. by exists a.
Qed.

(** C3 (amended): two calls of an entity's [draw] in a row, at the same
    time argument, send the same operations to the canvas.  The [draw] of a
    photon, a snake, a black hole or a portal changes nothing but the canvas.
    The [draw] of an atom changes at most the atom's state, and only from 1
    to 2 when [(t - startTime)/1000], as the script computes it, exceeds 1,
    in which case it sends nothing; the second call changes nothing but the
    canvas. *)
Theorem draw_twice c w w1 :
  draw_call E c w = Some (tt, w1) ->
  exists out,
    ctx w1 = ctx w ++ out
    /\ draw_call E c w1 = Some (tt, with_ctx (ctx w1 ++ out) w1)
    /\ match c with
       | DrawAtom i t =>
           exists a, atoms w !! i = Some a
             /\ (w1 = with_ctx (ctx w ++ out) w
                 \/ (Atom.state a = 1%Z /\ 1 < elapsed E t a /\ out = []
                     /\ w1 = with_atoms (<[i := gone a]> (atoms w)) w))
       | _ => w1 = with_ctx (ctx w ++ out) w
       end.
Proof.
  destruct c as [i t|r|k|k|portal]; cbn [draw_call]; intros H.
  - pose proof H as H'. unfold Atom_draw in H'.
    apply deref_bind_inv in H' as (a & Hi & _).
    rewrite (Atom_draw_run E i t a w Hi) in H.
    injection H as Hw1. symmetry in Hw1.
    exists (Atom_out E t a). split; [by rewrite Hw1|]. split.
    + assert (Hi1 : atoms w1 !! i = Some (Atom_after E t a)).
      { rewrite Hw1. cbn [atoms with_ctx with_atoms].
        apply list_lookup_insert_eq. by eapply lookup_lt_Some. }
      rewrite (Atom_draw_run E i t _ w1 Hi1).
      rewrite Atom_out_after, Atom_after_after.
      rewrite list_insert_id by exact Hi1. by rewrite with_atoms_same.
    + exists a. split; [exact Hi|]. rewrite Hw1. unfold Atom_after, Atom_out.
      destruct (Atom.state a =? 1)%Z eqn:H1; cbn [andb].
      * destruct (Qltb 1 (elapsed E t a)) eqn:Hlt; cbn [negb andb].
        -- right. assert ((Atom.state a =? 0)%Z = false) as -> by lia.
           split; [lia|]. split; [by apply Qltb_true|]. split; [done|].
           rewrite app_nil_r. reflexivity.
        -- left. rewrite list_insert_id by exact Hi. by rewrite with_atoms_same.
      * left. rewrite list_insert_id by exact Hi. by rewrite with_atoms_same.
  - unfold Photon_draw in *. apply deref_bind_inv in H as (p & Hr & H).
    rewrite emit_all_run in H. injection H as <-. eexists. split; [reflexivity|].
    split; [|reflexivity].
    rewrite (bind_Some _ _ _ p (with_ctx (ctx w ++ _) w))
      by (unfold photon_at; cbn [photon_store with_ctx]; by rewrite Hr).
    apply emit_all_run.
  - unfold Snake_draw in *. apply deref_bind_inv in H as (s & Hk & H).
    rewrite emit_all_run in H. injection H as <-. eexists. split; [reflexivity|].
    split; [|reflexivity].
    rewrite (bind_Some _ _ _ s (with_ctx (ctx w ++ _) w))
      by (unfold snake_at; cbn [snakes with_ctx]; by rewrite Hk).
    apply emit_all_run.
  - unfold BlackHole_draw in *. apply deref_bind_inv in H as (h & Hk & H).
    rewrite emit_all_run in H. injection H as <-. eexists. split; [reflexivity|].
    split; [|reflexivity].
    rewrite (bind_Some _ _ _ h (with_ctx (ctx w ++ _) w))
      by (unfold hole_at; cbn [blackHoles with_ctx]; by rewrite Hk).
    apply emit_all_run.
  - unfold Portal_draw in *.
    rewrite emit_all_run in H. injection H as <-. eexists. split; [reflexivity|].
    split; [|reflexivity]. apply emit_all_run.
Qed.

End DrawProps.

(** ** Loops *)

(** A property of the locals and the world that every call of the callback
    keeps holds after the loop, and the loop does not throw. *)
Lemma forEach_from_inv {A B} (arr : World -> list A) (f : nat -> A -> B -> M B)
    (P : B -> World -> Prop) :
  (forall k a b w, P b w -> arr w !! k = Some a ->
     exists b' w', f k a b w = Some (b', w') /\ P b' w') ->
  forall n k b w, P b w ->
    exists b' w', forEach_from arr f k n b w = Some (b', w') /\ P b' w'.
Proof.
  intros Hf. induction n as [|n IH]; intros k b w HP; cbn [forEach_from].
  - by exists b, w.
  - destruct (arr w !! k) as [a|] eqn:Ha.
    + destruct (Hf k a b w HP Ha) as (b' & w' & Hrun & HP').
      rewrite (bind_Some _ _ _ _ _ Hrun). by apply IH.
    + by apply IH.
Qed.

Lemma forEach_inv {A B} (arr : World -> list A) (f : nat -> A -> B -> M B)
    (P : B -> World -> Prop) b w :
  (forall k a b w, P b w -> arr w !! k = Some a ->
     exists b' w', f k a b w = Some (b', w') /\ P b' w') ->
  P b w ->
  exists b' w', forEach arr f b w = Some (b', w') /\ P b' w'.
Proof. intros Hf HP. unfold forEach. by apply forEach_from_inv. Qed.

(** The grid loops leave by their test, not for lack of fuel: more fuel
    changes nothing ([grid_loop_enough]). *)
Lemma grid_fuel_enough limit :
  limit < 0 + 50 * inject_Z (Z.of_nat (grid_fuel limit)).
Proof.
  unfold grid_fuel. pose proof (Qlt_floor (limit / 50)) as Hfl.
  assert (Hle : inject_Z (Qfloor (limit / 50) + 1)
                <= inject_Z (Z.of_nat (S (Z.to_nat (Qfloor (limit / 50)))))).
  { rewrite <- Zle_Qle. lia. }
  assert (Hdiv : limit == 50 * (limit / 50)) by field.
  rewrite Hdiv at 1. lra.
Qed.

Lemma grid_loop_fuel limit line fuel : forall v k w,
  limit < v + 50 * inject_Z (Z.of_nat fuel) ->
  grid_loop (fuel + k) v limit line w = grid_loop fuel v limit line w.
Proof.
  induction fuel as [|fuel IH]; intros v k w Hlt.
  - assert (Hv : Qltb limit v = true).
    { apply Qltb_true. change (inject_Z (Z.of_nat 0)) with 0 in Hlt. lra. }
    destruct k; cbn [Nat.add grid_loop]; [reflexivity|]. by rewrite Hv.
  - cbn [Nat.add grid_loop]. destruct (Qltb limit v); [reflexivity|].
    unfold bind. destruct (line v w) as [[[] w1]|]; [|reflexivity].
    apply IH. rewrite Nat2Z.inj_succ, <- Z.add_1_r, inject_Z_plus in Hlt.
    change (inject_Z 1) with 1 in Hlt. lra.
Qed.

Lemma grid_loop_enough limit line k w :
  grid_loop (grid_fuel limit + k) 0 limit line w
  = grid_loop (grid_fuel limit) 0 limit line w.
Proof. apply grid_loop_fuel, grid_fuel_enough. Qed.

Section BlackHoleProps.

Variable E : Env.

Lemma with_photon_store_same w : with_photon_store (photon_store w) w = w.
Proof. by destruct w. Qed.

Lemma photons_touched_refl w : photons_touched w w.
Proof. split; [by rewrite with_photon_store_same|done]. Qed.

Lemma photons_touched_set w w' r p :
  photons_touched w w' ->
  photons_touched w (with_photon_store (<[r := p]> (photon_store w')) w').
Proof.
  intros [Hw Hlen]. split.
  - rewrite Hw at 2. reflexivity.
  - cbn [photon_store with_photon_store]. by rewrite length_insert.
Qed.

(** [update()] on the black hole at index [k]: the hole grows, and the
    photons in reach get their velocities changed. *)
Lemma BlackHole_update_run k h w :
  blackHoles w !! k = Some h ->
  refs_ok w ->
  exists w',
    BlackHole_update E k w = Some (tt, w')
    /\ photons_touched (with_blackHoles (<[k := BlackHole_grow h]> (blackHoles w)) w) w'.
Proof.
  intros Hk Hrefs. unfold BlackHole_update.
  rewrite (bind_Some _ _ w h w) by (unfold hole_at; by rewrite Hk).
  unfold bind at 1. cbn [set_hole modify].
  set (w0 := with_blackHoles _ w).
  destruct (forEach_inv photons
    (fun (_ r : nat) (_ : unit) =>
       p <- photon_at r ;;
       (let dx := x (BlackHole.position (BlackHole_grow h)) - x (Photon.position p) in
        let dy := y (BlackHole.position (BlackHole_grow h)) - y (Photon.position p) in
        let dist := hypot E dx dy in
        if Qltb dist (BlackHole.radius (BlackHole_grow h)) then
          let angle := atan2 E dy dx in
          let vel := Photon.velocity p in
          set_photon r (Photon.mk (Photon.position p)
                          (mkVec2 (x vel + cos E angle * 0.5) (y vel + sin E angle * 0.5))
                          (Photon.hue p) (Photon.life p) (Photon.maxLife p)
                          (Photon.size p) (Photon.type p))
        else ret tt))
    (fun _ w' => photons_touched w0 w') tt w0) as ([] & w' & Hrun & HP).
  - intros j r [] w' Ht Hj.
    assert (Hr : (r < length (photon_store w'))%nat).
    { destruct Ht as [Hw Hlen]. rewrite Hlen. rewrite Hw in Hj.
      cbn [photons with_photon_store] in Hj.
      eapply Forall_lookup_1 in Hrefs; [exact Hrefs|exact Hj]. }
    apply lookup_lt_is_Some_2 in Hr as [p Hp].
    rewrite (bind_Some _ _ w' p w') by (unfold photon_at; by rewrite Hp).
    cbv zeta. destruct (Qltb _ _).
    + eexists tt, _. split; [reflexivity|]. by apply photons_touched_set.
    + by exists tt, w'.
  - apply photons_touched_refl.
  - exists w'. by split.
Qed.

(** The radius after [n] updates is a whole number of half units, at most
    one hundred of them. *)
Lemma hole_after_shape px py n :
  exists r (m : Z),
    hole_after px py n = BlackHole.mk (mkVec2 px py) r 50 0.5
    /\ (0 <= m <= 100)%Z /\ r == inject_Z m * 0.5.
Proof.
  induction n as [|n (r & m & Hh & Hm & Hr)].
  - exists 0, 0%Z. split; [reflexivity|]. split; [lia|]. reflexivity.
  - change (hole_after px py (S n)) with (BlackHole_grow (hole_after px py n)).
    rewrite Hh. unfold BlackHole_grow.
    cbn [BlackHole.radius BlackHole.maxRadius BlackHole.growthRate BlackHole.position].
    destruct (Qltb r 50) eqn:Hlt.
    + exists (r + 0.5), (m + 1)%Z. split; [reflexivity|].
      apply Qltb_true in Hlt. rewrite Hr in Hlt.
      assert (inject_Z m < inject_Z 100) as Hm'.
      { apply Qmult_lt_r with (z := 0.5); [reflexivity|].
        eapply Qlt_le_trans; [exact Hlt|]. by vm_compute. }
      rewrite <- Zlt_Qlt in Hm'. split; [lia|].
      rewrite inject_Z_plus, Hr. ring.
    + exists r, m. by split.
Qed.

(** C5: from its construction on, every [update()] leaves the radius of a
    black hole unchanged or adds the growth rate to it, so the radius never
    decreases, and the radius never exceeds the maximum radius. *)
Theorem BlackHole_radius_bounded px py n :
  let h := hole_after px py n in
  let h' := hole_after px py (S n) in
  (forall k w, blackHoles w !! k = Some h -> refs_ok w ->
     exists w', BlackHole_update E k w = Some (tt, w')
                /\ blackHoles w' !! k = Some h')
  /\ (BlackHole.radius h' = BlackHole.radius h
      \/ BlackHole.radius h' = BlackHole.radius h + BlackHole.growthRate h)
  /\ BlackHole.radius h <= BlackHole.radius h'
  /\ BlackHole.radius h <= BlackHole.maxRadius h
  /\ BlackHole.radius h' <= BlackHole.maxRadius h'
  /\ BlackHole.maxRadius h' = BlackHole.maxRadius h.
Proof.
  intros h h'.
  assert (Hh' : h' = BlackHole_grow h) by reflexivity.
  destruct (hole_after_shape px py n) as (r & m & Hh & Hm & Hr).
  destruct (hole_after_shape px py (S n)) as (r' & m' & Hh2 & Hm' & Hr').
  fold h in Hh. fold h' in Hh2.
  split; [|split; [|split; [|split; [|split]]]].
  - intros k w Hk Hrefs.
    destruct (BlackHole_update_run k h w Hk Hrefs) as (w' & Hrun & Hw & _).
    exists w'. split; [exact Hrun|]. rewrite Hw, Hh'.
    cbn [blackHoles with_photon_store with_blackHoles].
    apply list_lookup_insert_eq. by eapply lookup_lt_Some.
  - rewrite Hh'. unfold BlackHole_grow. destruct (Qltb _ _); [by right|by left].
  - rewrite Hh'. unfold BlackHole_grow. destruct (Qltb _ _); [|apply Qle_refl].
    rewrite Hh. cbn [BlackHole.radius BlackHole.growthRate]. lra.
  - rewrite Hh. cbn [BlackHole.radius BlackHole.maxRadius]. rewrite Hr.
    assert (inject_Z m <= 100) by (change 100 with (inject_Z 100); rewrite <- Zle_Qle; lia).
    lra.
  - rewrite Hh2. cbn [BlackHole.radius BlackHole.maxRadius]. rewrite Hr'.
    assert (inject_Z m' <= 100) by (change 100 with (inject_Z 100); rewrite <- Zle_Qle; lia).
    lra.
  - by rewrite Hh, Hh2.
Qed.

End BlackHoleProps.

(** ** Portals *)

Lemma assign_partners_from n : forall i ps,
  (i + n = length ps)%nat ->
  exists ps',
    assign_partners i n ps = Some ps'
    /\ length ps' = length ps
    /\ forall j p, ps !! j = Some p ->
         ps' !! j = Some (if decide (i <= j)%nat
                          then Portal.mk (Portal.position p) (Portal.radius p)
                                         (Some ((j + 1) mod length ps)%nat)
                          else p).
Proof.
  induction n as [|n IH]; intros i ps Hlen; cbn [assign_partners].
  - exists ps. split; [done|]. split; [done|]. intros j p Hj.
    rewrite decide_False; [done|]. apply lookup_lt_Some in Hj. lia.
  - destruct (ps !! i) as [p|] eqn:Hi; cbn.
    2:{ apply lookup_ge_None in Hi. lia. }
    set (ps1 := <[i := _]> ps).
    destruct (IH (S i) ps1) as (ps' & Hrun & Hlen' & Hall).
    { unfold ps1. rewrite length_insert. lia. }
    exists ps'. split; [exact Hrun|]. unfold ps1 in *. rewrite length_insert in *.
    split; [done|]. intros j q Hj.
    destruct (decide (i = j)) as [<-|Hne].
    + rewrite (Hall i (Portal.mk (Portal.position p) (Portal.radius p)
                                 (Some ((i + 1) mod length ps)%nat))).
      * rewrite decide_False by lia. rewrite decide_True by lia. congruence.
      * apply list_lookup_insert_eq. by eapply lookup_lt_Some.
    + rewrite (Hall j q) by (by rewrite list_lookup_insert_ne).
      destruct (decide (S i <= j)%nat), (decide (i <= j)%nat); try done; lia.
Qed.

Lemma follow_ring ps n : forall i,
  ring ps -> (i < length ps)%nat ->
  follow ps n i = Some ((i + n) mod length ps)%nat.
Proof.
  induction n as [|n IH]; intros i Hring Hi; cbn [follow].
  - by rewrite Nat.add_0_r, Nat.mod_small.
  - destruct (lookup_lt_is_Some_2 ps i Hi) as [p Hp]. rewrite Hp. cbn.
    rewrite (Hring i p Hp). cbn. rewrite IH; [|done|apply Nat.mod_upper_bound; lia].
    f_equal. rewrite Nat.Div0.add_mod_idemp_l. f_equal. lia.
Qed.

Lemma ring_closed ps i :
  ring ps -> (i < length ps)%nat -> follow ps (length ps) i = Some i.
Proof.
  intros Hring Hi. rewrite follow_ring by done.
  f_equal. rewrite <- (Nat.mul_1_l (length ps)) at 1.
  rewrite Nat.Div0.mod_add. by apply Nat.mod_small.
Qed.

Lemma ring_irreflexive (ps : list Portal.t) i :
  (1 < length ps)%nat -> (i < length ps)%nat -> ((i + 1) mod length ps)%nat <> i.
Proof.
  intros Hn Hi. destruct (decide (i + 1 = length ps)%nat) as [Heq|Hne].
  - rewrite Heq, Nat.Div0.mod_same. lia.
  - rewrite Nat.mod_small; lia.
Qed.

Lemma assign_partners_ring ps :
  exists ps',
    assign_partners 0 (length ps) ps = Some ps'
    /\ length ps' = length ps
    /\ ring ps'
    /\ Forall2 (fun p p' => Portal.position p' = Portal.position p
                            /\ Portal.radius p' = Portal.radius p) ps ps'.
Proof.
  destruct (assign_partners_from (length ps) 0 ps eq_refl) as (ps' & Hrun & Hlen & Hall).
  exists ps'. split; [exact Hrun|]. split; [exact Hlen|]. split.
  - intros i p' Hi.
    assert (is_Some (ps !! i)) as [p Hp].
    { apply lookup_lt_is_Some_2. rewrite <- Hlen. by eapply lookup_lt_Some. }
    rewrite (Hall i p Hp) in Hi. rewrite decide_True in Hi by lia.
    injection Hi as <-. cbn. by rewrite Hlen.
  - apply Forall2_same_length_lookup. split; [done|].
    intros i p p' Hp Hp'. rewrite (Hall i p Hp) in Hp'.
    rewrite decide_True in Hp' by lia. by injection Hp' as <-.
Qed.

(** ** Photons *)

Lemma with_rnd_same w : with_rnd (rnd w) w = w.
Proof. by destruct w. Qed.

Lemma ring_partner ps k p :
  ring ps -> ps !! k = Some p ->
  exists q, (j ← Portal.partner p; ps !! j) = Some q.
Proof.
  intros Hring Hk. rewrite (Hring k p Hk). cbn.
  apply lookup_lt_is_Some_2, Nat.mod_upper_bound.
  apply lookup_lt_Some in Hk. lia.
Qed.

Lemma indexOf_elem r l :
  r ∈ l -> exists i, indexOf r l = Z.of_nat i /\ l !! i = Some r
                     /\ forall j, (j < i)%nat -> l !! j <> Some r.
Proof.
  intros Hr. unfold indexOf.
  destruct (list_find_elem_of (fun r' => r' = r) l r Hr eq_refl) as [[i r'] Hfind].
  rewrite Hfind. apply list_find_Some in Hfind as (Hi & -> & Hbefore).
  exists i. split; [done|]. split; [done|]. intros j Hj Hl. by eapply Hbefore.
Qed.

Lemma splice1_at i (l : list nat) :
  (i < length l)%nat -> splice1 (Z.of_nat i) l = delete i l.
Proof.
  intros Hi. unfold splice1.
  assert ((Z.of_nat i <? 0)%Z = false) as -> by lia.
  f_equal. lia.
Qed.

Lemma splice1_sublist start (l : list nat) : splice1 start l `sublist_of` l.
Proof. apply sublist_delete. Qed.

(** Splicing out a reference that the array holds once. *)
Lemma splice1_indexOf r l :
  NoDup l -> r ∈ l ->
  (r ∉ splice1 (indexOf r l) l)
  /\ forall r', r' <> r -> (r' ∈ splice1 (indexOf r l) l <-> r' ∈ l).
Proof.
  intros Hnd Hr. destruct (indexOf_elem r l Hr) as (i & -> & Hi & _).
  rewrite splice1_at by (by eapply lookup_lt_Some).
  rewrite delete_take_drop.
  rewrite <- (take_drop_middle l i r Hi) in Hnd at 1.
  apply NoDup_app in Hnd as (_ & Hdisj & Hnd2). apply NoDup_cons in Hnd2 as [Hnotin _].
  split.
  - rewrite elem_of_app. intros [Hin|Hin]; [|done].
    apply (Hdisj r Hin). left.
  - intros r' Hne. rewrite <- (take_drop_middle l i r Hi) at 3.
    rewrite !elem_of_app, elem_of_cons. tauto.
Qed.

Section PhotonProps.

Variable E : Env.

(** [update()] on the photon behind [r]: where the portals leave the
    photon, and the world afterwards. *)
Lemma Photon_update_run r p w :
  ring (portals w) ->
  photon_store w !! r = Some p ->
  exists pos n,
    let p' := moved pos p in
    let w1 := with_photon_store (<[r := p']> (photon_store w)) (with_rnd n w) in
    Photon_update E r w
    = Some (tt, if expired w p'
                then with_photons (splice1 (indexOf r (photons w)) (photons w)) w1
                else w1).
Proof.
  intros Hring Hr. unfold Photon_update.
  rewrite (bind_Some _ _ w p w) by (unfold photon_at; by rewrite Hr).
  match goal with |- context [forEach portals ?f ?b] =>
    destruct (forEach_inv portals f (fun _ w' => exists n, w' = with_rnd n w) b w)
      as (pos & w' & Hrun & n & ->) end.
  - intros k portal pos w' [n ->] Hk. cbv zeta. destruct (Qltb _ _).
    + destruct (ring_partner (portals w) k portal Hring Hk) as [q Hq].
      rewrite (bind_Some _ _ _ q (with_rnd n w))
        by (unfold partner_of; cbn [portals with_rnd]; by rewrite Hq).
      eexists _, _. split; [reflexivity|]. eexists. reflexivity.
    + exists pos, (with_rnd n w). split; [done|]. by exists n.
  - exists (rnd w). by rewrite with_rnd_same.
  - rewrite (bind_Some _ _ _ _ _ Hrun). exists pos, n. cbv zeta.
    unfold bind, set_photon, modify, get. cbn [fst snd]. unfold expired, moved.
    cbn [Photon.position Photon.life Photon.maxLife x y].
    cbn [width height photons photon_store rnd with_rnd with_photon_store].
    destruct (_ || _ || _ || _ || _); reflexivity.
Qed.

Lemma expired_spec w p :
  expired w p = true <->
  ((Photon.maxLife p < Photon.life p)%Z
   \/ x (Photon.position p) < 0 \/ width w < x (Photon.position p)
   \/ y (Photon.position p) < 0 \/ height w < y (Photon.position p)).
Proof.
  unfold expired. rewrite !orb_true_iff, !Qltb_true, Z.ltb_lt. tauto.
Qed.

(** C8: [update()] adds one to the life counter of the photon; the photon
    leaves the array in that call exactly when, after the move, its life
    exceeds the cap of 100 or its position is outside
    [0, width] x [0, height]; otherwise the array is as before, and the
    other photons stay in either case. *)
Theorem Photon_update_spec r p w :
  ring (portals w) ->
  NoDup (photons w) ->
  r ∈ photons w ->
  photon_store w !! r = Some p ->
  Photon.maxLife p = 100%Z ->
  exists w' p',
    Photon_update E r w = Some (tt, w')
    /\ photon_store w' !! r = Some p'
    /\ Photon.life p' = (Photon.life p + 1)%Z
    /\ (Photon.life p <= Photon.life p')%Z
    /\ (r ∉ photons w' <->
        ((100 < Photon.life p')%Z
         \/ x (Photon.position p') < 0 \/ width w' < x (Photon.position p')
         \/ y (Photon.position p') < 0 \/ height w' < y (Photon.position p')))
    /\ (r ∈ photons w' -> photons w' = photons w)
    /\ (forall r', r' <> r -> (r' ∈ photons w' <-> r' ∈ photons w)).
Proof.
  intros Hring Hnd Hin Hr Hmax.
  destruct (Photon_update_run r p w Hring Hr) as (pos & n & Hrun). cbv zeta in Hrun.
  destruct (splice1_indexOf r (photons w) Hnd Hin) as [Hout Hothers].
  pose proof (expired_spec w (moved pos p)) as Hexp.
  assert (Hmax' : Photon.maxLife (moved pos p) = 100%Z) by exact Hmax.
  rewrite Hmax' in Hexp.
  assert (Hstore : <[r := moved pos p]> (photon_store w) !! r = Some (moved pos p)).
  { apply list_lookup_insert_eq. by eapply lookup_lt_Some. }
  eexists _, (moved pos p). split; [exact Hrun|].
  destruct (expired w (moved pos p)) eqn:Hx;
    cbn [photons photon_store width height with_photons with_photon_store with_rnd].
  - split; [exact Hstore|]. split; [reflexivity|].
    split; [cbn [moved Photon.life]; lia|].
    split; [|split].
    + split; [intros _; by apply Hexp|done].
    + intros Hin'. by destruct Hout.
    + exact Hothers.
  - split; [exact Hstore|]. split; [reflexivity|].
    split; [cbn [moved Photon.life]; lia|].
    split; [|split].
    + split; [intros Hn; by destruct Hn|].
      intros Hc. apply Hexp in Hc. done.
    + done.
    + done.
Qed.

End PhotonProps.

(** ** Snakes *)

Lemma length_removelast {A} (l : list A) :
  length (removelast l) = pred (length l).
Proof.
  induction l as [|a [|b l] IH]; [done|done|].
  change (removelast (a :: b :: l)) with (a :: removelast (b :: l)).
  cbn [length] in *. by rewrite IH.
Qed.

Lemma length_pop_guarded ps : length (pop_guarded ps) = pred (length ps).
Proof.
  unfold pop_guarded. destruct (0 <? length ps)%nat eqn:H.
  - apply length_removelast.
  - apply Nat.ltb_ge in H. lia.
Qed.

Lemma length_shrunk n ps : length (Nat.iter n pop_guarded ps) = (length ps - n)%nat.
Proof.
  induction n as [|n IH].
  - cbn. lia.
  - change (Nat.iter (S n) pop_guarded ps) with (pop_guarded (Nat.iter n pop_guarded ps)).
    rewrite length_pop_guarded, IH. lia.
Qed.

Lemma grow_loop_ok n : forall ps,
  ps <> [] ->
  exists ps', grow_loop n ps = Some ps' /\ length ps' = (length ps + n)%nat.
Proof.
  induction n as [|n IH]; intros ps Hne; cbn [grow_loop].
  - exists ps. split; [done|lia].
  - destruct (last ps) as [tail|] eqn:Hlast.
    2:{ by apply last_None in Hlast. }
    destruct (IH (ps ++ [mkVec2 (x tail) (y tail)])) as (ps' & Hrun & Hlen).
    { by destruct ps. }
    exists ps'. split; [exact Hrun|]. rewrite Hlen, length_app. cbn. lia.
Qed.

Lemma Snake_grow_ok n_atoms type s :
  snake_ok n_atoms s ->
  exists s', Snake_grow type s = Some s' /\ snake_ok n_atoms s'
             /\ Snake.snakeLength s'
                = (Snake.snakeLength s + Z.of_nat (lengthToAdd type))%Z
             /\ length (Snake.positions s')
                = (length (Snake.positions s) + lengthToAdd type)%nat.
Proof.
  intros [Hhead [Hfloor Hbound Htarget]]. unfold Snake_grow.
  destruct (grow_loop_ok (lengthToAdd type) (Snake.positions s)) as (ps & Hrun & Hlen).
  { intros Hnil. rewrite Hnil in Hhead. cbn in Hhead. lia. }
  rewrite Hrun. cbn. eexists. split; [reflexivity|].
  split; [|by split].
  split; [|split]; cbn [Snake.positions Snake.snakeLength Snake.target]; try lia; done.
Qed.

Lemma Snake_shrink_mid n_atoms s :
  snake_mid n_atoms s -> snake_mid n_atoms (Snake_shrink s).
Proof.
  intros [Hfloor Hbound Htarget].
  split; cbn [Snake_shrink Snake.positions Snake.snakeLength Snake.target].
  - lia.
  - rewrite length_shrunk. lia.
  - done.
Qed.

(** The end of [update()]: the new head goes in front, and one position is
    popped when the snake is then longer than its length. *)
Lemma unshift_ok n_atoms newHead s :
  snake_mid n_atoms s ->
  snake_ok n_atoms
    (with_positions
       (if (Snake.snakeLength s <? Z.of_nat (length (newHead :: Snake.positions s)))%Z
        then removelast (newHead :: Snake.positions s)
        else newHead :: Snake.positions s) s).
Proof.
  intros [Hfloor Hbound Htarget].
  split; [|split]; cbn [with_positions Snake.positions Snake.snakeLength Snake.target];
    try done.
  - destruct (_ <? _)%Z eqn:Hlt.
    + apply Z.ltb_lt in Hlt. rewrite length_removelast. cbn [length] in *. lia.
    + cbn [length]. lia.
  - destruct (_ <? _)%Z eqn:Hlt.
    + rewrite length_removelast. cbn [length] in *. lia.
    + apply Z.ltb_ge in Hlt. lia.
Qed.

(** ** The invariant *)

(** The invariant does not read the canvas, the counters or the size, and
    of the photon objects and the black holes it reads only how many there
    are. *)
Lemma Inv_ext w w' :
  atoms w' = atoms w -> snakes w' = snakes w ->
  length (photon_store w') = length (photon_store w) -> photons w' = photons w ->
  length (blackHoles w') = length (blackHoles w) -> portals w' = portals w ->
  Inv w -> Inv w'.
Proof.
  intros Ha Hs Hst Hp Hb Hpo [H1 H2 H3 H4 H5 H6 H7].
  split; unfold refs_ok in *; rewrite ?Ha, ?Hs, ?Hst, ?Hp, ?Hb, ?Hpo; done.
Qed.

Lemma sum_list_with_insert {A} (f : A -> nat) (l : list A) i a b :
  l !! i = Some a ->
  (sum_list_with f (<[i := b]> l) + f a = sum_list_with f l + f b)%nat.
Proof.
  revert i. induction l as [|c l IH]; intros [|i] Hi; try done; simpl in *.
  - injection Hi as ->. lia.
  - specialize (IH i Hi). lia.
Qed.

Section InvariantProps.

Variable E : Env.

Lemma Atom_disintegrate_inv i t a w :
  Inv w -> atoms w !! i = Some a -> Atom.state a = 0%Z ->
  exists w', Atom_disintegrate E i t w = Some (tt, w') /\ Inv w'
             /\ length (atoms w') = length (atoms w).
Proof.
  intros [H1 H2 H3 H4 H5 H6 H7] Hi Hst.
  destruct (Atom_disintegrate_run E i t a w Hi) as (ps & Hrun & Hlen & _).
  eexists. split; [exact Hrun|].
  assert (Hpa : photons_of a = 0%nat) by (unfold photons_of; by rewrite Hst).
  assert (Hha : holes_of a = 0%nat) by (unfold holes_of; by rewrite Hst).
  pose proof (sum_list_with_insert photons_of (atoms w) i a (disintegrated t a) Hi) as Hsum.
  pose proof (sum_list_with_insert holes_of (atoms w) i a (disintegrated t a) Hi) as Hsum'.
  split; [split|];
    cbn [atoms snakes photon_store photons blackHoles portals
         with_blackHoles with_rnd with_photons with_photon_store with_atoms].
  - by rewrite length_insert.
  - done.
  - done.
  - unfold refs_ok in *.
    cbn [photon_store photons with_blackHoles with_rnd with_photons
         with_photon_store with_atoms].
    rewrite length_app. apply Forall_app. split.
    + eapply Forall_impl; [exact H4|]. intros r Hr. cbn in Hr. lia.
    + apply Forall_seq. intros j Hj. lia.
  - apply NoDup_app. split; [done|]. split; [|apply NoDup_seq].
    intros r Hr Hr'. apply elem_of_seq in Hr'.
    unfold refs_ok in H4. rewrite Forall_forall in H4. specialize (H4 r Hr). lia.
  - rewrite length_app, Hlen.
    assert (photons_of (disintegrated t a) = photonCount (Atom.type a)) by reflexivity.
    lia.
  - rewrite length_app.
    assert (holes_of (disintegrated t a) = length (spawned_holes a)).
    { unfold holes_of, spawned_holes. cbn. by destruct (Atom.type a). }
    lia.
  - by rewrite length_insert.
Qed.

Lemma target_alive_run s w :
  (forall i, Snake.target s = Some i -> (i < length (atoms w))%nat) ->
  exists b, target_alive s w = Some (b, w)
            /\ (b = true -> exists i a, Snake.target s = Some i /\ atoms w !! i = Some a).
Proof.
  intros Htarget. unfold target_alive. destruct (Snake.target s) as [i|].
  - destruct (lookup_lt_is_Some_2 (atoms w) i (Htarget i eq_refl)) as [a Ha].
    rewrite (bind_Some _ _ w a w) by (unfold atom_at; by rewrite Ha).
    eexists. split; [reflexivity|]. intros _. by exists i, a.
  - exists false. by split.
Qed.

Lemma with_clk_inv n w : Inv w -> Inv (with_clk n w).
Proof. by apply Inv_ext. Qed.

Lemma with_rnd_inv n w : Inv w -> Inv (with_rnd n w).
Proof. by apply Inv_ext. Qed.

Lemma with_ctx_inv l w : Inv w -> Inv (with_ctx l w).
Proof. by apply Inv_ext. Qed.

Lemma with_size_inv a b w : Inv w -> Inv (with_size a b w).
Proof. by apply Inv_ext. Qed.

Lemma set_snake_inv k s w :
  Inv w -> snake_ok (length (atoms w)) s ->
  Inv (with_snakes (<[k := s]> (snakes w)) w).
Proof.
  intros [H1 H2 H3 H4 H5 H6 H7] Hs. split; try done.
  cbn [snakes atoms with_snakes]. by apply Forall_insert.
Qed.

(** [update()] on the snake at index [k] does not throw and keeps the
    invariant. *)
Lemma Snake_update_inv k s0 w :
  Inv w -> snakes w !! k = Some s0 ->
  exists w', Snake_update E k w = Some (tt, w') /\ Inv w'
             /\ length (snakes w') = length (snakes w).
Proof.
  intros HInv Hk.
  assert (Hs0 : snake_ok (length (atoms w)) s0).
  { eapply Forall_lookup_1; [apply (inv_snakes w HInv)|exact Hk]. }
  unfold Snake_update.
  rewrite (bind_Some _ _ w s0 w) by (unfold snake_at; by rewrite Hk).
  destruct (Snake.positions s0 !! 0%nat) as [head|] eqn:Hhead.
  2:{ apply lookup_ge_None in Hhead. destruct Hs0 as [Hh _]. lia. }
  rewrite (bind_Some _ _ w head w) by reflexivity.
  (* the target: seek *)
  destruct (target_alive_run s0 w (mid_target _ _ (ok_mid _ _ Hs0))) as (b1 & Hrun1 & _).
  rewrite (bind_Some _ _ _ _ _ Hrun1).
  assert (Hseek : exists s1,
    (if negb b1 then
       found <- forEach atoms (fun i atom (acc : option Q * option nat) =>
                  if (Atom.state atom =? 0)%Z then
                    let dist := hypot E (x head - x (Atom.position atom))
                                        (y head - y (Atom.position atom)) in
                    if below dist (fst acc) then ret (Some dist, Some i)
                    else ret acc
                  else ret acc)
                (None, Snake.target s0) ;;
       ret (with_target (snd found) s0)
     else ret s0) w = Some (s1, w)
    /\ snake_ok (length (atoms w)) s1).
  { destruct b1; cbn [negb]; [by exists s0|].
    match goal with |- context [forEach atoms ?f ?b] =>
      destruct (forEach_inv atoms f
        (fun acc w' => w' = w /\ forall i, snd acc = Some i -> (i < length (atoms w))%nat)
        b w) as (found & w' & Hrun & -> & Hfound) end.
    - intros i atom acc w' [-> Hacc] Hi. cbv zeta.
      destruct (Atom.state atom =? 0)%Z; [|by exists acc, w].
      destruct (below _ _); [|by exists acc, w].
      eexists _, w. split; [reflexivity|]. split; [done|].
      intros j Hj. cbn in Hj. injection Hj as <-. by eapply lookup_lt_Some.
    - split; [done|]. apply (mid_target _ _ (ok_mid _ _ Hs0)).
    - rewrite (bind_Some _ _ _ _ _ Hrun). eexists. split; [reflexivity|].
      destruct Hs0 as [Hh [Hf Hb _]]. by repeat split. }
  destruct Hseek as (s1 & Hrun2 & Hs1). rewrite (bind_Some _ _ _ _ _ Hrun2).
  clear Hrun1 Hrun2 b1.
  (* the angle *)
  destruct (target_alive_run s1 w (mid_target _ _ (ok_mid _ _ Hs1))) as (b2 & Hrun3 & Hb2).
  rewrite (bind_Some _ _ _ _ _ Hrun3).
  assert (Hsteer : exists s2 n,
    (if b2 then
       tg <- deref (Snake.target s1) ;;
       a <- atom_at tg ;;
       (let dx := x (Atom.position a) - x head in
        let dy := y (Atom.position a) - y head in
        let angleToTarget := atan2 E dy dx in
        let angleDifference := angleToTarget - Snake.angle s1 in
        ret (with_angle (Snake.angle s1
               + atan2 E (sin E angleDifference) (cos E angleDifference) * 0.05) s1))
     else
       r <- next_random E ;;
       ret (with_angle (Snake.angle s1 + (r - 0.5) * 0.2) s1)) w
    = Some (s2, with_rnd n w)
    /\ snake_ok (length (atoms w)) s2).
  { destruct Hs1 as [Hh [Hf Hb Ht]]. destruct b2.
    - destruct (Hb2 eq_refl) as (i & a & Hi & Ha).
      rewrite (bind_Some _ _ w i w) by (by rewrite Hi).
      rewrite (bind_Some _ _ w a w) by (unfold atom_at; by rewrite Ha).
      eexists _, (rnd w). rewrite with_rnd_same. split; [cbv zeta; reflexivity|].
      by repeat split.
    - eexists _, _. split; [reflexivity|]. by repeat split. }
  destruct Hsteer as (s2 & n & Hrun4 & Hs2). rewrite (bind_Some _ _ _ _ _ Hrun4).
  clear Hrun3 Hrun4 Hb2 b2.
  rewrite (bind_Some _ _ _ (with_rnd n w) (with_rnd n w)) by reflexivity.
  cbn [width height with_rnd].
  set (newHead := mkVec2 _ _).
  (* the atoms *)
  match goal with |- context [forEach atoms ?f s2] =>
    destruct (forEach_inv atoms f
      (fun s' w' => Inv w' /\ snake_ok (length (atoms w')) s'
                    /\ length (snakes w') = length (snakes w))
      s2 (with_rnd n w)) as (s3 & w3 & Hrun5 & HInv3 & Hs3 & Hlen3) end.
  { intros i atom s' w' (HInv' & Hs' & Hlen') Hi. cbv zeta.
    destruct (Atom.state atom =? 0)%Z eqn:Hst; [|by exists s', w'].
    destruct (Qltb _ _); [|by exists s', w'].
    unfold bind at 1. cbn [performance_now].
    destruct (Atom_disintegrate_inv i (now E (clk w')) atom (with_clk (S (clk w')) w'))
      as (w2 & Hrun & HInv2 & Hlen2); [by apply with_clk_inv|exact Hi|lia|].
    rewrite (bind_Some _ _ _ _ _ Hrun).
    destruct (Snake_grow_ok (length (atoms w')) (Atom.type atom) s' Hs')
      as (s'' & Hgrow & Hs'' & _).
    rewrite (bind_Some _ _ w2 s'' w2) by (by rewrite Hgrow).
    eexists _, w2. split; [reflexivity|]. split; [exact HInv2|]. split.
    - cbn [atoms with_clk] in Hlen2. rewrite Hlen2.
      destruct Hs'' as [Hh [Hf Hb Ht]]. by repeat split.
    - rewrite <- Hlen'.
      destruct (Atom_disintegrate_run E i (now E (clk w')) atom
                  (with_clk (S (clk w')) w') Hi) as (ps & Hrun' & _).
      rewrite Hrun in Hrun'. injection Hrun' as ->. reflexivity. }
  { split; [by apply with_rnd_inv|]. by split. }
  rewrite (bind_Some _ _ _ _ _ Hrun5). clear Hrun5.
  (* the black holes *)
  match goal with |- context [forEach blackHoles ?f s3] =>
    destruct (forEach_inv blackHoles f
      (fun s' w' => w' = w3 /\ snake_mid (length (atoms w3)) s')
      s3 w3) as (s4 & w4 & Hrun6 & -> & Hs4) end.
  { intros j hole s' w' [-> Hs'] Hj. cbv zeta. destruct (Qltb _ _).
    - eexists _, w3. split; [reflexivity|]. split; [done|]. by apply Snake_shrink_mid.
    - by exists s', w3. }
  { split; [done|]. apply Hs3. }
  rewrite (bind_Some _ _ _ _ _ Hrun6). clear Hrun6.
  (* the portals *)
  match goal with |- context [forEach portals ?f newHead] =>
    destruct (forEach_inv portals f
      (fun _ w' => exists m, w' = with_rnd m w3)
      newHead w3) as (newHead' & w5 & Hrun7 & m & ->) end.
  { intros j portal nh w' [m ->] Hj. cbv zeta. destruct (Qltb _ _).
    - destruct (ring_partner (portals w3) j portal (inv_ring _ HInv3) Hj) as [q Hq].
      unfold bind at 1. cbn [next_random]. unfold bind at 1. cbn [next_random].
      rewrite (bind_Some _ _ _ q (with_rnd (S (S m)) w3))
        by (unfold partner_of; cbn [portals with_rnd rnd]; by rewrite Hq).
      eexists _, _. split; [reflexivity|]. by eexists.
    - exists nh, (with_rnd m w3). split; [done|]. by exists m. }
  { exists (rnd w3). by rewrite with_rnd_same. }
  rewrite (bind_Some _ _ _ _ _ Hrun7). clear Hrun7.
  eexists. split; [reflexivity|]. split.
  - apply set_snake_inv; [by apply with_rnd_inv|].
    cbn [atoms with_rnd]. by apply unshift_ok.
  - cbn [snakes with_snakes with_rnd]. by rewrite length_insert.
Qed.

(** *** The loops of [animate] *)

Lemma hole_step_inv k h w :
  Inv w -> blackHoles w !! k = Some h ->
  exists w', (BlackHole_update E k ;;; BlackHole_draw E k) w = Some (tt, w') /\ Inv w'.
Proof.
  intros HInv Hk.
  destruct (BlackHole_update_run E k h w Hk (inv_refs _ HInv)) as (w1 & Hrun & Hw1 & Hlen).
  rewrite (bind_Some _ _ _ _ _ Hrun).
  assert (HInv1 : Inv w1).
  { apply (Inv_ext w); try (rewrite Hw1; reflexivity); [exact Hlen| |exact HInv].
    rewrite Hw1. cbn [blackHoles with_photon_store with_blackHoles].
    by rewrite length_insert. }
  assert (Hk1 : blackHoles w1 !! k = Some (BlackHole_grow h)).
  { rewrite Hw1. cbn [blackHoles with_photon_store with_blackHoles].
    apply list_lookup_insert_eq. by eapply lookup_lt_Some. }
  unfold BlackHole_draw.
  rewrite (bind_Some _ _ w1 (BlackHole_grow h) w1) by (unfold hole_at; by rewrite Hk1).
  rewrite emit_all_run. eexists. split; [reflexivity|]. by apply with_ctx_inv.
Qed.

Lemma photons_of_after t a : photons_of (Atom_after E t a) = photons_of a.
Proof.
  unfold Atom_after. destruct (_ && _) eqn:Hc; [|done].
  apply andb_prop in Hc as [H1 _]. unfold photons_of. cbn [gone Atom.state Atom.type].
  assert ((Atom.state a =? 0)%Z = false) as -> by lia. done.
Qed.

Lemma holes_of_after t a : holes_of (Atom_after E t a) = holes_of a.
Proof.
  unfold Atom_after. destruct (_ && _) eqn:Hc; [|done].
  apply andb_prop in Hc as [H1 _]. unfold holes_of. cbn [gone Atom.state Atom.type].
  assert ((Atom.state a =? 0)%Z = false) as -> by lia. done.
Qed.

Lemma atom_step_inv i t a w :
  Inv w -> atoms w !! i = Some a ->
  exists w', Atom_draw E i t w = Some (tt, w') /\ Inv w'.
Proof.
  intros [H1 H2 H3 H4 H5 H6 H7] Hi. rewrite (Atom_draw_run E i t a w Hi).
  eexists. split; [reflexivity|].
  pose proof (sum_list_with_insert photons_of (atoms w) i a (Atom_after E t a) Hi) as Hp.
  pose proof (sum_list_with_insert holes_of (atoms w) i a (Atom_after E t a) Hi) as Hh.
  rewrite photons_of_after in Hp. rewrite holes_of_after in Hh.
  split; cbn [atoms snakes photon_store photons blackHoles portals with_ctx with_atoms];
    try done.
  - by rewrite length_insert.
  - lia.
  - lia.
Qed.

Lemma snake_step_inv k s w :
  Inv w -> snakes w !! k = Some s ->
  exists w', (Snake_update E k ;;; Snake_draw k) w = Some (tt, w') /\ Inv w'.
Proof.
  intros HInv Hk.
  destruct (Snake_update_inv k s w HInv Hk) as (w1 & Hrun & HInv1 & Hlen).
  rewrite (bind_Some _ _ _ _ _ Hrun).
  assert (is_Some (snakes w1 !! k)) as [s1 Hk1].
  { apply lookup_lt_is_Some_2. rewrite Hlen. by eapply lookup_lt_Some. }
  unfold Snake_draw.
  rewrite (bind_Some _ _ w1 s1 w1) by (unfold snake_at; by rewrite Hk1).
  rewrite emit_all_run. eexists. split; [reflexivity|]. by apply with_ctx_inv.
Qed.

Lemma photon_step_inv k r w :
  Inv w -> photons w !! k = Some r ->
  exists w', (Photon_update E r ;;; Photon_draw E r) w = Some (tt, w') /\ Inv w'.
Proof.
  intros HInv Hk.
  assert (Hr : (r < length (photon_store w))%nat).
  { pose proof (inv_refs _ HInv) as Hrefs. unfold refs_ok in Hrefs.
    rewrite Forall_lookup in Hrefs. exact (Hrefs k r Hk). }
  apply lookup_lt_is_Some_2 in Hr as [p Hp].
  destruct (Photon_update_run E r p w (inv_ring _ HInv) Hp) as (pos & n & Hrun).
  cbv zeta in Hrun. rewrite (bind_Some _ _ _ _ _ Hrun).
  set (w1 := if expired w (moved pos p) then _ else _).
  assert (Hstore : photon_store w1 = <[r := moved pos p]> (photon_store w)).
  { unfold w1. by destruct (expired _ _). }
  assert (HInv1 : Inv w1).
  { destruct HInv as [H1 H2 H3 H4 H5 H6 H7].
    assert (Hsub : photons w1 `sublist_of` photons w).
    { unfold w1. destruct (expired _ _); [apply splice1_sublist|done]. }
    split; try (unfold w1; destruct (expired _ _); done).
    - unfold refs_ok in *. rewrite Hstore, length_insert.
      apply Forall_forall. intros r' Hr'. rewrite Forall_forall in H4.
      apply H4. eapply elem_of_sublist; eauto.
    - eapply sublist_NoDup; eauto.
    - rewrite Hstore, length_insert.
      unfold w1. by destruct (expired _ _). }
  unfold Photon_draw.
  rewrite (bind_Some _ _ w1 (moved pos p) w1).
  2:{ unfold photon_at. rewrite Hstore, list_lookup_insert_eq; [done|].
      by eapply lookup_lt_Some. }
  rewrite emit_all_run. eexists. split; [reflexivity|]. by apply with_ctx_inv.
Qed.

Lemma grid_loop_inv limit (line : Q -> M unit) fuel : forall v w,
  (forall v w, Inv w -> exists w', line v w = Some (tt, w') /\ Inv w') ->
  Inv w ->
  exists w', grid_loop fuel v limit line w = Some (tt, w') /\ Inv w'.
Proof.
  induction fuel as [|fuel IH]; intros v w Hline HInv; cbn [grid_loop].
  - by exists w.
  - destruct (Qltb limit v); [by exists w|].
    destruct (Hline v w HInv) as (w1 & Hrun & HInv1).
    rewrite (bind_Some _ _ _ _ _ Hrun). by apply IH.
Qed.

Lemma emit_all_inv ops w :
  Inv w -> exists w', emit_all ops w = Some (tt, w') /\ Inv w'.
Proof.
  intros HInv. rewrite emit_all_run. eexists. split; [reflexivity|].
  by apply with_ctx_inv.
Qed.

Lemma drawBackgroundGrid_inv w :
  Inv w -> exists w', drawBackgroundGrid w = Some (tt, w') /\ Inv w'.
Proof.
  intros HInv. unfold drawBackgroundGrid.
  rewrite (bind_Some _ _ w w w) by reflexivity.
  destruct (emit_all_inv [Save; SetStrokeStyle (Lit "rgba(255, 0, 255, 0.2)");
                          SetLineWidth 1; BeginPath] w HInv) as (w1 & Hrun1 & HInv1).
  rewrite (bind_Some _ _ _ _ _ Hrun1).
  destruct (grid_loop_inv (width w)
              (fun gx => emit_all [MoveTo gx 0; LineTo gx (height w)])
              (grid_fuel (width w)) 0 w1) as (w2 & Hrun2 & HInv2);
    [intros; by apply emit_all_inv|exact HInv1|].
  rewrite (bind_Some _ _ _ _ _ Hrun2).
  destruct (grid_loop_inv (height w)
              (fun gy => emit_all [MoveTo 0 gy; LineTo (width w) gy])
              (grid_fuel (height w)) 0 w2) as (w3 & Hrun3 & HInv3);
    [intros; by apply emit_all_inv|exact HInv2|].
  rewrite (bind_Some _ _ _ _ _ Hrun3).
  by apply emit_all_inv.
Qed.

(** One frame does not throw and keeps the invariant. *)
Lemma animate_inv w :
  Inv w -> exists w', animate E w = Some (tt, w') /\ Inv w'.
Proof.
  intros HInv. unfold animate.
  rewrite (bind_Some _ _ w w w) by reflexivity.
  destruct (emit_all_inv [ClearRect 0 0 (width w) (height w); SetFillStyle (Lit "#000");
                          FillRect 0 0 (width w) (height w)] w HInv)
    as (w1 & Hrun1 & HInv1).
  rewrite (bind_Some _ _ _ _ _ Hrun1).
  destruct (drawBackgroundGrid_inv w1 HInv1) as (w2 & Hrun2 & HInv2).
  rewrite (bind_Some _ _ _ _ _ Hrun2).
  destruct (forEach_inv blackHoles
              (fun k (_ : BlackHole.t) (_ : unit) => BlackHole_update E k ;;; BlackHole_draw E k)
              (fun _ w' => Inv w') tt w2) as ([] & w3 & Hrun3 & HInv3);
    [intros k h [] w' HI Hk; destruct (hole_step_inv k h w' HI Hk) as (w'' & ? & ?);
     by exists tt, w''|exact HInv2|].
  rewrite (bind_Some _ _ _ _ _ Hrun3).
  unfold bind at 1. cbn [performance_now].
  destruct (forEach_inv atoms
              (fun i (_ : Atom.t) (_ : unit) => Atom_draw E i (now E (clk w3)))
              (fun _ w' => Inv w') tt (with_clk (S (clk w3)) w3))
    as ([] & w4 & Hrun4 & HInv4);
    [intros i a [] w' HI Hi; destruct (atom_step_inv i (now E (clk w3)) a w' HI Hi)
       as (w'' & ? & ?); by exists tt, w''|by apply with_clk_inv|].
  rewrite (bind_Some _ _ _ _ _ Hrun4).
  destruct (forEach_inv snakes
              (fun k (_ : Snake.t) (_ : unit) => Snake_update E k ;;; Snake_draw k)
              (fun _ w' => Inv w') tt w4) as ([] & w5 & Hrun5 & HInv5);
    [intros k s [] w' HI Hk; destruct (snake_step_inv k s w' HI Hk) as (w'' & ? & ?);
     by exists tt, w''|exact HInv4|].
  rewrite (bind_Some _ _ _ _ _ Hrun5).
  destruct (forEach_inv photons
              (fun (_ r : nat) (_ : unit) => Photon_update E r ;;; Photon_draw E r)
              (fun _ w' => Inv w') tt w5) as ([] & w6 & Hrun6 & HInv6);
    [intros k r [] w' HI Hk; destruct (photon_step_inv k r w' HI Hk) as (w'' & ? & ?);
     by exists tt, w''|exact HInv5|].
  rewrite (bind_Some _ _ _ _ _ Hrun6).
  destruct (forEach_inv portals
              (fun (_ : nat) portal (_ : unit) => Portal_draw E portal)
              (fun _ w' => Inv w') tt w6) as ([] & w7 & Hrun7 & HInv7);
    [intros k portal [] w' HI Hk; destruct (emit_all_inv
       [Save; BeginPath;
        Arc (x (Portal.position portal)) (y (Portal.position portal))
            (Portal.radius portal) 0 (TWO_PI E);
        SetStrokeStyle (Lit "hsl(300, 100%, 70%)"); SetLineWidth 5;
        SetShadowColor (Lit "hsl(300, 100%, 70%)"); SetShadowBlur 15; Stroke; Restore]
       w' HI) as (w'' & ? & ?); by exists tt, w''|exact HInv6|].
  exists w7. by split.
Qed.

(** *** [init] and the events *)

Lemma times_inv (P : nat -> World -> Prop) (body : M unit) n :
  (forall i w, P i w -> exists w', body w = Some (tt, w') /\ P (S i) w') ->
  forall i w, P i w -> exists w', times n body w = Some (tt, w') /\ P (n + i)%nat w'.
Proof.
  intros Hbody. induction n as [|n IH]; intros i w HP; cbn [times].
  - by exists w.
  - destruct (Hbody i w HP) as (w1 & Hrun & HP1).
    rewrite (bind_Some _ _ _ _ _ Hrun).
    destruct (IH (S i) w1 HP1) as (w2 & Hrun2 & HP2).
    exists w2. split; [exact Hrun2|]. by rewrite Nat.add_succ_r in HP2.
Qed.

Lemma Snake_new_ok w :
  exists s n, Snake_new E w = Some (s, with_rnd n w)
              /\ (forall m, snake_ok m s)
              /\ length (Snake.positions s) = 40%nat
              /\ Snake.snakeLength s = 40%Z.
Proof.
  eexists _, (4 + rnd w)%nat. split.
  { unfold Snake_new, bind, next_random, get, ret. cbn [rnd with_rnd width height].
    reflexivity. }
  split; [|by split].
  intros m. split; [|split]; cbn [Snake.positions Snake.snakeLength Snake.target];
    rewrite ?length_replicate; unfold SNAKE_LENGTH; try lia; done.
Qed.

Lemma fresh_Inv w :
  fresh w -> ring (portals w) -> length (portals w) = NUM_PORTALS -> Inv w.
Proof.
  intros [H1 H2 H3 H4 H5] Hring Hlen.
  assert (Hsum : forall f : Atom.t -> nat,
            (forall a, Atom.state a = 0%Z -> f a = 0%nat) ->
            sum_list_with f (atoms w) = 0%nat).
  { intros f Hf. induction H4 as [|a l Ha _ IH]; [done|]. simpl. rewrite IH, Hf; done. }
  split; try done.
  - eapply Forall_impl; [exact H5|]. intros s Hs. apply Hs.
  - unfold refs_ok. rewrite H2. constructor.
  - rewrite H2. constructor.
  - rewrite H1, Hsum; [done|]. intros a Ha. unfold photons_of. by rewrite Ha.
  - rewrite H3, Hsum; [done|]. intros a Ha. unfold holes_of. by rewrite Ha.
Qed.

Lemma init_inv innerWidth innerHeight :
  exists w, init E innerWidth innerHeight empty_world = Some (tt, w) /\ Inv w.
Proof.
  unfold init.
  do 6 (unfold bind at 1; cbn [resizeCanvas modify]).
  set (w0 := with_portals [] _).
  assert (H0 : fresh w0 /\ snakes w0 = [] /\ portals w0 = []).
  { split; [split; cbn; by constructor|done]. }
  (* the atoms *)
  match goal with |- context [times NUM_ATOMS ?body] =>
    destruct (times_inv (fun _ w => fresh w /\ snakes w = [] /\ portals w = [])
                body NUM_ATOMS) with (i := 0%nat) (w := w0) as (w1 & Hrun1 & H1) end;
    [|exact H0|].
  { intros _ w ([F1 F2 F3 F4 F5] & Hs & Hp).
    eexists. split; [reflexivity|].
    cbn [atoms snakes portals photons photon_store blackHoles with_atoms with_rnd].
    split; [split|done]; cbn [atoms snakes portals photons photon_store blackHoles
                               with_atoms with_rnd]; try done.
    apply Forall_app. split; [done|]. by repeat constructor. }
  rewrite (bind_Some _ _ _ _ _ Hrun1). clear Hrun1 H0.
  (* the snakes *)
  match goal with |- context [times NUM_SNAKES ?body] =>
    destruct (times_inv (fun _ w => fresh w /\ portals w = [])
                body NUM_SNAKES) with (i := 0%nat) (w := w1) as (w2 & Hrun2 & H2) end;
    [|by destruct H1 as (? & _ & ?)|].
  { intros _ w ([F1 F2 F3 F4 F5] & Hp).
    destruct (Snake_new_ok w) as (s & n & Hnew & Hs & _).
    rewrite (bind_Some _ _ _ _ _ Hnew).
    eexists. split; [reflexivity|].
    split; [split|done]; cbn [atoms snakes portals photons photon_store blackHoles
                               with_snakes with_rnd]; try done.
    apply Forall_app. split; [done|]. constructor; [exact Hs|constructor]. }
  rewrite (bind_Some _ _ _ _ _ Hrun2). clear Hrun2 H1.
  (* the portals *)
  match goal with |- context [times NUM_PORTALS ?body] =>
    destruct (times_inv (fun i w => fresh w /\ length (portals w) = i)
                body NUM_PORTALS) with (i := 0%nat) (w := w2) as (w3 & Hrun3 & H3) end;
    [|by destruct H2 as (? & ->)|].
  { intros i w ([F1 F2 F3 F4 F5] & Hp).
    eexists. split; [reflexivity|].
    split; [split|]; cbn [atoms snakes portals photons photon_store blackHoles
                          with_portals with_rnd]; try done.
    rewrite length_app. cbn. lia. }
  rewrite (bind_Some _ _ _ _ _ Hrun3). clear Hrun3 H2.
  destruct H3 as [F3 Hlen3]. rewrite Nat.add_0_r in Hlen3.
  rewrite (bind_Some _ _ w3 w3 w3) by reflexivity.
  destruct (assign_partners_ring (portals w3)) as (ps & Hassign & Hlen & Hring & _).
  rewrite (bind_Some _ _ w3 ps w3) by (by rewrite Hassign).
  unfold bind at 1. cbn [modify].
  apply animate_inv. apply fresh_Inv.
  - by destruct F3.
  - exact Hring.
  - cbn [portals with_portals]. by rewrite Hlen.
Qed.

Lemma addSnakeAt_inv px py w :
  Inv w -> exists w', addSnakeAt E px py w = Some (tt, w') /\ Inv w'.
Proof.
  intros [H1 H2 H3 H4 H5 H6 H7]. unfold addSnakeAt.
  destruct (Snake_new_ok w) as (s & n & Hnew & Hs & _ & Hlen).
  rewrite (bind_Some _ _ _ _ _ Hnew).
  eexists. split; [reflexivity|].
  split; cbn [atoms snakes portals photons photon_store blackHoles with_snakes with_rnd];
    try done.
  apply Forall_app. split; [done|]. constructor; [|constructor].
  destruct (Hs (length (atoms w))) as [_ [Hf _ Ht]].
  split; [|split]; cbn [with_positions Snake.positions Snake.snakeLength Snake.target];
    rewrite ?length_replicate; try done; lia.
Qed.

Lemma handle_inv ev w :
  Inv w -> exists w', handle E ev w = Some (tt, w') /\ Inv w'.
Proof.
  intros HInv. destruct ev as [|cx cy|iw ih]; cbn [handle].
  - by apply animate_inv.
  - by apply addSnakeAt_inv.
  - eexists. split; [reflexivity|]. by apply with_size_inv.
Qed.

Lemma handle_all_inv evs : forall w,
  Inv w -> exists w', handle_all E evs w = Some (tt, w') /\ Inv w'.
Proof.
  induction evs as [|ev evs IH]; intros w HInv; cbn [handle_all].
  - by exists w.
  - destruct (handle_inv ev w HInv) as (w1 & Hrun & HInv1).
    rewrite (bind_Some _ _ _ _ _ Hrun). by apply IH.
Qed.

(** The script never throws, and the invariant holds after every event. *)
Lemma run_inv innerWidth innerHeight evs :
  exists w, run E innerWidth innerHeight evs = Some w /\ Inv w.
Proof.
  unfold run. destruct (init_inv innerWidth innerHeight) as (w0 & Hinit & HInv0).
  rewrite (bind_Some _ _ _ _ _ Hinit).
  destruct (handle_all_inv evs w0 HInv0) as (w & Hrun & HInv).
  rewrite Hrun. exists w. split; [reflexivity|exact HInv].
Qed.

End InvariantProps.

(** ** The run *)

Section RunProps.

Variable E : Env.

Lemma Inv_snake innerWidth innerHeight evs :
  exists w, run E innerWidth innerHeight evs = Some w
            /\ Forall (snake_ok (length (atoms w))) (snakes w).
Proof.
  destruct (run_inv E innerWidth innerHeight evs) as (w & Hrun & HInv).
  exists w. split; [exact Hrun|]. apply (inv_snakes w HInv).
Qed.

(** C1 (amended): after [init] and after every further frame, click and
    resize, every snake has a length [snakeLength] of at least 10 and a
    position sequence of at least 1 and at most [snakeLength] elements;
    [shrink()] leaves [snakeLength] at 10 or more and [grow()] does not
    lower it. *)
Theorem Snake_length_floor innerWidth innerHeight evs :
  (exists w, run E innerWidth innerHeight evs = Some w
     /\ Forall (fun s => (10 <= Snake.snakeLength s)%Z
                         /\ (1 <= length (Snake.positions s))%nat
                         /\ (Z.of_nat (length (Snake.positions s))
                             <= Snake.snakeLength s)%Z) (snakes w))
  /\ (forall s, (10 <= Snake.snakeLength (Snake_shrink s))%Z)
  /\ (forall type s s', Snake_grow type s = Some s' ->
        (Snake.snakeLength s <= Snake.snakeLength s')%Z).
Proof.
  split; [|split].
  - destruct (Inv_snake innerWidth innerHeight evs) as (w & Hrun & Hs).
    exists w. split; [exact Hrun|].
    eapply Forall_impl; [exact Hs|]. intros s [Hh [Hf Hb _]]. auto.
  - intros s. cbn [Snake_shrink Snake.snakeLength]. lia.
  - intros type s s'. unfold Snake_grow.
    destruct (grow_loop _ _); [|done]. cbn. intros [= <-].
    cbn [Snake.snakeLength]. lia.
Qed.

Lemma holes_of_le l : (sum_list_with holes_of l <= special_count l)%nat.
Proof.
  unfold special_count. induction l as [|a l IH]; simpl; [lia|].
  unfold holes_of at 1. destruct (Atom.state a =? 0)%Z, (is_special (Atom.type a)); lia.
Qed.

(** C10: over the whole run each atom disintegrates at most once: the
    photons made so far are exactly one batch (5 or 15) for each atom that is
    no longer alive and none for an alive atom, the black holes are exactly
    one for each special atom that is no longer alive, and so there are never
    more black holes than special atoms; [disintegrate] leaves the atom in
    state 1, which the collision test of the snakes passes over. *)
Theorem Atom_disintegrates_once innerWidth innerHeight evs :
  (exists w, run E innerWidth innerHeight evs = Some w
     /\ length (photon_store w) = sum_list_with photons_of (atoms w)
     /\ length (blackHoles w) = sum_list_with holes_of (atoms w)
     /\ (length (blackHoles w) <= special_count (atoms w))%nat)
  /\ (forall i t a w, atoms w !! i = Some a ->
        exists w' a', Atom_disintegrate E i t w = Some (tt, w')
                      /\ atoms w' !! i = Some a' /\ Atom.state a' = 1%Z).
Proof.
  split.
  - destruct (run_inv E innerWidth innerHeight evs) as (w & Hrun & HInv).
    exists w. split; [exact Hrun|].
    pose proof (inv_emitted w HInv) as He. pose proof (inv_holes w HInv) as Hh.
    split; [exact He|]. split; [exact Hh|]. rewrite Hh. apply holes_of_le.
  - intros i t a w Hi.
    destruct (Atom_disintegrate_run E i t a w Hi) as (ps & Hrun & _).
    eexists _, (disintegrated t a). split; [exact Hrun|]. split; [|reflexivity].
    cbn [atoms with_blackHoles with_rnd with_photons with_photon_store with_atoms].
    apply list_lookup_insert_eq. by eapply lookup_lt_Some.
Qed.

(** C6: the loop of [init] gives every portal exactly one partner, portal
    [i] the portal [(i + 1) mod count]; following the partner link [count]
    times from any portal leads back to it, and for a count above 1 no portal
    is its own partner.  After [init] and after every further event the
    portals are the [NUM_PORTALS] portals in this ring. *)
Theorem Portal_ring innerWidth innerHeight evs :
  (forall ps : list Portal.t,
     exists ps', assign_partners 0 (length ps) ps = Some ps'
       /\ length ps' = length ps
       /\ forall i, (i < length ps)%nat ->
            (exists p, ps' !! i = Some p
                       /\ Portal.partner p = Some ((i + 1) mod length ps)%nat)
            /\ follow ps' (length ps) i = Some i
            /\ ((1 < length ps)%nat -> follow ps' 1 i <> Some i))
  /\ exists w, run E innerWidth innerHeight evs = Some w
       /\ length (portals w) = NUM_PORTALS
       /\ forall i, (i < NUM_PORTALS)%nat ->
            (exists p, portals w !! i = Some p
                       /\ Portal.partner p = Some ((i + 1) mod NUM_PORTALS)%nat)
            /\ follow (portals w) NUM_PORTALS i = Some i
            /\ follow (portals w) 1 i <> Some i.
Proof.
  assert (Hgen : forall ps' : list Portal.t, ring ps' ->
            forall i, (i < length ps')%nat ->
              (exists p, ps' !! i = Some p
                         /\ Portal.partner p = Some ((i + 1) mod length ps')%nat)
              /\ follow ps' (length ps') i = Some i
              /\ ((1 < length ps')%nat -> follow ps' 1 i <> Some i)).
  { intros ps' Hring i Hi.
    destruct (lookup_lt_is_Some_2 ps' i Hi) as [p Hp].
    split; [exists p; split; [exact Hp|by apply Hring]|].
    split; [by apply ring_closed|].
    intros Hn. rewrite follow_ring by done. intros [= Heq].
    by apply (ring_irreflexive ps' i Hn Hi). }
  split.
  - intros ps. destruct (assign_partners_ring ps) as (ps' & Hrun & Hlen & Hring & _).
    exists ps'. split; [exact Hrun|]. split; [exact Hlen|].
    intros i Hi. rewrite <- Hlen in *. by apply Hgen.
  - destruct (run_inv E innerWidth innerHeight evs) as (w & Hrun & HInv).
    exists w. split; [exact Hrun|].
    pose proof (inv_portals w HInv) as Hlen. split; [exact Hlen|].
    intros i Hi. rewrite <- Hlen in *.
    destruct (Hgen (portals w) (inv_ring w HInv) i Hi) as (H1 & H2 & H3).
    split; [exact H1|]. split; [exact H2|]. apply H3. rewrite Hlen. unfold NUM_PORTALS. lia.
Qed.

End RunProps.

(** ** The script on concrete worlds *)

(** C4, on a special atom that is alive: 15 photons and one black hole. *)
Lemma Atom_disintegrate_spec_witness :
  atoms one_atom !! 0%nat = Some (Atom.mk (mkVec2 400 300) 0%Z 0 300 10 special)
  /\ exists w', Atom_disintegrate demo 0 5 one_atom = Some (tt, w')
                /\ length (photon_store w') = 15%nat
                /\ length (blackHoles w') = 1%nat.
Proof.
  split; [reflexivity|].
  destruct (Atom_disintegrate_spec demo 0 5
              (Atom.mk (mkVec2 400 300) 0%Z 0 300 10 special) one_atom
              eq_refl eq_refl)
    as (w' & ps & Hrun & _ & Hlen & Hstore & _ & _ & Hholes).
  exists w'. split; [exact Hrun|]. rewrite Hstore, Hholes. split; [exact Hlen|reflexivity].
Defined.

(** C7, with the rounding of doubles, on an atom that has been
    disintegrating since 16.7.  At 516.7 the opacity is within [2^-50] of
    one half.  At 1016.7 the difference of the two times, which are doubles,
    is above 1000, but the script rounds it to 1000: [alpha] is 1, and the
    atom is drawn once more, with opacity 0.  At 1017.7 it is gone and
    nothing is drawn. *)
Lemma Atom_draw_fading_witness :
  atoms late_atom !! 0%nat
  = Some (Atom.mk (mkVec2 400 300) 1%Z (binary64 16.7) 300 10 special)
  /\ Qabs (fade_alpha ieee (binary64 516.7)
             (Atom.mk (mkVec2 400 300) 1%Z (binary64 16.7) 300 10 special)
           - (1 - (binary64 516.7 - binary64 16.7) / 1000)) <= 1 / 2 ^ 50
  /\ 1000 < binary64 1016.7 - binary64 16.7
  /\ elapsed ieee (binary64 1016.7)
       (Atom.mk (mkVec2 400 300) 1%Z (binary64 16.7) 300 10 special) == 1
  /\ Atom_draw ieee 0 (binary64 1016.7) late_atom
     = Some (tt, with_ctx
          [BeginPath;
           Arc 400 300
               (double ieee (10 * fade_alpha ieee (binary64 1016.7)
                  (Atom.mk (mkVec2 400 300) 1%Z (binary64 16.7) 300 10 special)))
               0 (TWO_PI ieee);
           SetFillStyle (Hsla 300 (fade_alpha ieee (binary64 1016.7)
                  (Atom.mk (mkVec2 400 300) 1%Z (binary64 16.7) 300 10 special)));
           SetShadowColor (Hsla 300 (fade_alpha ieee (binary64 1016.7)
                  (Atom.mk (mkVec2 400 300) 1%Z (binary64 16.7) 300 10 special)));
           SetShadowBlur (double ieee (20 * fade_alpha ieee (binary64 1016.7)
                  (Atom.mk (mkVec2 400 300) 1%Z (binary64 16.7) 300 10 special)));
           Fill;
           SetShadowBlur 0] late_atom)
  /\ fade_alpha ieee (binary64 1016.7)
       (Atom.mk (mkVec2 400 300) 1%Z (binary64 16.7) 300 10 special) == 0
  /\ Atom_draw ieee 0 (binary64 1017.7) late_atom
     = Some (tt, world_of [Atom.mk (mkVec2 400 300) 2%Z (binary64 16.7) 300 10 special]
                          [] []).
Proof.
  split; [reflexivity|].
  destruct (Atom_draw_fading ieee 0 (binary64 516.7)
              (Atom.mk (mkVec2 400 300) 1%Z (binary64 16.7) 300 10 special) late_atom
              eq_refl)
    as (_ & _ & _ & _ & _ & Hround).
  destruct (Hround binary64_rounding) as (_ & _ & _ & _ & _ & _ & Hline).
  split; [apply Hline; vm_compute; discriminate|].
  split; [vm_compute; reflexivity|]. split; [vm_compute; reflexivity|].
  destruct (Atom_draw_fading ieee 0 (binary64 1016.7)
              (Atom.mk (mkVec2 400 300) 1%Z (binary64 16.7) 300 10 special) late_atom
              eq_refl)
    as (Hdraw & _).
  split; [apply Hdraw; [reflexivity|vm_compute; discriminate]|].
  split; [vm_compute; reflexivity|].
  destruct (Atom_draw_fading ieee 0 (binary64 1017.7)
              (Atom.mk (mkVec2 400 300) 1%Z (binary64 16.7) 300 10 special) late_atom
              eq_refl)
    as (_ & _ & _ & _ & _ & Hround').
  destruct (Hround' binary64_rounding) as (_ & _ & Hgone & _).
  apply Hgone; [reflexivity|vm_compute; discriminate].
Defined.

(** C3 (amended), on the same atom: the first call at time 1001 makes the
    atom gone, the second call changes nothing. *)
Lemma draw_twice_witness :
  draw_call demo (DrawAtom 0 1001) fading_atom
  = Some (tt, world_of [Atom.mk (mkVec2 400 300) 2%Z 0 300 10 special] [] [])
  /\ exists out,
       draw_call demo (DrawAtom 0 1001)
                 (world_of [Atom.mk (mkVec2 400 300) 2%Z 0 300 10 special] [] [])
       = Some (tt, with_ctx ([] ++ out)
                     (world_of [Atom.mk (mkVec2 400 300) 2%Z 0 300 10 special] [] [])).
Proof.
  split; [reflexivity|].
  destruct (draw_twice demo (DrawAtom 0 1001) fading_atom
              (world_of [Atom.mk (mkVec2 400 300) 2%Z 0 300 10 special] [] [])
              eq_refl)
    as (out & _ & Hsecond & _).
  exists out. exact Hsecond.
Defined.

(** C3 as stated fails: the [draw] of an atom changes the atom's state. *)
Lemma Atom_draw_changes_state :
  (Atom.state <$> atoms fading_atom !! 0%nat) = Some 1%Z
  /\ (w' ← snd <$> Atom_draw demo 0 1001 fading_atom;
      Atom.state <$> atoms w' !! 0%nat) = Some 2%Z.
Proof. split; reflexivity. Qed.

Lemma ring_nil : ring [].
Proof. intros i p H. discriminate H. Qed.

Lemma NoDup_two : NoDup [0%nat; 1%nat].
Proof.
  apply NoDup_cons. split.
  - intros H. apply list_elem_of_singleton in H. discriminate H.
  - apply NoDup_singleton.
Qed.

(** C8, on the photon at the end of its life: the counter goes from 100 to
    101 and the photon leaves the array. *)
Lemma Photon_update_spec_witness :
  photon_store two_photons !! 0%nat
  = Some (Photon.mk (mkVec2 100 100) (mkVec2 1 0) 300 100%Z 100%Z 3 normal)
  /\ exists w' p', Photon_update demo 0 two_photons = Some (tt, w')
                   /\ photon_store w' !! 0%nat = Some p'
                   /\ Photon.life p' = 101%Z
                   /\ (0%nat ∉ photons w').
Proof.
  split; [reflexivity|].
  destruct (Photon_update_spec demo 0
              (Photon.mk (mkVec2 100 100) (mkVec2 1 0) 300 100%Z 100%Z 3 normal)
              two_photons ring_nil NoDup_two (list_elem_of_here _ _) eq_refl eq_refl)
    as (w' & p' & Hrun & Hstore & Hlife & _ & Hout & _).
  exists w', p'. split; [exact Hrun|]. split; [exact Hstore|]. split; [exact Hlife|].
  apply Hout. left. rewrite Hlife. reflexivity.
Defined.

(** C5, on a black hole that has been updated twice: the third update takes
    the radius from 1 to 1.5. *)
Lemma BlackHole_radius_bounded_witness :
  blackHoles one_hole !! 0%nat = Some (hole_after 400 300 2)
  /\ exists w', BlackHole_update demo 0 one_hole = Some (tt, w')
                /\ blackHoles w' !! 0%nat = Some (hole_after 400 300 3).
Proof.
  split; [reflexivity|].
  destruct (BlackHole_radius_bounded demo 400 300 2) as (Hupd & _).
  apply (Hupd 0%nat one_hole eq_refl). constructor.
Defined.

(** C1 as stated fails.  With [random()] always 0.5 every atom, snake and
    portal starts at the centre of the canvas and every atom is special.  In
    the first frame the first snake eats all 75 atoms, which leaves 75 black
    holes of radius 0 at the centre; its new head is 2 away from them, so it
    shrinks 75 times by up to ten positions and, having grown by 1125, keeps
    415.  Every other snake finds no atom, moves 2 away from the centre and
    shrinks 75 times as well: its 40 positions are gone after four of them,
    and the new head is its only position. *)
Lemma Snake_positions_below_ten :
  snake_lengths <$> run demo 800 600 [] = Some [415; 1; 1; 1; 1]%nat.
Proof. vm_compute. reflexivity. Qed.

(** The same happens to one snake that stays in reach of one full-grown
    black hole for four frames: 40, 30, 20, 10 and then a single position. *)
Lemma Snake_four_frames_in_a_hole :
  snake_lengths <$> (snd <$> handle_all demo [Frame; Frame; Frame; Frame] snake_in_hole)
  = Some [1%nat].
Proof. vm_compute. reflexivity. Qed.

(** C2 fails on the script.  The first photon of [two_photons] splices
    itself out during its [update()], the second photon moves to index 0, and
    [forEach] goes on to index 1, which the array no longer has: after the
    frame the second photon is still in the array, its life counter is still
    0 and its position is still (200, 200), and the only circle that the frame
    drew is that of the first photon. *)
Lemma photon_skipped_after_removal :
  (w' ← snd <$> animate demo two_photons;
   Some (photons w',
         (fun p => (Photon.life p, Photon.position p)) <$> photon_store w' !! 1%nat,
         filter is_arc (ctx w')))
  = Some ([1%nat], Some (0%Z, mkVec2 200 200), [Arc (100 + 1) (100 + 0) 3 0 (2 * demo_PI)]).
Proof. vm_compute. reflexivity. Qed.

(** * More of the script *)

(** ** The phases of [Snake.update] *)

(** [Snake.update] is these phases in a row. *)
Lemma Snake_update_phases (E : Env) (k : nat) :
  Snake_update E k
  = (s <- snake_at k ;;
     head <- deref (Snake.positions s !! 0%nat) ;;
     alive <- target_alive s ;;
     s <- seek E head s alive ;;
     alive <- target_alive s ;;
     s <- steer E head s alive ;;
     w <- get ;;
     let newHead := advance E head s w in
     s <- eat E newHead s ;;
     s <- suffer E newHead s ;;
     newHead <- teleport E newHead ;;
     settle k newHead s).
Proof. reflexivity. Qed.

(** ** Snake: grow and shrink *)

Lemma grow_loop_tail n : forall ps tail,
  last ps = Some tail -> grow_loop n ps = Some (ps ++ replicate n tail).
Proof.
  induction n as [|n IH]; intros ps tail Hlast; cbn [grow_loop replicate].
  - by rewrite app_nil_r.
  - rewrite Hlast. destruct tail as [tx ty]. cbn [x y].
    rewrite (IH _ (mkVec2 tx ty)) by apply last_snoc.
    by rewrite <- app_assoc.
Qed.

(** X1: [grow(type)] appends 5 (normal) or 15 (special) copies of the last
    position and adds as many to [snakeLength], leaving the other fields; on
    a snake without positions it throws. *)
Theorem Snake_grow_spec type s :
  (Snake.positions s = [] -> Snake_grow type s = None)
  /\ (forall tail, last (Snake.positions s) = Some tail ->
        Snake_grow type s
        = Some (Snake.mk (Snake.hue s) (Snake.color s)
                  (Snake.positions s
                   ++ replicate (match type with normal => 5 | special => 15 end)%nat tail)
                  (Snake.snakeLength s
                   + match type with normal => 5 | special => 15 end)%Z
                  (Snake.angle s) (Snake.target s))).
Proof.
  split.
  - intros Hnil. unfold Snake_grow. rewrite Hnil. by destruct type.
  - intros tail Hlast. unfold Snake_grow.
    rewrite (grow_loop_tail _ _ tail Hlast). by destruct type.
Qed.

Lemma removelast_take {A} (l : list A) : removelast l = take (length l - 1) l.
Proof.
  induction l as [|a [|b l] IH]; [done|done|].
  change (removelast (a :: b :: l)) with (a :: removelast (b :: l)).
  rewrite IH. cbn [length]. replace (S (S (length l)) - 1)%nat with (S (S (length l) - 1)) by lia.
  reflexivity.
Qed.

Lemma pop_guarded_take ps : pop_guarded ps = take (length ps - 1) ps.
Proof.
  unfold pop_guarded. destruct (0 <? length ps)%nat eqn:H.
  - apply removelast_take.
  - apply Nat.ltb_ge in H. destruct ps; [done|cbn in H; lia].
Qed.

Lemma shrunk_take n ps : Nat.iter n pop_guarded ps = take (length ps - n) ps.
Proof.
  induction n as [|n IH].
  - cbn. rewrite Nat.sub_0_r. by rewrite take_ge.
  - change (Nat.iter (S n) pop_guarded ps) with (pop_guarded (Nat.iter n pop_guarded ps)).
    rewrite pop_guarded_take, IH, length_take, take_take. f_equal. lia.
Qed.

(** X2: [shrink()] never throws; it removes the last ten positions, or all
    of them when there are fewer, keeps the order of the rest, and lowers
    [snakeLength] by ten but not below 10. *)
Theorem Snake_shrink_spec s :
  Snake.positions (Snake_shrink s)
  = take (length (Snake.positions s) - 10) (Snake.positions s)
  /\ ((length (Snake.positions s) <= 10)%nat -> Snake.positions (Snake_shrink s) = [])
  /\ (forall i, (i + 10 < length (Snake.positions s))%nat ->
        Snake.positions (Snake_shrink s) !! i = Snake.positions s !! i)
  /\ Snake.snakeLength (Snake_shrink s) = Z.max 10 (Snake.snakeLength s - 10)
  /\ Snake.target (Snake_shrink s) = Snake.target s
  /\ Snake.angle (Snake_shrink s) = Snake.angle s.
Proof.
  assert (H : Snake.positions (Snake_shrink s)
              = take (length (Snake.positions s) - 10) (Snake.positions s))
    by apply shrunk_take.
  split; [exact H|]. split; [|split; [|by repeat split]].
  - intros Hle. rewrite H. replace (_ - 10)%nat with 0%nat by lia. reflexivity.
  - intros i Hi. rewrite H. apply lookup_take_lt. lia.
Qed.

(** ** The wrap of the head *)

Lemma js_rem_nonneg a b :
  0 <= a -> 0 < b -> 0 <= js_rem a b /\ js_rem a b < b.
Proof.
  intros Ha Hb. unfold js_rem.
  assert (HN : (0 <= Qnum a * QDen b)%Z).
  { unfold Qle in Ha. cbn in Ha. nia. }
  assert (HD : (0 < Qnum b * QDen a)%Z).
  { unfold Qlt in Hb. cbn in Hb. nia. }
  rewrite Z.quot_div_nonneg by lia.
  set (q := Z.div (Qnum a * QDen b) (Qnum b * QDen a)).
  pose proof (Z.mul_div_le _ _ HD : (_ * q <= _)%Z) as H1.
  pose proof (Z.mul_succ_div_gt (Qnum a * QDen b) _ HD) as H2. fold q in H2.
  destruct a as [na da], b as [nb db]. cbn [Qnum Qden] in *.
  unfold Qle, Qlt, Qminus, Qplus, Qopp, Qmult, inject_Z. cbn [Qnum Qden].
  split; nia.
Qed.

Lemma js_rem_nonpos a b :
  a <= 0 -> 0 < b -> - b < js_rem a b /\ js_rem a b <= 0.
Proof.
  intros Ha Hb. unfold js_rem.
  assert (HN : (0 <= - (Qnum a * QDen b))%Z).
  { unfold Qle in Ha. cbn in Ha. nia. }
  assert (HD : (0 < Qnum b * QDen a)%Z).
  { unfold Qlt in Hb. cbn in Hb. nia. }
  rewrite <- (Z.opp_involutive (Qnum a * QDen b)).
  rewrite Z.quot_opp_l by lia. rewrite Z.quot_div_nonneg by lia.
  set (q := Z.div (- (Qnum a * QDen b)) (Qnum b * QDen a)).
  pose proof (Z.mul_div_le (- (Qnum a * QDen b)) _ HD : (_ * q <= _)%Z) as H1.
  pose proof (Z.mul_succ_div_gt (- (Qnum a * QDen b)) _ HD) as H2. fold q in H2.
  destruct a as [na da], b as [nb db]. cbn [Qnum Qden] in *.
  unfold Qle, Qlt, Qminus, Qplus, Qopp, Qmult, inject_Z. cbn [Qnum Qden].
  split; nia.
Qed.

Lemma js_rem_once a b :
  b <= a -> a < b + b -> 0 < b -> js_rem a b == a - b.
Proof.
  intros Hba Hab Hb. unfold js_rem.
  assert (HD : (0 < Qnum b * QDen a)%Z).
  { unfold Qlt in Hb. cbn in Hb. nia. }
  assert (HN1 : (Qnum b * QDen a <= Qnum a * QDen b)%Z) by exact Hba.
  assert (HN2 : (Qnum a * QDen b < 2 * (Qnum b * QDen a))%Z).
  { unfold Qlt, Qplus in Hab. cbn [Qnum Qden] in Hab. nia. }
  rewrite Z.quot_div_nonneg by lia.
  assert ((Qnum a * QDen b) / (Qnum b * QDen a) = 1)%Z as ->.
  { symmetry. apply (Z.div_unique _ _ 1 (Qnum a * QDen b - Qnum b * QDen a)); lia. }
  change (inject_Z 1) with 1. ring.
Qed.

(** X3: the wrap [(v + size) % size] of a coordinate on a canvas of
    positive size, where the script rounds the sum, which is in the range of
    the doubles, to a double before it takes the remainder.  A coordinate
    that is at most one canvas to the left of 0 comes back into [0, size); a
    coordinate further to the left stays at or to the left of 0, since the
    remainder has the sign of the sum; the result is off the rounded sum by
    a whole number of canvases; and a coordinate inside [0, size) is left as
    it is when the sum is a double without rounding. *)
Theorem wrap_spec E v size :
  0 < size -> Qabs (v + size) <= 2 ^ 1023 -> rounding (double E) ->
  (- size <= v -> 0 <= js_rem (double E (v + size)) size
                  /\ js_rem (double E (v + size)) size < size)
  /\ (v < - size -> - size < js_rem (double E (v + size)) size
                    /\ js_rem (double E (v + size)) size <= 0)
  /\ (exists k : Z,
        js_rem (double E (v + size)) size == double E (v + size) - size * inject_Z k)
  /\ (0 <= v -> v < size -> double E (v + size) == v + size ->
      js_rem (double E (v + size)) size == v).
Proof.
  intros Hs _ Hfl. split; [|split; [|split]].
  - intros Hv. apply js_rem_nonneg; [|exact Hs]. apply (round_nonneg _ Hfl). lra.
  - intros Hv. apply js_rem_nonpos; [|exact Hs].
    rewrite <- (round_0 _ Hfl). apply (round_mono _ Hfl). lra.
  - eexists. unfold js_rem. reflexivity.
  - intros H0 H1 Hc. rewrite js_rem_once; [lra|lra|lra|exact Hs].
Qed.

(** ** Photon.update on a photon that the array does not hold *)

Lemma indexOf_absent r l : r ∉ l -> indexOf r l = (-1)%Z.
Proof.
  intros Hr. unfold indexOf.
  destruct (list_find (fun r' => r' = r) l) as [[i r']|] eqn:Hfind; [|done].
  apply list_find_Some in Hfind as (Hi & -> & _).
  exfalso. apply Hr. eapply list_elem_of_lookup_2. exact Hi.
Qed.

Lemma delete_last {A} (l : list A) : delete (length l - 1)%nat l = removelast l.
Proof.
  induction l as [|a [|b l] IH]; [done|done|].
  change (removelast (a :: b :: l)) with (a :: removelast (b :: l)).
  rewrite <- IH. cbn [length]. replace (S (S (length l)) - 1)%nat with (S (S (length l) - 1)) by lia.
  reflexivity.
Qed.

Lemma splice1_minus_one (l : list nat) : splice1 (-1) l = removelast l.
Proof.
  unfold splice1. cbn [Z.ltb Z.compare]. rewrite <- delete_last. f_equal. lia.
Qed.

Section PhotonEdge.
Variable E : Env.

(** X4: when [update()] runs on a photon that is not in the array and the
    photon comes out expired, [indexOf] gives -1 and [splice(-1, 1)] removes
    the last photon of the array instead; when the photon is not expired the
    array is left alone. *)
Theorem Photon_update_absent r p w :
  ring (portals w) ->
  photon_store w !! r = Some p ->
  r ∉ photons w ->
  exists w' p',
    Photon_update E r w = Some (tt, w')
    /\ photon_store w' !! r = Some p'
    /\ Photon.life p' = (Photon.life p + 1)%Z
    /\ photons w' = if expired w' p' then removelast (photons w) else photons w.
Proof.
  intros Hring Hr Hout.
  destruct (Photon_update_run E r p w Hring Hr) as (pos & n & Hrun). cbv zeta in Hrun.
  assert (Hstore : <[r := moved pos p]> (photon_store w) !! r = Some (moved pos p)).
  { apply list_lookup_insert_eq. by eapply lookup_lt_Some. }
  eexists _, (moved pos p). split; [exact Hrun|].
  rewrite (indexOf_absent r _ Hout), splice1_minus_one.
  assert (Hexp : forall w1, width w1 = width w -> height w1 = height w ->
            expired w1 (moved pos p) = expired w (moved pos p)).
  { intros w1 Hw Hh. unfold expired. by rewrite Hw, Hh. }
  destruct (expired w (moved pos p)) eqn:Hx.
  - split; [exact Hstore|]. split; [reflexivity|].
    rewrite ?Hexp by reflexivity. rewrite ?Hx. reflexivity.
  - split; [exact Hstore|]. split; [reflexivity|].
    rewrite ?Hexp by reflexivity. rewrite ?Hx. reflexivity.
Qed.

End PhotonEdge.

(** ** Reading a finished computation back *)

Lemma deref_inv {A B} (o : option A) (f : A -> M B) w r :
  bind (deref o) f w = Some r -> exists a, o = Some a /\ f a w = Some r.
Proof.
  destruct o as [a|]; [|done]. intros H. by exists a.
Qed.

Lemma forEach_from_post {A B} (arr : World -> list A) (f : nat -> A -> B -> M B)
    (P : nat -> B -> World -> Prop) :
  (forall k a b w b' w', P k b w -> arr w !! k = Some a ->
     f k a b w = Some (b', w') -> P (S k) b' w') ->
  (forall k b w, P k b w -> arr w !! k = None -> P (S k) b w) ->
  forall n k b w b' w', P k b w ->
    forEach_from arr f k n b w = Some (b', w') -> P (k + n)%nat b' w'.
Proof.
  intros Hf Hskip. induction n as [|n IH]; intros k b w b' w' HP Hrun;
    cbn [forEach_from] in Hrun.
  - injection Hrun as <- <-. by rewrite Nat.add_0_r.
  - rewrite Nat.add_succ_r. change (S (k + n)) with (S k + n)%nat.
    destruct (arr w !! k) as [a|] eqn:Ha.
    + apply bind_inv in Hrun as (b1 & w1 & H1 & Hrun).
      eapply IH; [|exact Hrun]. eapply Hf; eauto.
    + eapply IH; [|exact Hrun]. by apply Hskip.
Qed.

Lemma forEach_post {A B} (arr : World -> list A) (f : nat -> A -> B -> M B)
    (P : B -> World -> Prop) b w b' w' :
  (forall k a b w b' w', P b w -> arr w !! k = Some a ->
     f k a b w = Some (b', w') -> P b' w') ->
  P b w -> forEach arr f b w = Some (b', w') -> P b' w'.
Proof.
  intros Hf HP Hrun. unfold forEach in Hrun.
  eapply (forEach_from_post arr f (fun _ => P)); [| |exact HP|exact Hrun].
  - intros k a b0 w0 b1 w1. apply Hf.
  - auto.
Qed.

Lemma times_post (P : nat -> World -> Prop) (body : M unit) :
  (forall i w w', P i w -> body w = Some (tt, w') -> P (S i) w') ->
  forall n i w w', P i w -> times n body w = Some (tt, w') -> P (n + i)%nat w'.
Proof.
  intros Hbody. induction n as [|n IH]; intros i w w' HP Hrun; cbn [times] in Hrun.
  - by injection Hrun as <-.
  - apply bind_inv in Hrun as ([] & w1 & H1 & Hrun).
    replace (S n + i)%nat with (n + S i)%nat by lia.
    eapply IH; [|exact Hrun]. eapply Hbody; eauto.
Qed.

Lemma emit_all_post ops w w' : emit_all ops w = Some (tt, w') -> w' = with_ctx (ctx w ++ ops) w.
Proof. rewrite emit_all_run. by intros [= <-]. Qed.

(** ** What a frame keeps *)

Lemma atom_step_refl a : atom_step a a.
Proof. split; try reflexivity. lia. Qed.

Lemma atom_step_trans a b c : atom_step a b -> atom_step b c -> atom_step a c.
Proof. intros [] []. split; try congruence. lia. Qed.

Lemma photon_step_refl p : photon_step p p.
Proof. split; done. Qed.

Lemma photon_step_trans a b c : photon_step a b -> photon_step b c -> photon_step a c.
Proof. intros [] []. split; try congruence. lia. Qed.

Lemma Forall2_refl_on {A} (R : A -> A -> Prop) (l : list A) :
  (forall a, R a a) -> Forall2 R l l.
Proof. intros HR. induction l; constructor; auto. Qed.

Lemma Forall2_insert_one {A} (R : A -> A -> Prop) (l : list A) i a a' :
  (forall a, R a a) -> l !! i = Some a -> R a a' -> Forall2 R l (<[i := a']> l).
Proof.
  intros HR Hi Ha. rewrite <- (list_insert_id l i a Hi) at 1.
  apply Forall2_insert; [|exact Ha]. by apply Forall2_refl_on.
Qed.

Lemma extends_refl {A} (R : A -> A -> Prop) l : (forall a, R a a) -> extends R l l.
Proof. intros HR. exists l, []. split; [by rewrite app_nil_r|by apply Forall2_refl_on]. Qed.

Lemma extends_trans {A} (R : A -> A -> Prop) l l' l'' :
  (forall a b c, R a b -> R b c -> R a c) ->
  extends R l l' -> extends R l' l'' -> extends R l l''.
Proof.
  intros HR (l1 & l2 & -> & H1) (m1 & m2 & -> & H2).
  apply Forall2_app_inv_l in H2 as (m1a & m1b & Ha & Hb & ->).
  exists m1a, (m1b ++ m2). split; [by rewrite app_assoc|].
  eapply Forall2_trans; [|exact H1|exact Ha]. exact HR.
Qed.

Lemma extends_insert {A} (R : A -> A -> Prop) (l : list A) i a a' :
  (forall a, R a a) -> l !! i = Some a -> R a a' -> extends R l (<[i := a']> l).
Proof.
  intros HR Hi Ha. exists (<[i := a']> l), []. split; [by rewrite app_nil_r|].
  by eapply Forall2_insert_one.
Qed.

Lemma extends_app {A} (R : A -> A -> Prop) (l new : list A) :
  (forall a, R a a) -> extends R l (l ++ new).
Proof. intros HR. exists l, new. split; [done|by apply Forall2_refl_on]. Qed.

Lemma born_back ats ats' h :
  Forall2 atom_step ats ats' -> born ats' h -> born ats h.
Proof.
  intros Hats (a' & Hin & Hty & ->).
  apply list_elem_of_lookup_1 in Hin as [i Hi].
  destruct (Forall2_lookup_r _ _ _ _ _ Hats Hi) as (a & Ha & [Hpos _ _ Htype _]).
  exists a. split; [by eapply list_elem_of_lookup_2|]. split; [congruence|].
  by rewrite Hpos.
Qed.

Lemma steps_refl w : steps w w.
Proof.
  split; try done.
  - apply Forall2_refl_on, atom_step_refl.
  - exists []. by rewrite app_nil_r.
  - apply extends_refl, photon_step_refl.
Qed.

Lemma steps_trans w1 w2 w3 : steps w1 w2 -> steps w2 w3 -> steps w1 w3.
Proof.
  intros [A1 A2 A3 A4 A5 A6 A7] [B1 B2 B3 B4 B5 B6 B7]. split; try congruence.
  - eapply Forall2_trans; [|exact A3|exact B3]. apply atom_step_trans.
  - destruct A6 as (n1 & E1 & Hn1), B6 as (n2 & E2 & Hn2).
    exists (n1 ++ n2). split; [by rewrite E2, E1, app_assoc|].
    apply Forall_app. split; [exact Hn1|].
    eapply Forall_impl; [exact Hn2|]. intros h. by apply born_back.
  - eapply extends_trans; [apply photon_step_trans|exact A7|exact B7].
Qed.

(** A step that touches none of the fields that [steps] reads. *)
Lemma steps_same w w' :
  width w' = width w -> height w' = height w -> atoms w' = atoms w ->
  portals w' = portals w -> length (snakes w') = length (snakes w) ->
  blackHoles w' = blackHoles w -> photon_store w' = photon_store w ->
  steps w w'.
Proof.
  intros H1 H2 H3 H4 H5 H6 H7. split; try done.
  - rewrite H3. apply Forall2_refl_on, atom_step_refl.
  - exists []. by rewrite app_nil_r.
  - rewrite H7. apply extends_refl, photon_step_refl.
Qed.

Section FrameProps.

Variable E : Env.

Lemma target_alive_world s w b w' : target_alive s w = Some (b, w') -> w' = w.
Proof.
  unfold target_alive. destruct (Snake.target s) as [i|].
  - unfold atom_at. intros H. apply deref_bind_inv in H as (a & _ & H).
    by injection H as _ <-.
  - by intros [= _ <-].
Qed.

Lemma seek_world head s alive w s' w' :
  seek E head s alive w = Some (s', w') ->
  w' = w /\ Snake.positions s' = Snake.positions s
  /\ Snake.snakeLength s' = Snake.snakeLength s /\ Snake.angle s' = Snake.angle s.
Proof.
  unfold seek. destruct alive; cbn [negb].
  - by intros [= <- <-].
  - intros H. apply bind_inv in H as (found & w1 & Hloop & H).
    injection H as <- <-. split; [|done].
    revert Hloop. apply (forEach_post atoms _ (fun _ w1 => w1 = w)); [|reflexivity].
    intros k a b w0 b' w0' -> _. cbv zeta.
    destruct (Atom.state a =? 0)%Z; [destruct (below _ _)|]; by intros [= _ <-].
Qed.

Lemma steer_world head s alive w s' w' :
  steer E head s alive w = Some (s', w') ->
  (exists n, w' = with_rnd n w) /\ Snake.positions s' = Snake.positions s
  /\ Snake.snakeLength s' = Snake.snakeLength s /\ Snake.target s' = Snake.target s.
Proof.
  unfold steer. destruct alive.
  - intros H. apply deref_inv in H as (tg & _ & H).
    unfold atom_at in H. apply deref_bind_inv in H as (a & _ & H).
    cbv zeta in H. injection H as <- <-. split; [|done].
    exists (rnd w). by rewrite with_rnd_same.
  - intros [= <- <-]. split; [|done]. by eexists.
Qed.

Lemma suffer_world newHead s w s' w' :
  suffer E newHead s w = Some (s', w') -> w' = w.
Proof.
  unfold suffer.
  apply (forEach_post blackHoles _ (fun _ w1 => w1 = w)); [|reflexivity].
  intros k a b w0 b' w0' -> _. cbv zeta. destruct (Qltb _ _); by intros [= _ <-].
Qed.

Lemma teleport_world newHead w h' w' :
  teleport E newHead w = Some (h', w') -> exists n, w' = with_rnd n w.
Proof.
  unfold teleport.
  apply (forEach_post portals _ (fun _ w1 => exists n, w1 = with_rnd n w)).
  - intros k portal nh w0 nh' w0' [n ->] _. cbv zeta. destruct (Qltb _ _).
    + intros H1. unfold bind at 1 in H1. cbn [next_random] in H1.
      unfold bind at 1 in H1. cbn [next_random] in H1.
      unfold partner_of in H1. apply deref_bind_inv in H1 as (q & _ & H1).
      injection H1 as _ <-. by eexists.
    + intros [= _ <-]. by eexists.
  - exists (rnd w). by rewrite with_rnd_same.
Qed.

Lemma with_rnd_steps n w : steps w (with_rnd n w).
Proof. by apply steps_same. Qed.

Lemma with_clk_steps n w : steps w (with_clk n w).
Proof. by apply steps_same. Qed.

Lemma with_ctx_steps l w : steps w (with_ctx l w).
Proof. by apply steps_same. Qed.

(** [disintegrate] on an atom that is not gone. *)
Lemma Atom_disintegrate_steps i t a w w' :
  atoms w !! i = Some a -> (Atom.state a <= 1)%Z ->
  Atom_disintegrate E i t w = Some (tt, w') -> steps w w'.
Proof.
  intros Hi Hst Hrun.
  destruct (Atom_disintegrate_run E i t a w Hi) as (ps & Hrun' & _).
  rewrite Hrun in Hrun'. injection Hrun' as ->.
  split; cbn [width height atoms portals snakes blackHoles photon_store
              with_blackHoles with_rnd with_photons with_photon_store with_atoms];
    try reflexivity.
  - apply (Forall2_insert_one _ _ _ a); [apply atom_step_refl|exact Hi|].
    split; try reflexivity. cbn [Atom.state disintegrated]. lia.
  - exists (spawned_holes a). split; [reflexivity|].
    unfold spawned_holes. destruct (Atom.type a) eqn:Hty; constructor; [|constructor].
    exists a. split; [by eapply list_elem_of_lookup_2|done].
  - apply extends_app, photon_step_refl.
Qed.

Lemma eat_steps newHead s w s' w' :
  eat E newHead s w = Some (s', w') -> steps w w'.
Proof.
  unfold eat.
  apply (forEach_post atoms _ (fun _ w1 => steps w w1)); [|apply steps_refl].
  intros i atom s0 w0 s1 w1 Hsteps Hi. cbv zeta.
  destruct (Atom.state atom =? 0)%Z eqn:Hst; [|intros [= _ <-]; exact Hsteps].
  destruct (Qltb _ _); [|intros [= _ <-]; exact Hsteps].
  intros H1. unfold bind at 1 in H1. cbn [performance_now] in H1.
  apply bind_inv in H1 as ([] & w2 & Hdis & H1).
  apply deref_inv in H1 as (s2 & _ & H1). injection H1 as _ <-.
  eapply steps_trans; [exact Hsteps|].
  eapply steps_trans; [apply (with_clk_steps (S (clk w0)))|].
  eapply Atom_disintegrate_steps; [exact Hi| |exact Hdis]. lia.
Qed.

(** [update()] of a snake. *)
Lemma Snake_update_steps k w w' :
  Snake_update E k w = Some (tt, w') -> steps w w'.
Proof.
  rewrite Snake_update_phases. intros H.
  unfold snake_at in H. apply deref_bind_inv in H as (s & Hk & H).
  apply deref_inv in H as (head & Hhead & H).
  apply bind_inv in H as (b1 & w1 & Ht1 & H).
  apply target_alive_world in Ht1 as ->.
  apply bind_inv in H as (s1 & w1 & Hseek & H).
  apply seek_world in Hseek as (-> & _).
  apply bind_inv in H as (b2 & w1 & Ht2 & H).
  apply target_alive_world in Ht2 as ->.
  apply bind_inv in H as (s2 & w2 & Hsteer & H).
  apply steer_world in Hsteer as ([n ->] & _).
  apply bind_inv in H as (w0 & w2 & Hget & H). injection Hget as <- <-.
  cbv zeta in H.
  apply bind_inv in H as (s3 & w3 & Heat & H). apply eat_steps in Heat.
  apply bind_inv in H as (s4 & w4 & Hsuf & H). apply suffer_world in Hsuf as ->.
  apply bind_inv in H as (nh & w5 & Htel & H). apply teleport_world in Htel as [m ->].
  unfold settle, set_snake, modify in H. injection H as <-.
  eapply steps_trans; [apply (with_rnd_steps n)|].
  eapply steps_trans; [exact Heat|].
  apply steps_same; try reflexivity.
  cbn [snakes with_snakes with_rnd]. by rewrite length_insert.
Qed.

End FrameProps.

(** ** The background grid *)

Lemma grid_coord_value i : grid_coord i == 50 * inject_Z (Z.of_nat i).
Proof.
  induction i as [|i IH].
  - reflexivity.
  - change (grid_coord (S i)) with (grid_coord i + 50).
    rewrite IH, Nat2Z.inj_succ, <- Z.add_1_r, inject_Z_plus.
    change (inject_Z 1) with 1. ring.
Qed.

(** The grid lines are the multiples of 50 from 0 up to [limit]. *)
Lemma grid_count_spec limit i :
  (i < grid_count limit)%nat <-> grid_coord i <= limit.
Proof.
  rewrite grid_coord_value. unfold grid_count.
  destruct (Qltb limit 0) eqn:Hneg.
  - apply Qltb_true in Hneg. split; [lia|]. intros Hle. exfalso.
    assert (0 <= inject_Z (Z.of_nat i)).
    { change 0 with (inject_Z 0). rewrite <- Zle_Qle. lia. }
    lra.
  - apply Qltb_false in Hneg. unfold grid_fuel.
    pose proof (Qfloor_le (limit / 50)) as Hfl.
    pose proof (Qlt_floor (limit / 50)) as Hfl'.
    assert (Hdiv : limit == 50 * (limit / 50)) by field.
    assert (H0 : (0 <= Qfloor (limit / 50))%Z).
    { change 0%Z with (Qfloor 0). apply Qfloor_resp_le. rewrite Hdiv in Hneg. lra. }
    split.
    + intros Hi. assert (inject_Z (Z.of_nat i) <= inject_Z (Qfloor (limit / 50))).
      { rewrite <- Zle_Qle. lia. }
      rewrite Hdiv. lra.
    + intros Hle. rewrite Hdiv in Hle.
      assert (Hlt : inject_Z (Z.of_nat i) < inject_Z (Qfloor (limit / 50) + 1)) by lra.
      rewrite <- Zlt_Qlt in Hlt. lia.
Qed.

Lemma grid_loop_run limit (line : Q -> list CanvasOp) fuel : forall i w,
  (i <= grid_count limit)%nat -> (grid_count limit - i <= fuel)%nat ->
  grid_loop fuel (grid_coord i) limit (fun v => emit_all (line v)) w
  = Some (tt, with_ctx (ctx w ++ flat_map (fun j => line (grid_coord j))
                                          (seq i (grid_count limit - i))) w).
Proof.
  induction fuel as [|fuel IH]; intros i w Hi Hfuel; cbn [grid_loop].
  - replace (grid_count limit - i)%nat with 0%nat by lia. cbn [seq flat_map].
    by rewrite app_nil_r, with_ctx_same.
  - destruct (decide (i = grid_count limit)) as [->|Hne].
    + assert (Qltb limit (grid_coord (grid_count limit)) = true) as ->.
      { apply Qltb_true. apply Qnot_le_lt. intros Hle.
        apply grid_count_spec in Hle. lia. }
      rewrite Nat.sub_diag. cbn [seq flat_map].
      by rewrite app_nil_r, with_ctx_same.
    + assert (Qltb limit (grid_coord i) = false) as ->.
      { apply Qltb_false. apply grid_count_spec. lia. }
      unfold bind. rewrite emit_all_run.
      change (grid_coord i + 50) with (grid_coord (S i)).
      rewrite IH by (cbn [ctx with_ctx]; lia).
      replace (grid_count limit - i)%nat with (S (grid_count limit - S i)) by lia.
      cbn [seq flat_map ctx with_ctx]. do 2 f_equal.
      unfold with_ctx. cbn [width height atoms snakes photon_store photons blackHoles
                            portals ctx rnd clk].
      by rewrite <- app_assoc.
Qed.

Lemma grid_fuel_count limit : (grid_count limit <= grid_fuel limit)%nat.
Proof. unfold grid_count. destruct (Qltb limit 0); lia. Qed.

(** What [drawBackgroundGrid()] sends to the canvas. *)
Lemma drawBackgroundGrid_run w :
  drawBackgroundGrid w
  = Some (tt, with_ctx
       (ctx w
        ++ [Save; SetStrokeStyle (Lit "rgba(255, 0, 255, 0.2)"); SetLineWidth 1; BeginPath]
        ++ flat_map (fun i => [MoveTo (grid_coord i) 0; LineTo (grid_coord i) (height w)])
                    (seq 0 (grid_count (width w)))
        ++ flat_map (fun i => [MoveTo 0 (grid_coord i); LineTo (width w) (grid_coord i)])
                    (seq 0 (grid_count (height w)))
        ++ [Stroke; Restore]) w).
Proof.
  unfold drawBackgroundGrid. unfold bind at 1. cbn [get].
  unfold bind at 1. rewrite emit_all_run.
  unfold bind at 1.
  rewrite (grid_loop_run (width w)
             (fun gx => [MoveTo gx 0; LineTo gx (height w)]) _ 0%nat)
    by (pose proof (grid_fuel_count (width w)); lia).
  unfold bind at 1.
  rewrite (grid_loop_run (height w)
             (fun gy => [MoveTo 0 gy; LineTo (width w) gy]) _ 0%nat)
    by (pose proof (grid_fuel_count (height w)); lia).
  rewrite emit_all_run. rewrite !Nat.sub_0_r. do 2 f_equal.
  unfold with_ctx. cbn [width height atoms snakes photon_store photons blackHoles
                        portals ctx rnd clk].
  f_equal. by rewrite <- !app_assoc.
Qed.

(** X5: [drawBackgroundGrid()] changes nothing but the canvas.  Between
    [save] and [restore] it sends one vertical line for every multiple of 50
    from 0 up to the width, then one horizontal line for every multiple of
    50 from 0 up to the height, none for a negative side, and strokes them
    once. *)
Theorem drawBackgroundGrid_spec w :
  drawBackgroundGrid w
  = Some (tt, with_ctx
       (ctx w
        ++ [Save; SetStrokeStyle (Lit "rgba(255, 0, 255, 0.2)"); SetLineWidth 1; BeginPath]
        ++ flat_map (fun i => [MoveTo (grid_coord i) 0; LineTo (grid_coord i) (height w)])
                    (seq 0 (grid_count (width w)))
        ++ flat_map (fun i => [MoveTo 0 (grid_coord i); LineTo (width w) (grid_coord i)])
                    (seq 0 (grid_count (height w)))
        ++ [Stroke; Restore]) w)
  /\ (forall i, grid_coord i == 50 * inject_Z (Z.of_nat i))
  /\ (forall limit i, (i < grid_count limit)%nat <-> grid_coord i <= limit).
Proof.
  split; [apply drawBackgroundGrid_run|].
  split; [exact grid_coord_value|exact grid_count_spec].
Qed.

(** ** The pull of a black hole *)

Lemma with_photon_store_twice l l' w :
  with_photon_store l (with_photon_store l' w) = with_photon_store l w.
Proof. reflexivity. Qed.

Lemma pulled_step E h p : photon_step p (pulled E h p).
Proof.
  unfold pulled. cbv zeta. destruct (Qltb _ _); [|apply photon_step_refl].
  split; cbn; try reflexivity; lia.
Qed.

Lemma pull_all_length E h refs store : length (pull_all E h refs store) = length store.
Proof. unfold pull_all. by rewrite length_imap. Qed.

Lemma pull_all_step E h refs store :
  Forall2 photon_step store (pull_all E h refs store).
Proof.
  apply Forall2_same_length_lookup. split; [by rewrite pull_all_length|].
  intros i p p' Hp Hp'. unfold pull_all in Hp'. rewrite list_lookup_imap, Hp in Hp'.
  cbn in Hp'. injection Hp' as <-. destruct (decide _); [apply pulled_step|apply photon_step_refl].
Qed.

Lemma pull_all_snoc E h refs r p store :
  store !! r = Some p -> r ∉ refs ->
  <[r := pulled E h p]> (pull_all E h refs store) = pull_all E h (refs ++ [r]) store.
Proof.
  intros Hr Hnot. apply list_eq. intros i. unfold pull_all.
  destruct (decide (i = r)) as [->|Hne].
  - rewrite list_lookup_insert_eq by (rewrite length_imap; by eapply lookup_lt_Some).
    rewrite list_lookup_imap, Hr. cbn. rewrite decide_True; [done|].
    apply elem_of_app. right. by apply list_elem_of_singleton.
  - rewrite list_lookup_insert_ne by done. rewrite !list_lookup_imap.
    destruct (store !! i) as [q|]; [|done]. cbn. f_equal.
    destruct (decide (i ∈ refs)) as [Hin|Hin].
    + rewrite decide_True; [done|]. apply elem_of_app. by left.
    + rewrite decide_False; [done|]. intros [H|H%list_elem_of_singleton]%elem_of_app; done.
Qed.

Lemma pulled_turn E h p : photon_turn p (pulled E h p).
Proof. unfold pulled. cbv zeta. by destruct (Qltb _ _). Qed.

Section HoleProps.

Variable E : Env.

(** The world after [update()] of a black hole. *)
Lemma BlackHole_update_exact k h w :
  blackHoles w !! k = Some h -> refs_ok w -> NoDup (photons w) ->
  BlackHole_update E k w
  = Some (tt, with_photon_store
                (pull_all E (BlackHole_grow h) (photons w) (photon_store w))
                (with_blackHoles (<[k := BlackHole_grow h]> (blackHoles w)) w)).
Proof.
  intros Hk Hrefs Hnd.
  destruct (BlackHole_update_run E k h w Hk Hrefs) as (w' & Hrun & _).
  rewrite Hrun. do 2 f_equal.
  unfold BlackHole_update, hole_at in Hrun.
  apply deref_bind_inv in Hrun as (h0 & Hk0 & Hrun). rewrite Hk in Hk0.
  injection Hk0 as <-. cbv zeta in Hrun.
  unfold bind at 1, set_hole, modify in Hrun.
  set (w0 := with_blackHoles _ w) in *.
  set (h' := BlackHole_grow h) in *.
  pose (P := fun (i : nat) (_ : unit) (w1 : World) =>
    w1 = with_photon_store (pull_all E h' (take i (photons w)) (photon_store w)) w0).
  assert (HP : P (0 + length (photons w0))%nat tt w').
  { revert Hrun. unfold forEach. apply (forEach_from_post photons _ P).
    - intros i r [] w1 [] w1' -> Hi Hbody. unfold P.
      change (photons (with_photon_store _ w0)) with (photons w) in Hi.
      unfold photon_at in Hbody. apply deref_bind_inv in Hbody as (p & Hp & Hbody).
      cbn [photon_store with_photon_store] in Hp.
      assert (Hnot : r ∉ take i (photons w)).
      { intros [j Hj]%list_elem_of_lookup_1.
        apply lookup_take_Some in Hj as [Hj Hlt].
        assert (j = i) by (eapply NoDup_lookup; eauto). lia. }
      unfold pull_all in Hp. rewrite list_lookup_imap in Hp.
      destruct (photon_store w !! r) as [p0|] eqn:Hp0; [|done]. cbn in Hp.
      rewrite decide_False in Hp by done. injection Hp as <-.
      rewrite (take_S_r _ _ _ Hi), <- (pull_all_snoc E h' _ r p0) by done.
      cbv zeta in Hbody.
      destruct (Qltb _ _) eqn:Hreach.
      + unfold set_photon, modify in Hbody. injection Hbody as <-.
        rewrite with_photon_store_twice. f_equal.
        cbn [photon_store with_photon_store]. f_equal.
        unfold pulled. cbv zeta. by rewrite Hreach.
      + injection Hbody as <-. f_equal. symmetry. apply list_insert_id.
        unfold pull_all at 1. rewrite list_lookup_imap, Hp0. cbn.
        rewrite decide_False by done. unfold pulled. cbv zeta. by rewrite Hreach.
    - intros i [] w1 -> Hi. unfold P.
      change (photons (with_photon_store _ w0)) with (photons w) in Hi.
      apply lookup_ge_None in Hi. by rewrite !take_ge by lia.
    - unfold P. cbn [take]. unfold pull_all.
      rewrite <- (with_photon_store_same w0) at 1. f_equal.
      change (photon_store w0) with (photon_store w).
      apply list_eq. intros i. rewrite list_lookup_imap.
      destruct (photon_store w !! i); [|done]. cbn. rewrite decide_False; [done|].
      apply not_elem_of_nil. }
  unfold P in HP. change (photons w0) with (photons w) in HP.
  by rewrite Nat.add_0_l, firstn_all in HP.
Qed.

(** X6: [update()] of a black hole, on a world where the references in the
    array of photons are distinct and point to objects.  It grows the hole
    and then pulls the photons of the array that are inside the grown
    radius, each of them once; a pull changes the velocity of the photon and
    nothing else.  The photon objects that the array does not hold, the
    other black holes and the rest of the world stay as they are. *)
Theorem BlackHole_update_pulls k h w :
  blackHoles w !! k = Some h -> refs_ok w -> NoDup (photons w) ->
  BlackHole_update E k w
  = Some (tt, with_photon_store
                (pull_all E (BlackHole_grow h) (photons w) (photon_store w))
                (with_blackHoles (<[k := BlackHole_grow h]> (blackHoles w)) w))
  /\ forall p, photon_turn p (pulled E (BlackHole_grow h) p).
Proof.
  intros Hk Hrefs Hnd. split; [by apply BlackHole_update_exact|].
  intros p. apply pulled_turn.
Qed.

End HoleProps.

(** ** The loops of a frame *)

Lemma photon_turn_refl p : photon_turn p p.
Proof. by split. Qed.

Lemma photon_turn_trans a b c : photon_turn a b -> photon_turn b c -> photon_turn a c.
Proof. intros [] []. split; congruence. Qed.

Lemma photon_turn_step p p' : photon_turn p p' -> photon_step p p'.
Proof. intros []. split; try done. lia. Qed.

Lemma pulls_refl w : pulls w w.
Proof. split; try done. apply Forall2_refl_on, photon_turn_refl. Qed.

Lemma pulls_trans w1 w2 w3 : pulls w1 w2 -> pulls w2 w3 -> pulls w1 w3.
Proof.
  intros [A1 A2 A3 A4 A5 A6 A7] [B1 B2 B3 B4 B5 B6 B7]. split; try congruence.
  eapply Forall2_trans; [|exact A7|exact B7]. apply photon_turn_trans.
Qed.

Lemma insert_grown {A} (g : A -> A) (l : list A) k h :
  l !! k = Some h ->
  <[k := g h]> ((g <$> take k l) ++ drop k l) = (g <$> take (S k) l) ++ drop (S k) l.
Proof.
  intros Hk. assert (Hlen : length (g <$> take k l) = k).
  { rewrite length_fmap, length_take. apply lookup_lt_Some in Hk. lia. }
  rewrite insert_app_r_alt by lia. rewrite Hlen, Nat.sub_diag.
  rewrite (drop_S _ _ _ Hk). cbn [insert list_insert].
  rewrite (take_S_r _ _ _ Hk), fmap_app, <- app_assoc. reflexivity.
Qed.

Lemma lookup_grown {A} (g : A -> A) (l : list A) k :
  ((g <$> take k l) ++ drop k l) !! k = l !! k.
Proof.
  destruct (decide (k < length l)%nat) as [Hlt|Hge].
  - rewrite lookup_app_r by (rewrite length_fmap, length_take; lia).
    rewrite length_fmap, length_take, lookup_drop. f_equal. lia.
  - rewrite (lookup_ge_None_2 l) by lia. apply lookup_ge_None_2.
    rewrite length_app, length_fmap, length_take, length_drop. lia.
Qed.

Section LoopProps.

Variable E : Env.

Lemma BlackHole_update_post k w w' :
  BlackHole_update E k w = Some (tt, w') ->
  exists h, blackHoles w !! k = Some h
            /\ blackHoles w' = <[k := BlackHole_grow h]> (blackHoles w)
            /\ pulls w w'.
Proof.
  unfold BlackHole_update, hole_at. intros H.
  apply deref_bind_inv in H as (h & Hk & H). exists h. split; [exact Hk|].
  cbv zeta in H. unfold bind at 1, set_hole, modify in H.
  set (w0 := with_blackHoles _ w) in *.
  assert (HP : pulls w0 w' /\ blackHoles w' = blackHoles w0).
  { revert H. apply (forEach_post photons _
                       (fun _ w1 => pulls w0 w1 /\ blackHoles w1 = blackHoles w0)).
    - intros i r [] w1 [] w2 [Hpl Hh] _ Hbody.
      unfold photon_at in Hbody. apply deref_bind_inv in Hbody as (p & Hp & Hbody).
      cbv zeta in Hbody. destruct (Qltb _ _) eqn:Hreach.
      + unfold set_photon, modify in Hbody. injection Hbody as <-.
        split; [|exact Hh]. eapply pulls_trans; [exact Hpl|].
        split; try reflexivity. cbn [photon_store with_photon_store].
        apply (Forall2_insert_one _ _ _ p); [apply photon_turn_refl|exact Hp|].
        by split.
      + injection Hbody as <-. by split.
    - split; [apply pulls_refl|reflexivity]. }
  destruct HP as [[A1 A2 A3 A4 A5 A6 A7] Hh]. split; [exact Hh|].
  by split.
Qed.

Lemma BlackHole_draw_post k w w' :
  BlackHole_draw E k w = Some (tt, w') -> exists ops, w' = with_ctx ops w.
Proof.
  unfold BlackHole_draw, hole_at. intros H.
  apply deref_bind_inv in H as (h & _ & H). cbv zeta in H.
  apply emit_all_post in H. by eexists.
Qed.

Lemma Snake_draw_post k w w' :
  Snake_draw k w = Some (tt, w') -> exists ops, w' = with_ctx ops w.
Proof.
  unfold Snake_draw, snake_at. intros H.
  apply deref_bind_inv in H as (h & _ & H).
  apply emit_all_post in H. by eexists.
Qed.

Lemma Photon_draw_post r w w' :
  Photon_draw E r w = Some (tt, w') -> exists ops, w' = with_ctx ops w.
Proof.
  unfold Photon_draw, photon_at. intros H.
  apply deref_bind_inv in H as (h & _ & H).
  apply emit_all_post in H. by eexists.
Qed.

Lemma Portal_draw_post p w w' :
  Portal_draw E p w = Some (tt, w') -> exists ops, w' = with_ctx ops w.
Proof. unfold Portal_draw. intros H. apply emit_all_post in H. by eexists. Qed.

Lemma drawBackgroundGrid_post w w' :
  drawBackgroundGrid w = Some (tt, w') -> exists ops, w' = with_ctx ops w.
Proof.
  rewrite drawBackgroundGrid_run. intros [= <-]. by eexists.
Qed.

Lemma with_ctx_pulls ops w : pulls w (with_ctx ops w).
Proof. split; try reflexivity. apply Forall2_refl_on, photon_turn_refl. Qed.

(** The loop of [animate] over the black holes. *)
Lemma holes_pass_post w w' :
  forEach blackHoles (fun k _ _ => BlackHole_update E k ;;; BlackHole_draw E k) tt w
  = Some (tt, w') ->
  pulls w w' /\ blackHoles w' = BlackHole_grow <$> blackHoles w.
Proof.
  intros H.
  pose (P := fun (k : nat) (_ : unit) (w1 : World) =>
    pulls w w1
    /\ blackHoles w1 = (BlackHole_grow <$> take k (blackHoles w)) ++ drop k (blackHoles w)).
  assert (HP : P (0 + length (blackHoles w))%nat tt w').
  { revert H. unfold forEach. apply (forEach_from_post blackHoles _ P).
    - intros k h0 [] w1 [] w2 [Hpl Hh] _ Hbody.
      apply bind_inv in Hbody as ([] & w3 & Hup & Hdraw).
      apply BlackHole_update_post in Hup as (h & Hk & Hh3 & Hpl3).
      apply BlackHole_draw_post in Hdraw as [ops ->].
      split.
      + eapply pulls_trans; [exact Hpl|]. eapply pulls_trans; [exact Hpl3|].
        apply with_ctx_pulls.
      + change (blackHoles (with_ctx ops w3)) with (blackHoles w3).
        rewrite Hh3, Hh. rewrite Hh, lookup_grown in Hk. by apply insert_grown.
    - intros k [] w1 [Hpl Hh] Hk. split; [exact Hpl|].
      rewrite Hh, lookup_grown in Hk. apply lookup_ge_None in Hk.
      rewrite Hh. by rewrite !take_ge, !drop_ge by lia.
    - split; [apply pulls_refl|]. by rewrite take_0, drop_0. }
  destruct HP as [Hpl Hh]. split; [exact Hpl|].
  by rewrite Hh, Nat.add_0_l, firstn_all, drop_all, app_nil_r.
Qed.

Lemma Atom_after_step t a : atom_step a (Atom_after E t a).
Proof.
  unfold Atom_after. destruct (_ && _) eqn:Hc; [|apply atom_step_refl].
  apply andb_prop in Hc as [Hs%Z.eqb_eq _]. split; cbn; try reflexivity. lia.
Qed.

Lemma Atom_draw_steps i t w w' :
  Atom_draw E i t w = Some (tt, w') -> steps w w'.
Proof.
  destruct (atoms w !! i) as [a|] eqn:Hi.
  - rewrite (Atom_draw_run E i t a w Hi). intros [= <-].
    eapply steps_trans; [|apply with_ctx_steps].
    split; cbn [width height atoms portals snakes blackHoles photon_store with_atoms];
      try reflexivity.
    + apply (Forall2_insert_one _ _ _ a); [apply atom_step_refl|exact Hi|].
      apply Atom_after_step.
    + exists []. by rewrite app_nil_r.
    + apply extends_refl, photon_step_refl.
  - unfold Atom_draw, atom_at. intros H. apply deref_bind_inv in H as (a & Ha & _).
    congruence.
Qed.

Lemma Photon_update_steps r w w' :
  Photon_update E r w = Some (tt, w') -> steps w w'.
Proof.
  unfold Photon_update, photon_at. intros H.
  apply deref_bind_inv in H as (p & Hp & H).
  apply bind_inv in H as (pos & w1 & Hloop & H).
  assert (Hw1 : exists n, w1 = with_rnd n w).
  { revert Hloop.
    apply (forEach_post portals _ (fun _ w1 => exists n, w1 = with_rnd n w)).
    - intros k portal nh w0 nh' w0' [n ->] _. cbv zeta.
      destruct (Qltb _ (Portal.radius portal)).
      + intros H1. unfold partner_of in H1. apply deref_bind_inv in H1 as (q & _ & H1).
        unfold bind at 1 in H1. cbn [next_random] in H1.
        unfold bind at 1 in H1. cbn [next_random] in H1.
        injection H1 as _ <-. by eexists.
      + intros [= _ <-]. by eexists.
    - exists (rnd w). by rewrite with_rnd_same. }
  destruct Hw1 as [n ->]. cbv zeta in H.
  unfold bind at 1, set_photon, modify in H.
  unfold bind at 1, get in H.
  assert (Hst : steps w (with_photon_store
     (<[r:=Photon.mk (mkVec2 (x pos + x (Photon.velocity p)) (y pos + y (Photon.velocity p)))
            (mkVec2 (x (Photon.velocity p)) (y (Photon.velocity p) + GRAVITY))
            (Photon.hue p) (Photon.life p + 1)%Z (Photon.maxLife p)
            (Photon.size p) (Photon.type p)]> (photon_store (with_rnd n w)))
     (with_rnd n w))).
  { split; cbn [width height atoms portals snakes blackHoles photon_store
                with_photon_store with_rnd]; try reflexivity.
    - apply Forall2_refl_on, atom_step_refl.
    - exists []. by rewrite app_nil_r.
    - apply (extends_insert _ _ _ p); [apply photon_step_refl|exact Hp|].
      split; cbn; try reflexivity; lia. }
  destruct (_ || _) in H.
  - unfold modify in H. injection H as <-.
    eapply steps_trans; [exact Hst|]. apply steps_same; reflexivity.
  - injection H as <-. exact Hst.
Qed.

Lemma loop_steps {A} (arr : World -> list A) (f : nat -> A -> M unit) w w' :
  (forall k a w w', f k a w = Some (tt, w') -> steps w w') ->
  forEach arr (fun k a _ => f k a) tt w = Some (tt, w') -> steps w w'.
Proof.
  intros Hf.
  apply (forEach_post arr _ (fun _ w1 => steps w w1)); [|apply steps_refl].
  intros k a [] w0 [] w1 Hs _ Hbody. eapply steps_trans; [exact Hs|].
  by eapply Hf.
Qed.

Lemma pulls_steps w w' : pulls w w' -> blackHoles w' = blackHoles w -> steps w w'.
Proof.
  intros [A1 A2 A3 A4 A5 A6 A7] Hh. split; try done.
  - rewrite A3. apply Forall2_refl_on, atom_step_refl.
  - by rewrite A4.
  - exists []. by rewrite app_nil_r.
  - exists (photon_store w'), []. split; [by rewrite app_nil_r|].
    eapply Forall2_impl; [exact A7|]. apply photon_turn_step.
Qed.

(** The part of [animate] after the loop over the black holes. *)
Lemma animate_rest_steps t w w' :
  (forEach atoms (fun i _ _ => Atom_draw E i t) tt ;;;
   forEach snakes (fun k _ _ => Snake_update E k ;;; Snake_draw k) tt ;;;
   forEach photons (fun _ r _ => Photon_update E r ;;; Photon_draw E r) tt ;;;
   forEach portals (fun _ portal _ => Portal_draw E portal) tt) w = Some (tt, w') ->
  steps w w'.
Proof.
  intros H.
  apply bind_inv in H as ([] & w1 & H1 & H).
  apply bind_inv in H as ([] & w2 & H2 & H).
  apply bind_inv in H as ([] & w3 & H3 & H4).
  assert (S1 : steps w w1).
  { revert H1. apply (loop_steps atoms (fun i _ => Atom_draw E i t)).
    intros k _ wa wb. apply Atom_draw_steps. }
  assert (S2 : steps w1 w2).
  { revert H2. apply (loop_steps snakes (fun k _ => Snake_update E k ;;; Snake_draw k)).
    intros k _ wa wb Hb. apply bind_inv in Hb as ([] & wc & Hu & Hd).
    apply Snake_update_steps in Hu. apply Snake_draw_post in Hd as [ops ->].
    eapply steps_trans; [exact Hu|apply with_ctx_steps]. }
  assert (S3 : steps w2 w3).
  { revert H3. apply (loop_steps photons (fun _ r => Photon_update E r ;;; Photon_draw E r)).
    intros k r wa wb Hb. apply bind_inv in Hb as ([] & wc & Hu & Hd).
    apply Photon_update_steps in Hu. apply Photon_draw_post in Hd as [ops ->].
    eapply steps_trans; [exact Hu|apply with_ctx_steps]. }
  assert (S4 : steps w3 w').
  { revert H4. apply (loop_steps portals (fun _ portal => Portal_draw E portal)).
    intros k p wa wb Hb. apply Portal_draw_post in Hb as [ops ->]. apply with_ctx_steps. }
  exact (steps_trans _ _ _ S1 (steps_trans _ _ _ S2 (steps_trans _ _ _ S3 S4))).
Qed.

Lemma animate_post w w' : animate E w = Some (tt, w') -> frame w w'.
Proof.
  unfold animate. intros H.
  unfold bind at 1, get in H.
  apply bind_inv in H as ([] & w1 & H1 & H). apply emit_all_post in H1 as ->.
  apply bind_inv in H as ([] & w2 & H2 & H).
  apply drawBackgroundGrid_post in H2 as [ops ->].
  apply bind_inv in H as ([] & w3 & H3 & H).
  apply holes_pass_post in H3 as [[A1 A2 A3 A4 A5 A6 A7] Hh].
  unfold bind at 1 in H. cbn [performance_now] in H.
  apply animate_rest_steps in H as [B1 B2 B3 B4 B5 B6 B7].
  cbn [width height atoms snakes portals photons photon_store blackHoles
       with_ctx with_clk] in *.
  split; try congruence.
  - destruct B6 as (new & Hn & Hborn). exists new. rewrite Hn, Hh.
    split; [reflexivity|]. by rewrite <- A3.
  - eapply extends_trans; [apply photon_step_trans| |exact B7].
    exists (photon_store w3), []. split; [by rewrite app_nil_r|].
    eapply Forall2_impl; [exact A7|]. apply photon_turn_step.
Qed.

(** X7: a frame leaves the canvas size, the portals and the number of
    snakes as they are.  Of every atom it keeps the position, the hue, the
    radius and the type, and the state does not go back and does not pass 2.
    Every black hole is updated once and stays at its index; the new ones
    come after them, each with radius 0 at the place of a special atom.  No
    photon object is lost: each keeps its hue, size, type and cap, and its
    life does not go back. *)
Theorem animate_frame w :
  Inv w -> exists w', animate E w = Some (tt, w') /\ frame w w'.
Proof.
  intros HInv. destruct (animate_inv E w HInv) as (w' & Hrun & _).
  exists w'. split; [exact Hrun|]. by apply animate_post.
Qed.

End LoopProps.

(** ** The photons between two events *)

Lemma grows_same w w' :
  photon_store w' = photon_store w -> photons w' = photons w -> grows w w'.
Proof.
  intros H1 H2. exists []. rewrite H1, H2. cbn [length seq]. by rewrite !app_nil_r.
Qed.

Lemma grows_trans w1 w2 w3 : grows w1 w2 -> grows w2 w3 -> grows w1 w3.
Proof.
  intros (n1 & S1 & R1 & F1) (n2 & S2 & R2 & F2).
  exists (n1 ++ n2). split; [by rewrite S2, S1, app_assoc|]. split.
  - rewrite R2, R1, S1, <- app_assoc. f_equal.
    rewrite !length_app, seq_app. reflexivity.
  - by apply Forall_app.
Qed.

Lemma photons_ok_same w w' :
  photon_store w' = photon_store w -> photons w' = photons w ->
  photons_ok w -> photons_ok w'.
Proof. intros H1 H2 [A B C]. split; by rewrite ?H1, ?H2. Qed.

Lemma photons_ok_grows w w' : grows w w' -> photons_ok w -> photons_ok w'.
Proof.
  intros (new & HS & HR & HF) [Hnd Hst Hlive]. split.
  - rewrite HR. apply NoDup_app. split; [exact Hnd|]. split; [|apply NoDup_seq].
    intros r Hr Hin. rewrite Forall_forall in Hlive.
    destruct (Hlive r Hr) as (p & Hp & _). apply lookup_lt_Some in Hp.
    apply elem_of_seq in Hin. lia.
  - rewrite HS. apply Forall_app. split; [exact Hst|].
    eapply Forall_impl; [exact HF|]. intros p [-> ->]. split; [reflexivity|lia].
  - rewrite HR, HS. apply Forall_app. split.
    + eapply Forall_impl; [exact Hlive|]. intros r (p & Hp & Hle).
      exists p. split; [|exact Hle]. by apply lookup_app_l_Some.
    + apply Forall_forall. intros r Hin. apply elem_of_seq in Hin.
      destruct (new !! (r - length (photon_store w))%nat) as [p|] eqn:Hp.
      * exists p. split.
        -- rewrite lookup_app_r by lia. exact Hp.
        -- rewrite Forall_forall in HF.
           destruct (HF p (list_elem_of_lookup_2 _ _ _ Hp)) as [-> _]. lia.
      * apply lookup_ge_None in Hp. lia.
Qed.

Lemma photons_ok_pulls w w' : pulls w w' -> photons_ok w -> photons_ok w'.
Proof.
  intros [_ _ _ _ _ HR HS] [Hnd Hst Hlive]. split.
  - by rewrite HR.
  - apply Forall_lookup. intros i p' Hp'.
    destruct (Forall2_lookup_r _ _ _ _ _ HS Hp') as (p & Hp & [_ _ Hl Hm _ _]).
    rewrite Forall_lookup in Hst. destruct (Hst i p Hp) as [Hcap Hlife].
    split; congruence.
  - rewrite HR. eapply Forall_impl; [exact Hlive|]. intros r (p & Hp & Hle).
    destruct (Forall2_lookup_l _ _ _ _ _ HS Hp) as (p' & Hp' & [_ _ Hl _ _ _]).
    exists p'. split; [exact Hp'|congruence].
Qed.

Section PhotonInvariant.

Variable E : Env.

Lemma Atom_disintegrate_grows i t w w' :
  Atom_disintegrate E i t w = Some (tt, w') -> grows w w'.
Proof.
  intros Hrun. unfold Atom_disintegrate, atom_at in Hrun.
  pose proof Hrun as Hrun'. apply deref_bind_inv in Hrun' as (a & Hi & _).
  destruct (Atom_disintegrate_run E i t a w Hi) as (ps & Hrun' & Hlen & Hps).
  fold (atom_at i) in Hrun. fold (Atom_disintegrate E i t) in Hrun.
  rewrite Hrun in Hrun'. injection Hrun' as ->.
  exists ps. cbn [photon_store photons with_blackHoles with_rnd with_photons
                  with_photon_store with_atoms].
  split; [reflexivity|]. split; [by rewrite Hlen|].
  eapply Forall_impl; [exact Hps|]. by intros p (_ & _ & _ & ? & ?).
Qed.

Lemma eat_grows newHead s w s' w' :
  eat E newHead s w = Some (s', w') -> grows w w'.
Proof.
  unfold eat.
  apply (forEach_post atoms _ (fun _ w1 => grows w w1)); [|by apply grows_same].
  intros i atom s0 w0 s1 w1 Hg Hi. cbv zeta.
  destruct (Atom.state atom =? 0)%Z; [|intros [= _ <-]; exact Hg].
  destruct (Qltb _ _); [|intros [= _ <-]; exact Hg].
  intros H1. unfold bind at 1 in H1. cbn [performance_now] in H1.
  apply bind_inv in H1 as ([] & w2 & Hdis & H1).
  apply deref_inv in H1 as (s2 & _ & H1). injection H1 as _ <-.
  eapply grows_trans; [exact Hg|].
  eapply grows_trans; [|eapply Atom_disintegrate_grows; exact Hdis].
  by apply grows_same.
Qed.

Lemma Snake_update_grows k w w' :
  Snake_update E k w = Some (tt, w') -> grows w w'.
Proof.
  rewrite Snake_update_phases. intros H.
  unfold snake_at in H. apply deref_bind_inv in H as (s & Hk & H).
  apply deref_inv in H as (head & Hhead & H).
  apply bind_inv in H as (b1 & w1 & Ht1 & H).
  apply target_alive_world in Ht1 as ->.
  apply bind_inv in H as (s1 & w1 & Hseek & H).
  apply seek_world in Hseek as (-> & _).
  apply bind_inv in H as (b2 & w1 & Ht2 & H).
  apply target_alive_world in Ht2 as ->.
  apply bind_inv in H as (s2 & w2 & Hsteer & H).
  apply (steer_world E) in Hsteer as ([n ->] & _).
  apply bind_inv in H as (w0 & w2 & Hget & H). injection Hget as <- <-.
  cbv zeta in H.
  apply bind_inv in H as (s3 & w3 & Heat & H). apply eat_grows in Heat.
  apply bind_inv in H as (s4 & w4 & Hsuf & H). apply (suffer_world E) in Hsuf as ->.
  apply bind_inv in H as (nh & w5 & Htel & H). apply (teleport_world E) in Htel as [m ->].
  unfold settle, set_snake, modify in H. injection H as <-.
  eapply grows_trans; [|eapply grows_trans; [exact Heat|]]; by apply grows_same.
Qed.

(** [update()] of a photon: the object moves from where the portals leave
    it, and its reference leaves the array when it has expired. *)
Lemma Photon_update_post r w w' :
  Photon_update E r w = Some (tt, w') ->
  exists p pos n,
    photon_store w !! r = Some p
    /\ w' = (if expired w (moved pos p)
             then with_photons (splice1 (indexOf r (photons w)) (photons w))
             else id)
              (with_photon_store (<[r := moved pos p]> (photon_store w)) (with_rnd n w)).
Proof.
  unfold Photon_update, photon_at. intros H.
  apply deref_bind_inv in H as (p & Hp & H).
  apply bind_inv in H as (pos & w1 & Hloop & H).
  assert (Hw1 : exists n, w1 = with_rnd n w).
  { revert Hloop.
    apply (forEach_post portals _ (fun _ w1 => exists n, w1 = with_rnd n w)).
    - intros k portal nh w0 nh' w0' [n ->] _. cbv zeta.
      destruct (Qltb _ (Portal.radius portal)).
      + intros H1. unfold partner_of in H1. apply deref_bind_inv in H1 as (q & _ & H1).
        unfold bind at 1 in H1. cbn [next_random] in H1.
        unfold bind at 1 in H1. cbn [next_random] in H1.
        injection H1 as _ <-. by eexists.
      + intros [= _ <-]. by eexists.
    - exists (rnd w). by rewrite with_rnd_same. }
  destruct Hw1 as [n ->]. cbv zeta in H.
  unfold bind at 1, set_photon, modify in H.
  unfold bind at 1, get in H.
  exists p, pos, n. split; [exact Hp|].
  change (expired w (moved pos p)) with
    ((Photon.maxLife p <? Photon.life p + 1)%Z
     || Qltb (x pos + x (Photon.velocity p)) 0
     || Qltb (width w) (x pos + x (Photon.velocity p))
     || Qltb (y pos + y (Photon.velocity p)) 0
     || Qltb (height w) (y pos + y (Photon.velocity p))).
  cbn [x y width height with_photon_store with_rnd] in H.
  destruct (_ || _).
  - unfold modify in H. by injection H as <-.
  - by injection H as <-.
Qed.

Lemma Photon_update_ok k r w w' :
  photons w !! k = Some r -> photons_ok w ->
  Photon_update E r w = Some (tt, w') -> photons_ok w'.
Proof.
  intros Hk [Hnd Hst Hlive] Hrun.
  apply Photon_update_post in Hrun as (p & pos & n & Hp & ->).
  assert (Hin : r ∈ photons w) by (by eapply list_elem_of_lookup_2).
  assert (Hcap : Photon.maxLife p = 100%Z /\ (0 <= Photon.life p)%Z).
  { rewrite Forall_lookup in Hst. by eapply Hst. }
  set (l' := if expired w (moved pos p)
             then splice1 (indexOf r (photons w)) (photons w) else photons w).
  assert (Hsub : l' `sublist_of` photons w).
  { unfold l'. destruct (expired _ _); [apply splice1_sublist|done]. }
  assert (Hr : r ∈ l' -> (Photon.life p + 1 <= 100)%Z).
  { unfold l'. destruct (expired w (moved pos p)) eqn:Hex.
    - intros Hr. by destruct (splice1_indexOf r (photons w) Hnd Hin) as [Hnot _].
    - intros _. unfold expired in Hex. cbn [Photon.maxLife Photon.life moved] in Hex.
      destruct (Photon.maxLife p <? Photon.life p + 1)%Z eqn:Hlt; [done|].
      apply Z.ltb_ge in Hlt. lia. }
  assert (Hw' : photons ((if expired w (moved pos p)
             then with_photons (splice1 (indexOf r (photons w)) (photons w))
             else id)
              (with_photon_store (<[r := moved pos p]> (photon_store w)) (with_rnd n w)))
             = l'
          /\ photon_store ((if expired w (moved pos p)
             then with_photons (splice1 (indexOf r (photons w)) (photons w))
             else id)
              (with_photon_store (<[r := moved pos p]> (photon_store w)) (with_rnd n w)))
             = <[r := moved pos p]> (photon_store w)).
  { unfold l'. by destruct (expired _ _). }
  destruct Hw' as [HR HS]. split.
  - rewrite HR. by eapply sublist_NoDup.
  - rewrite HS. apply Forall_insert; [exact Hst|].
    cbn [Photon.maxLife Photon.life moved]. split; [tauto|lia].
  - rewrite HR, HS. apply Forall_forall. intros r' Hr'.
    destruct (decide (r' = r)) as [->|Hne].
    + exists (moved pos p). split.
      * apply list_lookup_insert_eq. by eapply lookup_lt_Some.
      * cbn [Photon.life moved]. by apply Hr.
    + rewrite Forall_forall in Hlive.
      destruct (Hlive r') as (p' & Hp' & Hle); [by eapply elem_of_sublist|].
      exists p'. split; [|exact Hle]. by rewrite list_lookup_insert_ne.
Qed.

Lemma ctx_ok w ops : photons_ok w -> photons_ok (with_ctx ops w).
Proof. by apply photons_ok_same. Qed.

(** A frame keeps the photons in order. *)
Lemma animate_photons_ok w w' :
  photons_ok w -> animate E w = Some (tt, w') -> photons_ok w'.
Proof.
  unfold animate. intros Hok H.
  unfold bind at 1, get in H.
  apply bind_inv in H as ([] & w1 & H1 & H). apply emit_all_post in H1 as ->.
  apply bind_inv in H as ([] & w2 & H2 & H).
  apply drawBackgroundGrid_post in H2 as [ops ->].
  apply bind_inv in H as ([] & w3 & H3 & H).
  apply holes_pass_post in H3 as [Hpl _].
  assert (Hok3 : photons_ok w3).
  { apply (photons_ok_pulls _ _ Hpl). do 2 apply ctx_ok. exact Hok. }
  unfold bind at 1 in H. cbn [performance_now] in H.
  apply bind_inv in H as ([] & w4 & H4 & H).
  apply bind_inv in H as ([] & w5 & H5 & H).
  apply bind_inv in H as ([] & w6 & H6 & H7).
  assert (Hok4 : photons_ok w4).
  { revert H4. apply (forEach_post atoms _ (fun _ w1 => photons_ok w1)).
    - intros i a [] wa [] wb Ha Hi. rewrite (Atom_draw_run E _ _ _ _ Hi).
      intros [= <-]. revert Ha. by apply photons_ok_same.
    - revert Hok3. by apply photons_ok_same. }
  assert (Hok5 : photons_ok w5).
  { revert H5. apply (forEach_post snakes _ (fun _ w1 => photons_ok w1)); [|exact Hok4].
    intros i _ [] wa [] wb Ha _ Hb. apply bind_inv in Hb as ([] & wc & Hu & Hd).
    apply Snake_update_grows in Hu. apply Snake_draw_post in Hd as [ops' ->].
    apply ctx_ok. by eapply photons_ok_grows. }
  assert (Hok6 : photons_ok w6).
  { revert H6. apply (forEach_post photons _ (fun _ w1 => photons_ok w1)); [|exact Hok5].
    intros i r [] wa [] wb Ha Hi Hb. apply bind_inv in Hb as ([] & wc & Hu & Hd).
    apply Photon_draw_post in Hd as [ops' ->]. apply ctx_ok.
    by eapply Photon_update_ok. }
  revert H7. apply (forEach_post portals _ (fun _ w1 => photons_ok w1)); [|exact Hok6].
  intros i p [] wa [] wb Ha _ Hb. apply Portal_draw_post in Hb as [ops' ->].
  by apply ctx_ok.
Qed.

End PhotonInvariant.

(** ** The run, from [init] on *)

Lemma hole_of_forth ats ats' h :
  Forall2 atom_step ats ats' -> hole_of ats h -> hole_of ats' h.
Proof.
  intros Hats (a & n & Hin & Hty & ->).
  apply list_elem_of_lookup_1 in Hin as [i Hi].
  destruct (Forall2_lookup_l _ _ _ _ _ Hats Hi) as (a' & Ha' & [Hpos _ _ Htype _]).
  exists a', n. split; [by eapply list_elem_of_lookup_2|]. split; [congruence|].
  by rewrite Hpos.
Qed.

Lemma hole_of_grow ats h : hole_of ats h -> hole_of ats (BlackHole_grow h).
Proof. intros (a & n & Hin & Hty & ->). by exists a, (S n). Qed.

Lemma hole_of_born ats h : born ats h -> hole_of ats h.
Proof. intros (a & Hin & Hty & ->). by exists a, 0%nat. Qed.

Section RunShape.

Variable E : Env.

(** [new Snake()] takes four random numbers: hue, start and angle. *)
Lemma Snake_new_run w :
  Snake_new E w
  = Some (Snake.mk (180 + random E (rnd w) * 60) (Hsl (180 + random E (rnd w) * 60))
            (replicate (Z.to_nat SNAKE_LENGTH)
               (mkVec2 (random E (S (rnd w)) * width w)
                       (random E (S (S (rnd w))) * height w)))
            SNAKE_LENGTH (random E (S (S (S (rnd w)))) * TWO_PI E) None,
          with_rnd (4 + rnd w) w).
Proof. reflexivity. Qed.

Lemma make_atom_run w :
  (w <- get ;;
   r1 <- next_random E ;;
   r2 <- next_random E ;;
   a <- Atom_new E (r1 * width w) (r2 * height w) ;;
   modify (fun w => with_atoms (atoms w ++ [a]) w)) w
  = Some (tt, with_atoms
      (atoms w ++ [Atom.mk (mkVec2 (random E (rnd w) * width w)
                                   (random E (S (rnd w)) * height w)) 0%Z 0
                           (270 + random E (S (S (rnd w))) * 60) 10
                           (if Qltb (random E (S (S (S (rnd w))))) 0.5
                            then normal else special)])
      (with_rnd (4 + rnd w) w)).
Proof. reflexivity. Qed.

Lemma make_portal_run w :
  (w <- get ;;
   r1 <- next_random E ;;
   r2 <- next_random E ;;
   modify (fun w' => with_portals (portals w' ++ [Portal_new (r1 * width w) (r2 * height w)]) w')) w
  = Some (tt, with_portals
      (portals w ++ [Portal_new (random E (rnd w) * width w)
                                (random E (S (rnd w)) * height w)])
      (with_rnd (2 + rnd w) w)).
Proof. reflexivity. Qed.

(** The world after the first six statements of [init]. *)
Lemma init_reset iw ih :
  with_portals [] (with_blackHoles [] (with_photons [] (with_snakes []
    (with_atoms [] (with_size iw ih empty_world)))))
  = mkWorld iw ih [] [] [] [] [] [] [] 0 0.
Proof. vm_compute. reflexivity. Qed.

Lemma seq_snoc_fmap {A} (f : nat -> A) n : f <$> seq 0 (S n) = (f <$> seq 0 n) ++ [f n].
Proof. by rewrite seq_S, fmap_app. Qed.

Lemma atoms_made iw ih n : forall i w w',
  made E iw ih i 0 0 w ->
  times n
     (w <- get ;;
      r1 <- next_random E ;;
      r2 <- next_random E ;;
      a <- Atom_new E (r1 * width w) (r2 * height w) ;;
      modify (fun w => with_atoms (atoms w ++ [a]) w)) w = Some (tt, w') ->
  made E iw ih (n + i) 0 0 w'.
Proof.
  apply (times_post (fun i w => made E iw ih i 0 0 w)).
  intros i wa wb [A1 A2 A3 A4 A5 A6 A7 A8 A9]. rewrite make_atom_run. intros [= <-].
  split; cbn [width height atoms snakes portals rnd photons photon_store blackHoles
              with_atoms with_rnd]; try assumption.
  - rewrite seq_snoc_fmap, A3, A6, A1, A2. do 3 f_equal. unfold atom_made.
    replace (4 * i + 4 * 0 + 2 * 0)%nat with (4 * i)%nat by lia.
    replace (S (S (S (4 * i)))) with (4 * i + 3)%nat by lia.
    replace (S (S (4 * i))) with (4 * i + 2)%nat by lia.
    replace (S (4 * i)) with (4 * i + 1)%nat by lia.
    reflexivity.
  - rewrite A6. lia.
Qed.

Lemma snakes_made iw ih na n : forall i w w',
  made E iw ih na i 0 w ->
  times n
     (s <- Snake_new E ;;
      modify (fun w => with_snakes (snakes w ++ [s]) w)) w = Some (tt, w') ->
  made E iw ih na (n + i) 0 w'.
Proof.
  apply (times_post (fun i w => made E iw ih na i 0 w)).
  intros i wa wb [A1 A2 A3 A4 A5 A6 A7 A8 A9] Hb.
  apply bind_inv in Hb as (s & wc & Hs & Hb).
  rewrite Snake_new_run in Hs. injection Hs as _ <-.
  unfold modify in Hb. injection Hb as <-.
  split; cbn [width height atoms snakes portals rnd photons photon_store blackHoles
              with_snakes with_rnd]; try assumption.
  - rewrite length_app, A4. cbn. lia.
  - rewrite A6. lia.
Qed.

Lemma portals_made iw ih n : forall i w w',
  made E iw ih NUM_ATOMS NUM_SNAKES i w ->
  times n
     (w <- get ;;
      r1 <- next_random E ;;
      r2 <- next_random E ;;
      modify (fun w' => with_portals (portals w' ++ [Portal_new (r1 * width w) (r2 * height w)]) w'))
    w = Some (tt, w') ->
  made E iw ih NUM_ATOMS NUM_SNAKES (n + i) w'.
Proof.
  apply (times_post (fun i w => made E iw ih NUM_ATOMS NUM_SNAKES i w)).
  intros i wa wb [A1 A2 A3 A4 A5 A6 A7 A8 A9]. rewrite make_portal_run. intros [= <-].
  split; cbn [width height atoms snakes portals rnd photons photon_store blackHoles
              with_portals with_rnd]; try assumption.
  - rewrite seq_snoc_fmap, A5, A6, A1, A2. do 3 f_equal. unfold portal_raw.
    replace (S (4 * NUM_ATOMS + 4 * NUM_SNAKES + 2 * i))
      with (4 * NUM_ATOMS + 4 * NUM_SNAKES + 2 * i + 1)%nat by lia.
    reflexivity.
  - rewrite A6. lia.
Qed.

(** [init] up to the call of [animate]. *)
Lemma init_post iw ih w :
  init E iw ih empty_world = Some (tt, w) ->
  exists w0, made E iw ih NUM_ATOMS NUM_SNAKES NUM_PORTALS w0
    /\ animate E (with_portals (portal_made E iw ih <$> seq 0 NUM_PORTALS) w0)
       = Some (tt, w).
Proof.
  unfold init.
  intros H.
  apply bind_inv in H as ([] & v1 & H1 & H). injection H1 as <-.
  apply bind_inv in H as ([] & v2 & H1 & H). injection H1 as <-.
  apply bind_inv in H as ([] & v3 & H1 & H). injection H1 as <-.
  apply bind_inv in H as ([] & v4 & H1 & H). injection H1 as <-.
  apply bind_inv in H as ([] & v5 & H1 & H). injection H1 as <-.
  apply bind_inv in H as ([] & v6 & H1 & H). injection H1 as <-.
  rewrite init_reset in H.
  apply bind_inv in H as ([] & w1 & H1 & H).
  apply bind_inv in H as ([] & w2 & H2 & H).
  apply bind_inv in H as ([] & w3 & H3 & H).
  apply bind_inv in H as (w3' & w3'' & Hget & H). injection Hget as <- <-.
  apply deref_inv in H as (ps & Hps & H).
  apply bind_inv in H as ([] & w4 & H4 & H). injection H4 as <-.
  apply atoms_made with (iw := iw) (ih := ih) (i := 0%nat) in H1; [|split; reflexivity].
  rewrite Nat.add_0_r in H1.
  apply snakes_made with (iw := iw) (ih := ih) (na := NUM_ATOMS) (i := 0%nat) in H2;
    [|exact H1].
  rewrite Nat.add_0_r in H2.
  apply portals_made with (iw := iw) (ih := ih) (i := 0%nat) in H3; [|exact H2].
  rewrite Nat.add_0_r in H3. exists w3. split; [exact H3|].
  rewrite <- H. do 2 f_equal. symmetry.
  destruct H3 as [_ _ _ _ A5 _ _ _ _].
  destruct (assign_partners_from (length (portals w3)) 0 (portals w3) eq_refl)
    as (ps' & Hps' & Hlen & Hlook).
  rewrite Hps in Hps'. injection Hps' as <-.
  apply list_eq. intros j.
  destruct (portals w3 !! j) as [p|] eqn:Hj.
  - rewrite (Hlook j p Hj). rewrite decide_True by lia.
    rewrite A5 in Hj. rewrite A5, length_fmap, length_seq.
    rewrite list_lookup_fmap in Hj |- *.
    destruct (seq 0 NUM_PORTALS !! j) as [j'|] eqn:Hseq; [|done].
    apply lookup_seq in Hseq as [-> _]. cbn in Hj. injection Hj as <-. reflexivity.
  - rewrite (lookup_ge_None_2 ps) by (apply lookup_ge_None in Hj; lia).
    symmetry. apply lookup_ge_None_2. apply lookup_ge_None in Hj.
    rewrite A5 in Hj. by rewrite length_fmap in *.
Qed.

Lemma made_settled iw ih w0 :
  made E iw ih NUM_ATOMS NUM_SNAKES NUM_PORTALS w0 ->
  settled E iw ih (with_portals (portal_made E iw ih <$> seq 0 NUM_PORTALS) w0).
Proof.
  intros [A1 A2 A3 A4 A5 A6 A7 A8 A9].
  split; cbn [atoms portals photons photon_store blackHoles with_portals].
  - rewrite A3. apply Forall2_refl_on, atom_step_refl.
  - reflexivity.
  - split; cbn [photons photon_store with_portals]; rewrite ?A7, ?A8; constructor.
  - rewrite A9. constructor.
Qed.

Lemma animate_settled iw ih w w' :
  settled E iw ih w -> animate E w = Some (tt, w') -> settled E iw ih w'.
Proof.
  intros [S1 S2 S3 S4] Hrun.
  pose proof (animate_post E _ _ Hrun) as [F1 F2 F3 F4 F5 (new & F6 & Hnew) F7].
  split.
  - eapply Forall2_trans; [|exact S1|exact F5]. apply atom_step_trans.
  - by rewrite F3.
  - by eapply animate_photons_ok.
  - rewrite F6. apply Forall_app. split.
    + apply Forall_fmap. eapply Forall_impl; [exact S4|]. intros h Hh. cbn.
      apply (hole_of_forth _ _ _ F5). by apply hole_of_grow.
    + eapply Forall_impl; [exact Hnew|]. intros h Hh.
      apply (hole_of_forth _ _ _ F5). by apply hole_of_born.
Qed.

Lemma settled_same iw ih w w' :
  atoms w' = atoms w -> portals w' = portals w -> photons w' = photons w ->
  photon_store w' = photon_store w -> blackHoles w' = blackHoles w ->
  settled E iw ih w -> settled E iw ih w'.
Proof.
  intros H1 H2 H3 H4 H5 [S1 S2 S3 S4]. split.
  - by rewrite H1.
  - by rewrite H2.
  - revert S3. by apply photons_ok_same.
  - by rewrite H1, H5.
Qed.

Lemma handle_post iw ih ev w w' :
  settled E iw ih w -> handle E ev w = Some (tt, w') ->
  settled E iw ih w'
  /\ length (snakes w') = (length (snakes w) + clicks [ev])%nat
  /\ (width w', height w') = size_after (width w) (height w) [ev].
Proof.
  intros Hs. destruct ev as [|cx cy|rw rh]; cbn [handle clicks size_after].
  - intros Hrun. split; [by eapply animate_settled|].
    apply animate_post in Hrun as [F1 F2 _ F4 _ _ _].
    rewrite F1, F2, F4. split; [lia|reflexivity].
  - unfold addSnakeAt. intros Hrun.
    apply bind_inv in Hrun as (s & w1 & Hnew & Hrun).
    rewrite Snake_new_run in Hnew. injection Hnew as _ <-.
    cbv zeta in Hrun. unfold modify in Hrun. injection Hrun as <-.
    split; [revert Hs; by apply settled_same|].
    cbn [snakes width height with_snakes with_rnd]. rewrite length_app.
    split; reflexivity.
  - unfold resizeCanvas, modify. intros [= <-].
    split; [revert Hs; by apply settled_same|].
    cbn [snakes width height with_size]. split; [lia|reflexivity].
Qed.

Lemma handle_all_post iw ih evs : forall w w',
  settled E iw ih w -> handle_all E evs w = Some (tt, w') ->
  settled E iw ih w'
  /\ length (snakes w') = (length (snakes w) + clicks evs)%nat
  /\ (width w', height w') = size_after (width w) (height w) evs.
Proof.
  induction evs as [|ev evs IH]; intros w w' Hs Hrun; cbn [handle_all] in Hrun.
  - injection Hrun as <-. cbn [clicks size_after]. split; [exact Hs|].
    split; [lia|reflexivity].
  - apply bind_inv in Hrun as ([] & w1 & H1 & Hrun).
    destruct (handle_post iw ih ev w w1 Hs H1) as (Hs1 & Hn1 & Hz1).
    destruct (IH w1 w' Hs1 Hrun) as (Hs' & Hn' & Hz').
    split; [exact Hs'|]. rewrite Hn', Hn1, Hz'.
    destruct ev; cbn [clicks size_after] in *; injection Hz1 as -> ->;
      split; first [lia|reflexivity].
Qed.

(** The script runs to the end, and these hold of the world it leaves. *)
Lemma run_settled iw ih evs :
  exists w, run E iw ih evs = Some w
    /\ Inv w /\ settled E iw ih w
    /\ length (snakes w) = (NUM_SNAKES + clicks evs)%nat
    /\ (width w, height w) = size_after iw ih evs.
Proof.
  destruct (init_inv E iw ih) as (w0 & Hinit & HInv0).
  destruct (handle_all_inv E evs w0 HInv0) as (w & Hrun & HInv).
  exists w. split; [|split; [exact HInv|]].
  - unfold run. rewrite (bind_Some _ _ _ _ _ Hinit), Hrun. reflexivity.
  - destruct (init_post iw ih w0 Hinit) as (v & Hmade & Hanim).
    pose proof (made_settled _ _ _ Hmade) as Hs.
    pose proof (animate_settled _ _ _ _ Hs Hanim) as Hs0.
    destruct (handle_all_post iw ih evs w0 w Hs0 Hrun) as (Hs' & Hn & Hz).
    split; [exact Hs'|].
    apply animate_post in Hanim as [F1 F2 _ F4 _ _ _].
    cbn [width height snakes with_portals] in F1, F2, F4.
    destruct Hmade as [A1 A2 _ A4 _ _ _ _ _].
    rewrite Hn, Hz, F1, F2, F4, A1, A2, A4. split; reflexivity.
Qed.

(** X8: after [init] and any events the script has its 75 atoms, and
    each of them is the atom that [init] made at its index: the position
    from the window size at the start and the random numbers 4i and 4i + 1,
    the hue from the random number 4i + 2, the radius 10, the type from the
    random number 4i + 3.  Only the state and the start time change, and the
    state is 0, 1 or 2. *)
Theorem run_atoms iw ih evs :
  exists w, run E iw ih evs = Some w
    /\ length (atoms w) = NUM_ATOMS
    /\ forall i a, atoms w !! i = Some a ->
         Atom.position a = mkVec2 (random E (4 * i) * iw) (random E (4 * i + 1) * ih)
         /\ Atom.hue a = 270 + random E (4 * i + 2) * 60
         /\ Atom.radius a = 10
         /\ Atom.type a = (if Qltb (random E (4 * i + 3)) 0.5 then normal else special)
         /\ (0 <= Atom.state a <= 2)%Z.
Proof.
  destruct (run_settled iw ih evs) as (w & Hrun & _ & [Hat _ _ _] & _).
  exists w. split; [exact Hrun|].
  pose proof (Forall2_length _ _ _ Hat) as Hlen.
  rewrite length_fmap, length_seq in Hlen. split; [by symmetry|].
  intros i a Hi.
  destruct (Forall2_lookup_r _ _ _ _ _ Hat Hi) as (a0 & Ha0 & [H1 H2 H3 H4 H5]).
  rewrite list_lookup_fmap in Ha0.
  destruct (seq 0 NUM_ATOMS !! i) as [i'|] eqn:Hseq; [|done].
  apply lookup_seq in Hseq as [-> _]. cbn in Ha0. injection Ha0 as <-.
  cbn [atom_made Atom.position Atom.hue Atom.radius Atom.type Atom.state] in *.
  repeat split; try assumption; lia.
Qed.

(** X9: after [init] and any events the three portals are the ones that
    [init] made: portal j at the place given by the window size at the start
    and the random numbers 320 + 2j and 321 + 2j, with radius 20 and with
    portal (j + 1) mod 3 as its partner.  No event changes them. *)
Theorem run_portals iw ih evs :
  exists w, run E iw ih evs = Some w
    /\ portals w = portal_made E iw ih <$> seq 0 NUM_PORTALS.
Proof.
  destruct (run_settled iw ih evs) as (w & Hrun & _ & [_ Hpo _ _] & _).
  exists w. split; [exact Hrun|exact Hpo].
Qed.

(** X10: the number of snakes is 5 plus the number of clicks, whatever the
    frames did in between, and the canvas has the size of the last resize
    (that of the window at the start when there was none). *)
Theorem run_census iw ih evs :
  exists w, run E iw ih evs = Some w
    /\ length (snakes w) = (NUM_SNAKES + clicks evs)%nat
    /\ (width w, height w) = size_after iw ih evs.
Proof.
  destruct (run_settled iw ih evs) as (w & Hrun & _ & _ & Hn & Hz).
  exists w. split; [exact Hrun|]. split; [exact Hn|exact Hz].
Qed.

(** X11: after [init] and any events no photon is twice in the array, every
    photon object has the cap 100 and a life that is not negative, and every
    photon in the array has a life of at most 100: a photon whose life
    passes the cap leaves the array in the same [update()]. *)
Theorem run_photons iw ih evs :
  exists w, run E iw ih evs = Some w /\ photons_ok w.
Proof.
  destruct (run_settled iw ih evs) as (w & Hrun & _ & [_ _ Hph _] & _).
  exists w. split; [exact Hrun|exact Hph].
Qed.

(** X12: after [init] and any events every black hole has the cap 50 and
    the growth rate 0.5, a radius between 0 and 50, and the position of a
    special atom. *)
Theorem run_holes iw ih evs :
  exists w, run E iw ih evs = Some w
    /\ Forall (fun h =>
         BlackHole.maxRadius h = 50 /\ BlackHole.growthRate h = 0.5
         /\ 0 <= BlackHole.radius h /\ BlackHole.radius h <= 50
         /\ exists a, a ∈ atoms w /\ Atom.type a = special
                      /\ Atom.position a = BlackHole.position h) (blackHoles w).
Proof.
  destruct (run_settled iw ih evs) as (w & Hrun & _ & [_ _ _ Hh] & _).
  exists w. split; [exact Hrun|].
  eapply Forall_impl; [exact Hh|]. intros h (a & n & Hin & Hty & ->).
  destruct (hole_after_shape (x (Atom.position a)) (y (Atom.position a)) n)
    as (r & m & -> & Hm & Hr).
  cbn [BlackHole.maxRadius BlackHole.growthRate BlackHole.radius BlackHole.position].
  assert (H0 : 0 <= inject_Z m) by (change 0 with (inject_Z 0); rewrite <- Zle_Qle; lia).
  assert (H1 : inject_Z m <= 100)
    by (change 100 with (inject_Z 100); rewrite <- Zle_Qle; lia).
  split; [reflexivity|]. split; [reflexivity|].
  split; [rewrite Hr; lra|]. split; [rewrite Hr; lra|].
  exists a. split; [exact Hin|]. split; [exact Hty|]. by destruct (Atom.position a).
Qed.

End RunShape.

(** ** Loops that run to their end; the portals *)

(** A loop that runs to its end, with what holds after each round. *)
Lemma forEach_from_run {A B} (arr : World -> list A) (f : nat -> A -> B -> M B)
    (P : nat -> B -> World -> Prop) :
  (forall k a b w, P k b w -> arr w !! k = Some a ->
     exists b' w', f k a b w = Some (b', w') /\ P (S k) b' w') ->
  (forall k b w, P k b w -> arr w !! k = None -> P (S k) b w) ->
  forall n k b w, P k b w ->
    exists b' w', forEach_from arr f k n b w = Some (b', w') /\ P (k + n)%nat b' w'.
Proof.
  intros Hf Hskip. induction n as [|n IH]; intros k b w HP; cbn [forEach_from].
  - exists b, w. by rewrite Nat.add_0_r.
  - rewrite Nat.add_succ_r. change (S (k + n)) with (S k + n)%nat.
    destruct (arr w !! k) as [a|] eqn:Ha.
    + destruct (Hf k a b w HP Ha) as (b1 & w1 & H1 & HP1).
      rewrite (bind_Some _ _ _ _ _ H1). by apply IH.
    + apply IH. by apply Hskip.
Qed.

Lemma forEach_run {A B} (arr : World -> list A) (f : nat -> A -> B -> M B)
    (P : nat -> B -> World -> Prop) b w :
  (forall k a b w, P k b w -> arr w !! k = Some a ->
     exists b' w', f k a b w = Some (b', w') /\ P (S k) b' w') ->
  (forall k b w, P k b w -> arr w !! k = None -> P (S k) b w) ->
  P 0%nat b w ->
  exists b' w', forEach arr f b w = Some (b', w') /\ P (length (arr w)) b' w'.
Proof. intros Hf Hskip HP. unfold forEach. by apply (forEach_from_run arr f P Hf Hskip). Qed.

(** [Photon.update] is the loop over the portals, then the move and the
    test for the end of the photon. *)
Lemma Photon_update_phases (E : Env) (r : nat) :
  Photon_update E r
  = (p <- photon_at r ;;
     pos <- warp E (Photon.position p) ;;
     let vel := Photon.velocity p in
     let pos := mkVec2 (x pos + x vel) (y pos + y vel) in
     let vel := mkVec2 (x vel) (y vel + GRAVITY) in
     let life := (Photon.life p + 1)%Z in
     set_photon r (Photon.mk pos vel (Photon.hue p) life (Photon.maxLife p)
                             (Photon.size p) (Photon.type p)) ;;;
     w <- get ;;
     if (Photon.maxLife p <? life)%Z
        || Qltb (x pos) 0 || Qltb (width w) (x pos)
        || Qltb (y pos) 0 || Qltb (height w) (y pos)
     then modify (fun w => with_photons (splice1 (indexOf r (photons w)) (photons w)) w)
     else ret tt).
Proof. reflexivity. Qed.

(** A loop over a ring of portals that moves a point next to the partner of
    every portal it is in reach of, and that is in reach of a portal whenever
    it is next to it: the point stays where it is when it is in reach of no
    portal, and ends next to the first portal otherwise. *)
Lemma portal_chain (f : nat -> Portal.t -> Vec2 -> M Vec2)
    (hits : Vec2 -> Portal.t -> bool) (start : Vec2) (w : World) :
  ring (portals w) ->
  (forall k portal q pt n,
     portals w !! k = Some portal -> (j ← Portal.partner portal; portals w !! j) = Some q ->
     hits pt portal = true ->
     exists pt' m, f k portal pt (with_rnd n w) = Some (pt', with_rnd m w)
                   /\ near (Portal.position q) pt') ->
  (forall k portal pt w1, hits pt portal = false -> f k portal pt w1 = Some (pt, w1)) ->
  (forall k portal pt,
     portals w !! k = Some portal -> near (Portal.position portal) pt ->
     hits pt portal = true) ->
  exists pt n,
    forEach portals f start w = Some (pt, with_rnd n w)
    /\ ((pt = start /\ Forall (fun p => hits start p = false) (portals w))
        \/ (Exists (fun p => hits start p = true) (portals w)
            /\ exists p0, portals w !! 0%nat = Some p0 /\ near (Portal.position p0) pt)).
Proof.
  intros Hring Hhit Hmiss Hnear.
  pose (P := fun (k : nat) (pt : Vec2) (w1 : World) =>
    (exists n, w1 = with_rnd n w)
    /\ ((k <= length (portals w))%nat ->
        (pt = start
         /\ Forall (fun p => hits start p = false) (take k (portals w)))
        \/ (Exists (fun p => hits start p = true) (portals w)
            /\ exists q, portals w !! (k mod length (portals w))%nat = Some q
                         /\ near (Portal.position q) pt))).
  destruct (forEach_run portals f P start w) as (pt & w' & Hrun & [[n ->] HP]).
  - intros k portal pt w1 [[n ->] HP] Hk.
    change (portals (with_rnd n w)) with (portals w) in Hk.
    assert (Hlt : (k < length (portals w))%nat) by (by eapply lookup_lt_Some).
    specialize (HP (Nat.lt_le_incl _ _ Hlt)).
    destruct (ring_partner _ _ _ Hring Hk) as (q & Hq).
    assert (Hq' : portals w !! (S k mod length (portals w))%nat = Some q).
    { rewrite (Hring _ _ Hk) in Hq. cbn in Hq. by rewrite Nat.add_1_r in Hq. }
    destruct (hits pt portal) eqn:Hent.
    + destruct (Hhit k portal q pt n Hk Hq Hent) as (pt' & m & Hgo & Hpt').
      exists pt', (with_rnd m w). split; [exact Hgo|]. split; [by eexists|].
      intros _. right. split.
      * destruct HP as [[-> _]|[Hex _]]; [|exact Hex].
        apply Exists_exists. exists portal. split; [|exact Hent].
        by eapply list_elem_of_lookup_2.
      * by exists q.
    + exists pt, (with_rnd n w). split; [by apply Hmiss|]. split; [by eexists|].
      intros _. destruct HP as [[-> Hno]|[_ (q0 & Hq0 & Hq0near)]].
      * left. split; [reflexivity|]. rewrite (take_S_r _ _ _ Hk).
        apply Forall_app. split; [exact Hno|]. by repeat constructor.
      * exfalso. rewrite Nat.mod_small in Hq0 by exact Hlt.
        rewrite Hk in Hq0. injection Hq0 as <-.
        by rewrite (Hnear k portal pt Hk Hq0near) in Hent.
  - intros k pt w1 [[n ->] HP] Hk.
    change (portals (with_rnd n w)) with (portals w) in Hk.
    apply lookup_ge_None in Hk. split; [by eexists|]. lia.
  - split; [exists (rnd w); by rewrite with_rnd_same|]. intros _. left.
    split; [reflexivity|]. cbn [take]. constructor.
  - exists pt, n. split; [exact Hrun|].
    change (portals (with_rnd n w)) with (portals w) in HP.
    specialize (HP (Nat.le_refl _)).
    destruct HP as [[-> Hno]|[Hex (q & Hq & Hqnear)]].
    + left. split; [reflexivity|]. by rewrite firstn_all in Hno.
    + right. split; [exact Hex|]. exists q. split; [|exact Hqnear].
      assert (length (portals w) <> 0)%nat.
      { intros H0. apply nil_length_inv in H0.
        rewrite H0 in Hex. by apply Exists_nil in Hex. }
      by rewrite Nat.Div0.mod_same in Hq.
Qed.

(** The stand-in for [hypot] of the concrete environment is small on small
    arguments. *)
Lemma demo_hypot_small a b : Qabs a <= 5 -> Qabs b <= 5 -> demo_hypot a b < 20.
Proof.
  intros [Ha1 Ha2]%Qabs_Qle_condition [Hb1 Hb2]%Qabs_Qle_condition.
  unfold demo_hypot. cbv zeta.
  assert (Hfl : forall c, - (5) <= c -> c <= 5 ->
            (-5000000 <= Qfloor (c * 1000000) <= 5000000)%Z).
  { intros c H1 H2. split.
    - change (-5000000)%Z with (Qfloor (inject_Z (-5000000))).
      apply Qfloor_resp_le. change (inject_Z (-5000000)) with (-5000000). lra.
    - change 5000000%Z with (Qfloor (inject_Z 5000000)).
      apply Qfloor_resp_le. change (inject_Z 5000000) with 5000000. lra. }
  pose proof (Hfl a Ha1 Ha2) as Ha. pose proof (Hfl b Hb1 Hb2) as Hb.
  set (a6 := Qfloor (a * 1000000)) in *. set (b6 := Qfloor (b * 1000000)) in *.
  assert (Hs : (Z.sqrt (a6 * a6 + b6 * b6) < 20000000)%Z).
  { apply Z.sqrt_lt_square; nia. }
  unfold Qlt. cbn [Qnum Qden]. lia.
Qed.

Section Teleport.

Variable E : Env.
Hypothesis random_unit : forall n, 0 <= random E n <= 1.
Hypothesis hypot_small :
  forall a b, Qabs a <= 5 -> Qabs b <= 5 -> hypot E a b < 20.

Lemma offset_near (c : Vec2) n m :
  near c (mkVec2 (x c + (random E n - 0.5) * 10) (y c + (random E m - 0.5) * 10)).
Proof.
  destruct (random_unit n), (random_unit m).
  split; cbn [x y]; apply Qabs_Qle_condition; split.
  all: try (generalize (x c); intros; lra).
  all: try (generalize (y c); intros; lra).
Qed.

Lemma near_enters nh portal :
  Portal.radius portal = 20 ->
  near (Portal.position portal) nh -> enters E nh portal = true.
Proof.
  intros Hr [Hx Hy]. unfold enters. apply Qltb_true. rewrite Hr.
  pose proof (hypot_small _ _ Hx Hy) as Hd. revert Hd.
  generalize (hypot E (x nh - x (Portal.position portal))
                      (y nh - y (Portal.position portal))).
  intros d Hd. assert (Hs : SNAKE_SIZE / 2 == 3) by reflexivity.
  rewrite Hs. lra.
Qed.

Lemma near_warps pos portal :
  Portal.radius portal = 20 ->
  near (Portal.position portal) pos -> warps E pos portal = true.
Proof.
  intros Hr [Hx Hy]. unfold warps. apply Qltb_true. rewrite Hr.
  exact (hypot_small _ _ Hx Hy).
Qed.

(** X13: the loop of [Snake.update] over the portals, on a ring of portals
    of radius 20, with [random()] in [0, 1] and a [hypot] that is below 20
    on arguments of at most 5.  When the new head is in reach of no portal
    it stays where it is.  When it is in reach of some portal it ends within
    5 of the first portal of the array in both coordinates, whichever portal
    it entered: the offsets leave it in reach of the partner, whose turn
    comes later in the same loop. *)
Theorem teleport_lands_at_first newHead w :
  ring (portals w) ->
  Forall (fun p => Portal.radius p = 20) (portals w) ->
  exists nh n,
    teleport E newHead w = Some (nh, with_rnd n w)
    /\ ((nh = newHead /\ Forall (fun p => enters E newHead p = false) (portals w))
        \/ (Exists (fun p => enters E newHead p = true) (portals w)
            /\ exists p0, portals w !! 0%nat = Some p0 /\ near (Portal.position p0) nh)).
Proof.
  intros Hring Hrad. unfold teleport. apply portal_chain; [exact Hring| | |].
  - intros k portal q pt n Hk Hq Hent. cbv zeta. fold (enters E pt portal).
    rewrite Hent. eexists _, (S (S n)). split; [|apply (offset_near _ n (S n))].
    unfold bind at 1. cbn [next_random rnd with_rnd].
    unfold bind at 1. cbn [next_random rnd with_rnd].
    unfold bind at 1, partner_of.
    change (portals (with_rnd _ _)) with (portals w). rewrite Hq. reflexivity.
  - intros k portal pt w1 Hent. cbv zeta. fold (enters E pt portal). by rewrite Hent.
  - intros k portal pt Hk Hpt. apply near_enters; [|exact Hpt].
    rewrite Forall_lookup in Hrad. by eapply Hrad.
Qed.

(** X14: the same for the loop of [Photon.update] over the portals: a
    photon that is inside no portal stays where it is, and a photon that is
    inside some portal is within 5 of the first portal of the array before
    it moves on by its velocity. *)
Theorem warp_lands_at_first pos w :
  ring (portals w) ->
  Forall (fun p => Portal.radius p = 20) (portals w) ->
  exists pos' n,
    warp E pos w = Some (pos', with_rnd n w)
    /\ ((pos' = pos /\ Forall (fun p => warps E pos p = false) (portals w))
        \/ (Exists (fun p => warps E pos p = true) (portals w)
            /\ exists p0, portals w !! 0%nat = Some p0 /\ near (Portal.position p0) pos')).
Proof.
  intros Hring Hrad. unfold warp. apply portal_chain; [exact Hring| | |].
  - intros k portal q pt n Hk Hq Hent. cbv zeta. fold (warps E pt portal).
    rewrite Hent. eexists _, (S (S n)). split; [|apply (offset_near _ n (S n))].
    unfold bind at 1, partner_of.
    change (portals (with_rnd _ _)) with (portals w). rewrite Hq.
    unfold bind at 1. cbn [next_random rnd with_rnd]. reflexivity.
  - intros k portal pt w1 Hent. cbv zeta. fold (warps E pt portal). by rewrite Hent.
  - intros k portal pt Hk Hpt. apply near_warps; [|exact Hpt].
    rewrite Forall_lookup in Hrad. by eapply Hrad.
Qed.

End Teleport.

(** ** The scan for an atom and the black holes *)

(** A loop whose body leaves the world alone is a fold over the array. *)
Lemma forEach_from_pure {A B} (arr : World -> list A) (f : nat -> A -> B -> M B)
    (g : A -> B -> B) :
  (forall k a b w, f k a b w = Some (g a b, w)) ->
  forall n k b w,
    forEach_from arr f k n b w
    = Some (fold_left (fun b a => g a b) (take n (drop k (arr w))) b, w).
Proof.
  intros Hf. induction n as [|n IH]; intros k b w; cbn [forEach_from].
  - rewrite take_0. reflexivity.
  - destruct (arr w !! k) as [a|] eqn:Ha.
    + rewrite (drop_S _ _ _ Ha). cbn [take fold_left].
      rewrite (bind_Some _ _ _ _ _ (Hf k a b w)). apply IH.
    + rewrite IH. apply lookup_ge_None in Ha.
      rewrite !drop_ge by lia. by rewrite !take_nil.
Qed.

Lemma forEach_pure {A B} (arr : World -> list A) (f : nat -> A -> B -> M B)
    (g : A -> B -> B) b w :
  (forall k a b w, f k a b w = Some (g a b, w)) ->
  forEach arr f b w = Some (fold_left (fun b a => g a b) (arr w) b, w).
Proof.
  intros Hf. unfold forEach. rewrite (forEach_from_pure arr f g Hf).
  by rewrite drop_0, firstn_all.
Qed.

Lemma fold_shrink (hit : BlackHole.t -> bool) (l : list BlackHole.t) : forall s,
  fold_left (fun s h => if hit h then Snake_shrink s else s) l s
  = Nat.iter (length (filter (fun h => hit h = true) l)) Snake_shrink s.
Proof.
  induction l as [|h l IH]; intros s; [reflexivity|]. cbn [fold_left].
  rewrite IH, filter_cons. destruct (hit h) eqn:Hh.
  - rewrite decide_True by done. cbn [length]. by rewrite Nat.iter_succ_r.
  - by rewrite decide_False by done.
Qed.

Lemma shrink_iter n s :
  Snake.positions (Nat.iter n Snake_shrink s)
  = take (length (Snake.positions s) - 10 * n) (Snake.positions s)
  /\ Snake.snakeLength (Nat.iter n Snake_shrink s)
     = (if (n =? 0)%nat then Snake.snakeLength s
        else Z.max 10 (Snake.snakeLength s - 10 * Z.of_nat n))
  /\ Snake.target (Nat.iter n Snake_shrink s) = Snake.target s
  /\ Snake.angle (Nat.iter n Snake_shrink s) = Snake.angle s.
Proof.
  induction n as [|n (IH1 & IH2 & IH3 & IH4)].
  - cbn [Nat.iter Nat.eqb]. rewrite Nat.mul_0_r, Nat.sub_0_r, firstn_all. done.
  - change (Nat.iter (S n) Snake_shrink s) with (Snake_shrink (Nat.iter n Snake_shrink s)).
    cbn [Snake_shrink Snake.positions Snake.snakeLength Snake.target Snake.angle Nat.eqb].
    rewrite shrunk_take, IH1, IH2, IH3, IH4, length_take, take_take.
    split; [f_equal; lia|]. split; [|done].
    destruct (n =? 0)%nat eqn:Hn; [apply Nat.eqb_eq in Hn; subst; lia|lia].
Qed.

Section SnakePhases.

Variable E : Env.

(** The loop over the black holes is one [shrink()] for every black hole in
    reach. *)
Lemma suffer_exact newHead s w :
  suffer E newHead s w
  = Some (Nat.iter (length (filter (fun h => swallows E newHead h = true) (blackHoles w)))
                   Snake_shrink s, w).
Proof.
  unfold suffer.
  rewrite (forEach_pure blackHoles _
             (fun hole s => if swallows E newHead hole then Snake_shrink s else s)).
  - by rewrite fold_shrink.
  - intros k hole s0 w0. cbv zeta. fold (swallows E newHead hole).
    by destruct (swallows E newHead hole).
Qed.

(** The scan takes the first of the nearest alive atoms. *)
Lemma seek_scan head s w :
  exists tg,
    seek E head s false w = Some (with_target tg s, w)
    /\ ((tg = Snake.target s /\ Forall (fun a => Atom.state a <> 0%Z) (atoms w))
        \/ exists i a,
             tg = Some i /\ atoms w !! i = Some a /\ Atom.state a = 0%Z
             /\ forall j b, atoms w !! j = Some b -> Atom.state b = 0%Z ->
                  dist_to E head a <= dist_to E head b
                  /\ ((j < i)%nat -> dist_to E head a < dist_to E head b)).
Proof.
  unfold seek. cbn [negb].
  pose (P := fun (k : nat) (acc : option Q * option nat) (w1 : World) =>
    w1 = w
    /\ ((k <= length (atoms w))%nat ->
        (acc = (None, Snake.target s)
         /\ Forall (fun a => Atom.state a <> 0%Z) (take k (atoms w)))
        \/ exists i a,
             acc = (Some (dist_to E head a), Some i) /\ (i < k)%nat
             /\ atoms w !! i = Some a /\ Atom.state a = 0%Z
             /\ forall j b, (j < k)%nat -> atoms w !! j = Some b -> Atom.state b = 0%Z ->
                  dist_to E head a <= dist_to E head b
                  /\ ((j < i)%nat -> dist_to E head a < dist_to E head b))).
  destruct (forEach_run atoms
    (fun i atom (acc : option Q * option nat) =>
       if (Atom.state atom =? 0)%Z then
         let dist := hypot E (x head - x (Atom.position atom))
                             (y head - y (Atom.position atom)) in
         if below dist (fst acc) then ret (Some dist, Some i)
         else ret acc
       else ret acc) P (None, Snake.target s) w) as (acc & w' & Hrun & [-> HP]).
  - intros k atom acc w1 [-> HP] Hk.
    assert (Hlt : (k < length (atoms w))%nat) by (by eapply lookup_lt_Some).
    specialize (HP (Nat.lt_le_incl _ _ Hlt)).
    destruct (Atom.state atom =? 0)%Z eqn:Hst.
    + apply Z.eqb_eq in Hst. cbv zeta. fold (dist_to E head atom).
      destruct HP as [[-> Hno]|(i & a & -> & Hik & Hi & Ha & Hmin)]; cbn [fst below].
      * eexists _, _. split; [reflexivity|]. split; [reflexivity|]. intros _.
        right. exists k, atom. split; [reflexivity|]. split; [lia|].
        do 2 (split; [done|]).
        intros j b Hj Hb Hb0. assert (j = k \/ j < k)%nat as [->|Hjk] by lia.
        -- rewrite Hk in Hb. injection Hb as <-. split; [apply Qle_refl|lia].
        -- exfalso. rewrite Forall_lookup in Hno.
           apply (Hno j b); [|exact Hb0]. by rewrite lookup_take_lt.
      * destruct (Qltb (dist_to E head atom) (dist_to E head a)) eqn:Hcmp.
        -- apply Qltb_true in Hcmp.
           eexists _, _. split; [reflexivity|]. split; [reflexivity|]. intros _.
           right. exists k, atom. split; [reflexivity|]. split; [lia|].
           do 2 (split; [done|]).
           intros j b Hj Hb Hb0. assert (j = k \/ j < k)%nat as [->|Hjk] by lia.
           ++ rewrite Hk in Hb. injection Hb as <-. split; [apply Qle_refl|lia].
           ++ destruct (Hmin j b Hjk Hb Hb0) as [Hle _].
              assert (dist_to E head atom < dist_to E head b)
                by (eapply Qlt_le_trans; eauto).
              split; [by apply Qlt_le_weak|done].
        -- apply Qltb_false in Hcmp.
           eexists _, _. split; [reflexivity|]. split; [reflexivity|]. intros _.
           right. exists i, a. split; [reflexivity|]. split; [lia|].
           do 2 (split; [done|]).
           intros j b Hj Hb Hb0. assert (j = k \/ j < k)%nat as [->|Hjk] by lia.
           ++ rewrite Hk in Hb. injection Hb as <-. split; [exact Hcmp|lia].
           ++ by apply Hmin.
    + apply Z.eqb_neq in Hst.
      eexists _, _. split; [reflexivity|]. split; [reflexivity|]. intros _.
      destruct HP as [[-> Hno]|(i & a & -> & Hik & Hi & Ha & Hmin)].
      * left. split; [reflexivity|]. rewrite (take_S_r _ _ _ Hk).
        apply Forall_app. split; [exact Hno|]. by repeat constructor.
      * right. exists i, a. split; [reflexivity|]. split; [lia|].
        do 2 (split; [done|]).
        intros j b Hj Hb Hb0. assert (j = k \/ j < k)%nat as [->|Hjk] by lia.
        -- rewrite Hk in Hb. injection Hb as <-. done.
        -- by apply Hmin.
  - intros k acc w1 [-> HP] Hk. apply lookup_ge_None in Hk. split; [reflexivity|]. lia.
  - split; [reflexivity|]. intros _. left. split; [reflexivity|]. cbn [take]. constructor.
  - specialize (HP (Nat.le_refl _)).
    rewrite (bind_Some _ _ _ _ _ Hrun).
    destruct HP as [[-> Hno]|(i & a & -> & Hik & Hi & Ha & Hmin)]; cbn [snd].
    + exists (Snake.target s). split; [reflexivity|]. left. split; [reflexivity|].
      by rewrite firstn_all in Hno.
    + exists (Some i). split; [reflexivity|]. right. exists i, a.
      do 3 (split; [done|]). intros j b Hb Hb0. apply Hmin; [|done..].
      by eapply lookup_lt_Some.
Qed.

(** X15: the scan of [Snake.update] for a target is skipped while the
    target is alive.  Otherwise it changes nothing but the target: when no
    atom is alive the target stays what it was, a dead atom included, and
    when some atom is alive the target becomes an alive atom that is no
    farther from the head than any other alive atom and strictly nearer than
    the alive atoms before it in the array. *)
Theorem seek_nearest head s w :
  seek E head s true w = Some (s, w)
  /\ exists tg,
       seek E head s false w = Some (with_target tg s, w)
       /\ ((tg = Snake.target s /\ Forall (fun a => Atom.state a <> 0%Z) (atoms w))
           \/ exists i a,
                tg = Some i /\ atoms w !! i = Some a /\ Atom.state a = 0%Z
                /\ forall j b, atoms w !! j = Some b -> Atom.state b = 0%Z ->
                     dist_to E head a <= dist_to E head b
                     /\ ((j < i)%nat -> dist_to E head a < dist_to E head b)).
Proof. split; [reflexivity|apply seek_scan]. Qed.

(** X16: the loop of [Snake.update] over the black holes never throws and
    leaves the world alone; the snake shrinks once for every black hole whose
    radius plus 3 is above the distance to the new head.  With n such holes
    the snake keeps its first length - 10 n positions, none when that is not
    positive, and its [snakeLength] is max(10, snakeLength - 10 n) when n is
    not 0. *)
Theorem suffer_spec newHead s w :
  let n := length (filter (fun h => swallows E newHead h = true) (blackHoles w)) in
  suffer E newHead s w = Some (Nat.iter n Snake_shrink s, w)
  /\ Snake.positions (Nat.iter n Snake_shrink s)
     = take (length (Snake.positions s) - 10 * n) (Snake.positions s)
  /\ Snake.snakeLength (Nat.iter n Snake_shrink s)
     = (if (n =? 0)%nat then Snake.snakeLength s
        else Z.max 10 (Snake.snakeLength s - 10 * Z.of_nat n))
  /\ Snake.target (Nat.iter n Snake_shrink s) = Snake.target s.
Proof.
  intros n. split; [apply suffer_exact|].
  destruct (shrink_iter n s) as (H1 & H2 & H3 & _). by repeat split.
Qed.

End SnakePhases.

(** ** The atoms that a snake eats *)

Lemma last_replicate_app {A} (l : list A) n tail :
  last l = Some tail -> last (l ++ replicate n tail) = Some tail.
Proof.
  intros Hl. destruct n as [|n]; [by rewrite app_nil_r|].
  rewrite replicate_S_end, app_assoc. apply last_snoc.
Qed.

Lemma eaten_snoc E newHead l a :
  eaten E newHead (l ++ [a])
  = eaten E newHead l ++ (if bites E newHead a then [a] else []).
Proof.
  unfold eaten. rewrite filter_app. f_equal. rewrite filter_cons, filter_nil.
  destruct (bites E newHead a); [by rewrite decide_True|by rewrite decide_False].
Qed.

Lemma growth_app l1 l2 : growth (l1 ++ l2) = (growth l1 + growth l2)%nat.
Proof. unfold growth. apply sum_list_with_app. Qed.

Lemma burst_app l1 l2 : burst (l1 ++ l2) = (burst l1 + burst l2)%nat.
Proof. unfold burst. apply sum_list_with_app. Qed.

Lemma eaten_nil E newHead : eaten E newHead [] = [].
Proof. reflexivity. Qed.

Lemma growth_single a : growth [a] = lengthToAdd (Atom.type a).
Proof. unfold growth. cbn [sum_list_with]. lia. Qed.

Lemma burst_single a : burst [a] = photonCount (Atom.type a).
Proof. unfold burst. cbn [sum_list_with]. lia. Qed.

Section Eat.

Variable E : Env.

Lemma eat_run newHead s w tail :
  last (Snake.positions s) = Some tail ->
  exists s' w',
    eat E newHead s w = Some (s', w')
    /\ eat_state E newHead s w tail (length (atoms w)) s' w'.
Proof.
  intros Hlast. unfold eat.
  pose (P := fun (k : nat) (s1 : Snake.t) (w1 : World) =>
    length (atoms w1) = length (atoms w)
    /\ ((k <= length (atoms w))%nat -> eat_state E newHead s w tail k s1 w1)).
  destruct (forEach_run atoms
    (fun i atom s =>
       if (Atom.state atom =? 0)%Z then
         let dist := hypot E (x newHead - x (Atom.position atom))
                             (y newHead - y (Atom.position atom)) in
         if Qltb dist (Atom.radius atom + SNAKE_SIZE / 2) then
           t <- performance_now E ;;
           Atom_disintegrate E i t ;;;
           s <- deref (Snake_grow (Atom.type atom) s) ;;
           ret (with_target None s)
         else ret s
       else ret s) P s w) as (s' & w' & Hrun & [Hlen HP]).
  - intros k atom s1 w1 [Hlen HP] Hk.
    assert (Hlt : (k < length (atoms w))%nat).
    { rewrite <- Hlen. by eapply lookup_lt_Some. }
    destruct (HP (Nat.lt_le_incl _ _ Hlt))
      as [-> (l1 & Hat & Hl1) (new & Hst & Hnew & Hph) Hholes Hrest].
    assert (Hl1len : length l1 = k).
    { rewrite <- (Forall2_length _ _ _ Hl1), length_take. lia. }
    assert (Hk0 : atoms w !! k = Some atom).
    { rewrite Hat, lookup_app_r in Hk by lia.
      rewrite Hl1len, Nat.sub_diag, lookup_drop, Nat.add_0_r in Hk. exact Hk. }
    assert (Hsame : bites E newHead atom = false ->
      P (S k) (Snake.mk (Snake.hue s) (Snake.color s)
               (Snake.positions s
                ++ replicate (growth (eaten E newHead (take k (atoms w)))) tail)
               (Snake.snakeLength s
                + Z.of_nat (growth (eaten E newHead (take k (atoms w)))))%Z
               (Snake.angle s)
               (match eaten E newHead (take k (atoms w)) with
                | [] => Snake.target s
                | _ => None
                end)) w1).
    { intros Hb. split; [exact Hlen|]. intros _.
      assert (Heaten : eaten E newHead (take (S k) (atoms w))
                       = eaten E newHead (take k (atoms w))).
      { by rewrite (take_S_r _ _ _ Hk0), eaten_snoc, Hb, app_nil_r. }
      split; rewrite ?Heaten; try done.
      - exists (l1 ++ [atom]). split.
        + rewrite Hat, (drop_S _ _ _ Hk0), <- app_assoc. reflexivity.
        + rewrite (take_S_r _ _ _ Hk0). apply Forall2_app; [exact Hl1|].
          constructor; [|constructor]. unfold eats. by rewrite Hb.
      - by exists new. }
    destruct (Atom.state atom =? 0)%Z eqn:Hstate.
    2:{ eexists _, _. split; [reflexivity|]. apply Hsame.
        unfold bites. by rewrite Hstate. }
    cbv zeta.
    destruct (Qltb _ (Atom.radius atom + SNAKE_SIZE / 2)) eqn:Hreach.
    2:{ eexists _, _. split; [reflexivity|]. apply Hsame.
        unfold bites. by rewrite Hstate, Hreach. }
    assert (Hb : bites E newHead atom = true).
    { unfold bites. by rewrite Hstate, Hreach. }
    unfold bind at 1. cbn [performance_now].
    destruct (Atom_disintegrate_run E k (now E (clk w1)) atom (with_clk (S (clk w1)) w1) Hk)
      as (ps & Hdis & Hpslen & _).
    rewrite (bind_Some _ _ _ _ _ Hdis).
    set (s1 := Snake.mk _ _ _ _ _ _).
    assert (Hgrow : Snake_grow (Atom.type atom) s1
              = Some (Snake.mk (Snake.hue s1) (Snake.color s1)
                        (Snake.positions s1 ++ replicate (lengthToAdd (Atom.type atom)) tail)
                        (Snake.snakeLength s1 + Z.of_nat (lengthToAdd (Atom.type atom)))%Z
                        (Snake.angle s1) (Snake.target s1))).
    { unfold Snake_grow. rewrite (grow_loop_tail _ _ tail); [reflexivity|].
      by apply last_replicate_app. }
    rewrite Hgrow. eexists _, _. split; [reflexivity|].
    assert (Heaten : eaten E newHead (take (S k) (atoms w))
                     = eaten E newHead (take k (atoms w)) ++ [atom]).
    { by rewrite (take_S_r _ _ _ Hk0), eaten_snoc, Hb. }
    split.
    { cbn [atoms with_blackHoles with_rnd with_photons with_photon_store with_atoms
           with_clk]. by rewrite length_insert. }
    intros _.
    split; rewrite ?Heaten;
      cbn [atoms photons photon_store blackHoles width height snakes portals ctx
           with_blackHoles with_rnd with_photons with_photon_store with_atoms with_clk].
    + unfold with_target, s1.
      cbn [Snake.hue Snake.color Snake.positions Snake.snakeLength Snake.angle
           Snake.target].
      rewrite growth_app, growth_single.
      rewrite replicate_add, <- app_assoc, Nat2Z.inj_add, Z.add_assoc.
      f_equal. by destruct (eaten E newHead (take k (atoms w))).
    + exists (l1 ++ [disintegrated (now E (clk w1)) atom]). split.
      * rewrite Hat, insert_app_r_alt by lia.
        rewrite Hl1len, Nat.sub_diag, (drop_S _ _ _ Hk0). cbn [insert list_insert].
        by rewrite <- app_assoc.
      * rewrite (take_S_r _ _ _ Hk0). apply Forall2_app; [exact Hl1|].
        constructor; [|constructor]. unfold eats. rewrite Hb. by eexists.
    + exists (new ++ ps). split; [by rewrite Hst, app_assoc|]. split.
      * rewrite length_app, burst_app, burst_single, Hnew, Hpslen. reflexivity.
      * rewrite Hph, Hst, <- app_assoc, !length_app, seq_app, Hpslen. reflexivity.
    + rewrite Hholes, flat_map_app, <- app_assoc. cbn [flat_map]. by rewrite app_nil_r.
    + exact Hrest.
  - intros k s1 w1 [Hlen HP] Hk. apply lookup_ge_None in Hk.
    split; [exact Hlen|]. lia.
  - split; [reflexivity|]. intros _. split; cbn [take]; rewrite ?eaten_nil.
    + unfold growth. cbn [sum_list_with replicate].
      rewrite app_nil_r, Z.add_0_r. by destruct s.
    + exists []. split; [by rewrite drop_0|constructor].
    + exists []. by rewrite !app_nil_r.
    + by rewrite app_nil_r.
    + done.
  - exists s', w'. split; [exact Hrun|]. apply HP. reflexivity.
Qed.

(** X17: the loop of [Snake.update] over the atoms, for a snake with a last
    position.  The atoms that are alive and within their radius plus 3 of
    the new head are eaten, each once: they disintegrate, the others stay as
    they are.  The snake gets 5 copies of its last position for every normal
    and 15 for every special atom eaten, [snakeLength] grows by as much, and
    the target is reset when an atom was eaten.  The store gets 5 or 15 new
    photons for every eaten atom and the array of black holes one new hole
    for every special one, in the order of the atoms. *)
Theorem eat_spec newHead s w tail :
  last (Snake.positions s) = Some tail ->
  exists s' w',
    eat E newHead s w = Some (s', w')
    /\ s' = Snake.mk (Snake.hue s) (Snake.color s)
              (Snake.positions s ++ replicate (growth (eaten E newHead (atoms w))) tail)
              (Snake.snakeLength s + Z.of_nat (growth (eaten E newHead (atoms w))))%Z
              (Snake.angle s)
              (match eaten E newHead (atoms w) with
               | [] => Snake.target s
               | _ => None
               end)
    /\ Forall2 (eats E newHead) (atoms w) (atoms w')
    /\ length (photon_store w')
       = (length (photon_store w) + burst (eaten E newHead (atoms w)))%nat
    /\ blackHoles w' = blackHoles w ++ flat_map spawned_holes (eaten E newHead (atoms w)).
Proof.
  intros Hlast.
  destruct (eat_run newHead s w tail Hlast)
    as (s' & w' & Hrun & [Hs (l1 & Hat & Hl1) (new & Hst & Hnew & _) Hh _]).
  rewrite firstn_all in *. rewrite drop_all, app_nil_r in Hat.
  exists s', w'. split; [exact Hrun|]. split; [exact Hs|].
  split; [by rewrite Hat|]. split; [|exact Hh].
  by rewrite Hst, length_app, Hnew.
Qed.

End Eat.

(** ** The loop over the photons *)

Lemma animate_phases (E : Env) :
  animate E
  = (w <- get ;;
     emit_all
       [ClearRect 0 0 (width w) (height w);
        SetFillStyle (Lit "#000");
        FillRect 0 0 (width w) (height w)] ;;;
     drawBackgroundGrid ;;;
     forEach blackHoles (fun k _ _ => BlackHole_update E k ;;; BlackHole_draw E k) tt ;;;
     currentTime <- performance_now E ;;
     forEach atoms (fun i _ _ => Atom_draw E i currentTime) tt ;;;
     forEach snakes (fun k _ _ => Snake_update E k ;;; Snake_draw k) tt ;;;
     photon_pass E ;;;
     forEach portals (fun _ portal _ => Portal_draw E portal) tt).
Proof. reflexivity. Qed.

Lemma drop_S_delete {A} (l : list A) k :
  (k < length l)%nat -> drop (S k) (delete k l) = drop (S (S k)) l.
Proof.
  revert k. induction l as [|a l IH]; intros k Hk; [cbn in Hk; lia|].
  destruct k as [|k]; [reflexivity|]. cbn [delete list_delete drop].
  apply IH. cbn in Hk. lia.
Qed.

Lemma elem_of_drop_le {A} (l : list A) i j x :
  (i <= j)%nat -> x ∈ drop j l -> x ∈ drop i l.
Proof.
  intros Hij [n Hn]%list_elem_of_lookup_1. rewrite lookup_drop in Hn.
  apply list_elem_of_lookup. exists (j - i + n)%nat. rewrite lookup_drop.
  rewrite <- Hn. f_equal. lia.
Qed.

Lemma take_S_delete {A} (l : list A) k :
  take (S k) (delete k l) = take k l ++ take 1 (drop (S k) l).
Proof.
  revert k. induction l as [|a l IH]; intros k.
  - by rewrite !take_nil.
  - destruct k as [|k]; [by destruct l|].
    cbn [delete list_delete take drop app]. f_equal. apply IH.
Qed.

Lemma filter_ext_in {A} (P Q : A -> Prop) `{!forall x, Decision (P x)}
    `{!forall x, Decision (Q x)} (l : list A) :
  (forall x, x ∈ l -> P x <-> Q x) -> filter P l = filter Q l.
Proof.
  induction l as [|a l IH]; intros Hext; [reflexivity|].
  rewrite !filter_cons. rewrite IH by (intros x Hx; apply Hext; by right).
  destruct (decide (P a)) as [Hp|Hp], (decide (Q a)) as [Hq|Hq]; try reflexivity.
  - exfalso. apply Hq, Hext; [by left|exact Hp].
  - exfalso. apply Hp, Hext; [by left|exact Hq].
Qed.

Lemma NoDup_not_later (l : list nat) k r :
  NoDup l -> l !! k = Some r -> r ∉ drop (S k) l.
Proof.
  intros Hnd Hk [n Hn]%list_elem_of_lookup_1. rewrite lookup_drop in Hn.
  assert (S k + n = k)%nat by (eapply NoDup_lookup; eauto). lia.
Qed.

Lemma indexOf_at (l : list nat) k r :
  NoDup l -> l !! k = Some r -> indexOf r l = Z.of_nat k.
Proof.
  intros Hnd Hk.
  destruct (indexOf_elem r l) as (i & Hi & Hli & _); [by eapply list_elem_of_lookup_2|].
  rewrite Hi. f_equal. eapply NoDup_lookup; eauto.
Qed.

Section PhotonPass.

Variable E : Env.

Lemma Photon_draw_run r p w :
  photon_store w !! r = Some p ->
  exists ops, Photon_draw E r w = Some (tt, with_ctx ops w).
Proof.
  intros Hr. unfold Photon_draw, photon_at. unfold bind at 1. rewrite Hr. cbn [deref ret].
  rewrite emit_all_run. by eexists.
Qed.

(** The loop over the photons runs to its end. *)
Lemma photon_pass_run w :
  ring (portals w) -> refs_ok w -> NoDup (photons w) ->
  exists w', photon_pass E w = Some (tt, w')
             /\ pass_state w (length (photons w)) w'.
Proof.
  intros Hring Hrefs Hnd. unfold photon_pass.
  destruct (forEach_run photons
              (fun _ r (_ : unit) => Photon_update E r ;;; Photon_draw E r)
              (fun k _ w1 => pass_state w k w1) tt w) as ([] & w' & Hrun & HP).
  - intros k r [] w1 [Hpo Hsub Hlen Honce Hskip Hall] Hk.
    assert (Hnd1 : NoDup (photons w1)) by (by eapply sublist_NoDup).
    assert (Hin1 : r ∈ photons w1) by (by eapply list_elem_of_lookup_2).
    assert (Hin : r ∈ photons w) by (by eapply elem_of_sublist).
    assert (Hlt : (r < length (photon_store w))%nat).
    { unfold refs_ok in Hrefs. rewrite Forall_forall in Hrefs. by apply Hrefs. }
    destruct (photon_store w !! r) as [p|] eqn:Hp0;
      [|apply lookup_ge_None in Hp0; lia].
    assert (Hp1 : photon_store w1 !! r = Some p).
    { destruct (Honce r p Hp0) as (p' & Hp' & [->|(_ & Hnot & _)]); [exact Hp'|].
      exfalso. apply Hnot. apply list_elem_of_lookup. exists 0%nat.
      by rewrite lookup_drop, Nat.add_0_r. }
    rewrite <- Hpo in Hring.
    destruct (Photon_update_run E r p w1 Hring Hp1) as (pos & n & Hupd).
    cbv zeta in Hupd. rewrite (bind_Some _ _ _ _ _ Hupd).
    set (W := with_photon_store (<[r := moved pos p]> (photon_store w1)) (with_rnd n w1)) in *.
    rewrite (indexOf_at _ k r Hnd1 Hk), splice1_at in *
      by (by eapply lookup_lt_Some).
    set (w2 := if expired w1 (moved pos p) then with_photons (delete k (photons w1)) W else W)
      in *.
    assert (Hst2 : photon_store w2 = <[r := moved pos p]> (photon_store w1)).
    { unfold w2. by destruct (expired _ _). }
    assert (Hpo2 : portals w2 = portals w1).
    { unfold w2. by destruct (expired _ _). }
    assert (Hph2 : photons w2 = (if expired w1 (moved pos p)
                                 then delete k (photons w1) else photons w1)).
    { unfold w2. by destruct (expired _ _). }
    assert (Hr2 : photon_store w2 !! r = Some (moved pos p)).
    { rewrite Hst2. apply list_lookup_insert_eq. by eapply lookup_lt_Some. }
    destruct (Photon_draw_run r _ w2 Hr2) as (ops & Hdraw).
    exists tt, (with_ctx ops w2). split; [exact Hdraw|].
    assert (Hsub2 : photons w2 `sublist_of` photons w1).
    { rewrite Hph2. destruct (expired _ _); [apply sublist_delete|done]. }
    assert (Hlater : forall r', r' ∈ drop (S k) (photons w2) -> r' ∈ drop (S k) (photons w1)).
    { intros r'. rewrite Hph2. destruct (expired _ _); [|done].
      rewrite drop_S_delete by (by eapply lookup_lt_Some).
      apply elem_of_drop_le. lia. }
    split; cbn [portals photons photon_store with_ctx].
    + by rewrite Hpo2.
    + by etrans.
    + by rewrite Hst2, length_insert.
    + intros r' p0' Hr'. rewrite Hst2.
      destruct (decide (r' = r)) as [->|Hne].
      * exists (moved pos p). split; [apply list_lookup_insert_eq; by eapply lookup_lt_Some|].
        right. rewrite Hp0 in Hr'. injection Hr' as <-.
        split; [reflexivity|]. split; [|exact Hin].
        intros Hbad. apply Hlater in Hbad. by eapply NoDup_not_later.
      * rewrite list_lookup_insert_ne by done.
        destruct (Honce r' p0' Hr') as (p' & Hp' & [->|(Hlife & Hnot & Hin')]).
        -- exists p0'. split; [exact Hp'|by left].
        -- exists p'. split; [exact Hp'|]. right. split; [exact Hlife|].
           split; [|exact Hin']. intros Hbad. apply Hnot.
           apply Hlater in Hbad. revert Hbad. apply elem_of_drop_le. lia.
    + assert (Hkl : (k < length (photons w1))%nat) by (by eapply lookup_lt_Some).
      assert (Hearly : filter (fun r => untouched w (with_ctx ops w2) r = true)
                              (take k (photons w1))
                       = filter (fun r => untouched w w1 r = true) (take k (photons w1))).
      { apply filter_ext_in. intros r' Hr'. unfold untouched.
        cbn [photon_store with_ctx]. rewrite Hst2.
        rewrite list_lookup_insert_ne; [done|]. intros ->.
        apply list_elem_of_lookup_1 in Hr' as [j Hj].
        apply lookup_take_Some in Hj as [Hj Hjk].
        pose proof (NoDup_lookup _ _ _ _ Hnd1 Hj Hk). lia. }
      assert (Hr : untouched w (with_ctx ops w2) r <> true).
      { unfold untouched. cbn [photon_store with_ctx]. rewrite Hr2, Hp0. cbn.
        rewrite bool_decide_eq_true. intros [= Hbad]. lia. }
      rewrite Hph2. destruct (expired w1 (moved pos p)).
      * rewrite take_S_delete, filter_app, length_app, Hearly, length_delete
          by (by eapply mk_is_Some).
        assert (length (filter (fun r => untouched w (with_ctx ops w2) r = true)
                          (take 1 (drop (S k) (photons w1)))) <= 1)%nat.
        { etrans; [apply length_filter|]. rewrite length_take. lia. }
        lia.
      * rewrite (take_S_r _ _ _ Hk), filter_app, length_app, Hearly.
        rewrite filter_cons, decide_False by exact Hr.
        rewrite filter_nil. cbn [length]. lia.
    + intros Hlen2.
      assert (Hl1 : (length (photons w2) <= length (photons w1))%nat)
        by (by apply sublist_length).
      assert (Hl0 : (length (photons w1) <= length (photons w))%nat)
        by (by apply sublist_length).
      destruct Hall as [Hsame Hdone]; [lia|].
      assert (Hkeep : expired w1 (moved pos p) = false).
      { destruct (expired w1 (moved pos p)) eqn:Hex; [|done].
        rewrite Hph2, length_delete in Hlen2 by (by eapply mk_is_Some).
        apply lookup_lt_Some in Hk. lia. }
      rewrite Hph2, Hkeep. split; [exact Hsame|].
      intros j r' p0' Hj Hjr Hr'. rewrite Hst2.
      assert (j = k \/ j < k)%nat as [->|Hjk] by lia.
      * rewrite Hsame in Hk. rewrite Hk in Hjr. injection Hjr as <-.
        rewrite Hp0 in Hr'. injection Hr' as <-.
        exists (moved pos p). split; [|reflexivity].
        apply list_lookup_insert_eq. by eapply lookup_lt_Some.
      * assert (r' <> r).
        { intros ->. rewrite Hsame in Hk.
          pose proof (NoDup_lookup _ _ _ _ Hnd Hjr Hk). lia. }
        rewrite list_lookup_insert_ne by done. by eapply Hdone.
  - intros k [] w1 [Hpo Hsub Hlen Honce Hskip Hall] Hk. apply lookup_ge_None in Hk.
    split; try done.
    + intros r p Hr. destruct (Honce r p Hr) as (p' & Hp' & [->|(Hlife & Hnot & Hin)]).
      * exists p. split; [exact Hp'|by left].
      * exists p'. split; [exact Hp'|]. right. split; [exact Hlife|].
        split; [|exact Hin]. rewrite drop_ge by lia. apply not_elem_of_nil.
    + by rewrite !take_ge in * by lia.
    + intros Hlen1. destruct (Hall Hlen1) as [Hsame Hdone]. split; [exact Hsame|].
      intros j r p Hj Hjr Hr. apply (Hdone j r p); [|done..].
      apply lookup_lt_Some in Hjr. lia.
  - split; try done.
    + intros r p Hr. exists p. split; [exact Hr|by left].
    + intros _. split; [reflexivity|]. intros j r p Hj. lia.
  - by exists w'.
Qed.

(** X18: the loop of [animate] over the photons, on a world where the
    portals form a ring and the references in the array of photons are
    distinct and point to objects.  It never
    throws and never adds a photon to the array.  It calls [update()] at
    most once on every photon object: the life counter of an object goes up
    by 1 or the object is left as it is, and only objects of the array are
    touched.  The photons that stay in the array without an update are at
    most as many as the photons that left it: a photon is passed over only
    when the photon before it removes itself.  When the array is as long
    afterwards as it was before, no photon was removed and every photon of
    the array was updated, each exactly once. *)
Theorem photon_pass_once w :
  ring (portals w) -> refs_ok w -> NoDup (photons w) ->
  exists w',
    photon_pass E w = Some (tt, w')
    /\ photons w' `sublist_of` photons w
    /\ (forall r p, photon_store w !! r = Some p ->
          exists p', photon_store w' !! r = Some p'
            /\ (p' = p
                \/ (Photon.life p' = (Photon.life p + 1)%Z /\ r ∈ photons w)))
    /\ (length (filter (fun r => untouched w w' r = true) (photons w'))
        + length (photons w') <= length (photons w))%nat
    /\ (length (photons w') = length (photons w) ->
          photons w' = photons w
          /\ forall r p, r ∈ photons w -> photon_store w !! r = Some p ->
               exists p', photon_store w' !! r = Some p'
                          /\ Photon.life p' = (Photon.life p + 1)%Z).
Proof.
  intros Hring Hrefs Hnd.
  destruct (photon_pass_run w Hring Hrefs Hnd)
    as (w' & Hrun & [_ Hsub _ Honce Hskip Hall]).
  exists w'. split; [exact Hrun|]. split; [exact Hsub|]. split; [|split].
  - intros r p Hr. destruct (Honce r p Hr) as (p' & Hp' & [->|(Hlife & _ & Hin)]).
    + exists p. split; [exact Hp'|by left].
    + exists p'. split; [exact Hp'|by right].
  - rewrite take_ge in Hskip by (by apply sublist_length). exact Hskip.
  - intros Hlen. destruct (Hall Hlen) as [Hsame Hdone]. split; [exact Hsame|].
    intros r p [j Hj]%list_elem_of_lookup_1 Hr. apply (Hdone j r p); [|done..].
    by eapply lookup_lt_Some.
Qed.

End PhotonPass.

(** ** A snake that meets nothing *)

Lemma bind_assoc {A B C} (m : M A) (f : A -> M B) (g : B -> M C) w :
  bind (bind m f) g w = bind m (fun a => bind (f a) g) w.
Proof. unfold bind. by destruct (m w) as [[a w']|]. Qed.

Lemma bind_ext {A B} (m : M A) (f g : A -> M B) w :
  (forall a w', f a w' = g a w') -> bind m f w = bind m g w.
Proof. intros H. unfold bind. destruct (m w) as [[a w']|]; [apply H|reflexivity]. Qed.

(** [Snake.update] is [aim] and then the three collisions and the shift. *)
Lemma Snake_update_aim (E : Env) (k : nat) (w : World) :
  Snake_update E k w
  = (sn <- aim E k ;;
     s <- eat E (snd sn) (fst sn) ;;
     s <- suffer E (snd sn) s ;;
     newHead <- teleport E (snd sn) ;;
     settle k newHead s) w.
Proof.
  rewrite Snake_update_phases. unfold aim.
  rewrite bind_assoc. apply bind_ext. intros s w1.
  rewrite bind_assoc. apply bind_ext. intros head w2.
  rewrite bind_assoc. apply bind_ext. intros b1 w3.
  rewrite bind_assoc. apply bind_ext. intros s1 w4.
  rewrite bind_assoc. apply bind_ext. intros b2 w5.
  rewrite bind_assoc. apply bind_ext. intros s2 w6.
  rewrite bind_assoc. apply bind_ext. intros w7 w8.
  reflexivity.
Qed.

Section Quiet.

Variable E : Env.

Lemma eat_quiet newHead s w :
  eaten E newHead (atoms w) = [] -> eat E newHead s w = Some (s, w).
Proof.
  intros Hq. unfold eat.
  destruct (forEach_run atoms
    (fun i atom s =>
       if (Atom.state atom =? 0)%Z then
         let dist := hypot E (x newHead - x (Atom.position atom))
                             (y newHead - y (Atom.position atom)) in
         if Qltb dist (Atom.radius atom + SNAKE_SIZE / 2) then
           t <- performance_now E ;;
           Atom_disintegrate E i t ;;;
           s <- deref (Snake_grow (Atom.type atom) s) ;;
           ret (with_target None s)
         else ret s
       else ret s) (fun _ s1 w1 => s1 = s /\ w1 = w) s w)
    as (s' & w' & Hrun & -> & ->); [| |done|exact Hrun].
  - intros k atom s1 w1 [-> ->] Hk.
    assert (Hb : bites E newHead atom = false).
    { destruct (bites E newHead atom) eqn:Hb; [|done].
      assert (atom ∈ eaten E newHead (atoms w)).
      { apply list_elem_of_filter. split; [exact Hb|by eapply list_elem_of_lookup_2]. }
      rewrite Hq in H. by apply not_elem_of_nil in H. }
    unfold bites in Hb. cbv zeta.
    destruct (Atom.state atom =? 0)%Z; [|by eexists _, _].
    cbn [andb] in Hb. rewrite Hb. by eexists _, _.
  - by intros k s1 w1 [-> ->] _.
Qed.

Lemma teleport_quiet newHead w :
  Forall (fun p => enters E newHead p = false) (portals w) ->
  teleport E newHead w = Some (newHead, w).
Proof.
  intros Hq. unfold teleport.
  destruct (forEach_run portals
    (fun _ portal newHead =>
       let dist := hypot E (x newHead - x (Portal.position portal))
                           (y newHead - y (Portal.position portal)) in
       if Qltb dist (Portal.radius portal + SNAKE_SIZE / 2) then
         r1 <- next_random E ;;
         let offsetX := (r1 - 0.5) * 10 in
         r2 <- next_random E ;;
         let offsetY := (r2 - 0.5) * 10 in
         q <- partner_of portal ;;
         ret (mkVec2 (x (Portal.position q) + offsetX)
                     (y (Portal.position q) + offsetY))
       else ret newHead) (fun _ nh w1 => nh = newHead /\ w1 = w) newHead w)
    as (nh & w' & Hrun & -> & ->); [| |done|exact Hrun].
  - intros k portal nh w1 [-> ->] Hk. cbv zeta. fold (enters E newHead portal).
    rewrite Forall_lookup in Hq. rewrite (Hq k portal Hk). by eexists _, _.
  - by intros k nh w1 [-> ->] _.
Qed.

Lemma suffer_quiet newHead s w :
  Forall (fun h => swallows E newHead h = false) (blackHoles w) ->
  suffer E newHead s w = Some (s, w).
Proof.
  intros Hq. rewrite suffer_exact.
  replace (filter _ (blackHoles w)) with (@nil BlackHole.t); [reflexivity|].
  symmetry. induction Hq as [|h l Hh _ IH]; [reflexivity|].
  rewrite filter_cons, decide_False; [exact IH|]. by rewrite Hh.
Qed.

Lemma steer_run head s b w :
  (b = true -> exists i a, Snake.target s = Some i /\ atoms w !! i = Some a) ->
  exists s' n,
    steer E head s b w = Some (s', with_rnd n w)
    /\ Snake.positions s' = Snake.positions s
    /\ Snake.snakeLength s' = Snake.snakeLength s
    /\ Snake.hue s' = Snake.hue s /\ Snake.color s' = Snake.color s
    /\ (rnd w <= n)%nat.
Proof.
  intros Halive. unfold steer. destruct b.
  - destruct (Halive eq_refl) as (i & a & Hi & Ha).
    rewrite Hi. unfold bind at 1. cbn [deref ret].
    unfold bind at 1, atom_at. rewrite Ha. cbn [deref ret]. cbv zeta.
    eexists _, (rnd w). rewrite with_rnd_same. split; [reflexivity|].
    repeat split; lia.
  - eexists _, (S (rnd w)). split; [reflexivity|]. repeat split; lia.
Qed.

(** [aim] runs to its end on a snake that has a head and whose target, if
    any, is an atom of the array. *)
Lemma aim_run k w s0 head :
  snakes w !! k = Some s0 ->
  Snake.positions s0 !! 0%nat = Some head ->
  (forall i, Snake.target s0 = Some i -> (i < length (atoms w))%nat) ->
  exists s n,
    aim E k w = Some ((s, advance E head s w), with_rnd n w)
    /\ Snake.positions s = Snake.positions s0
    /\ Snake.snakeLength s = Snake.snakeLength s0
    /\ Snake.hue s = Snake.hue s0 /\ Snake.color s = Snake.color s0
    /\ (rnd w <= n)%nat.
Proof.
  intros Hk Hhead Htarget. unfold aim.
  unfold bind at 1, snake_at. rewrite Hk. cbn [deref ret].
  unfold bind at 1. rewrite Hhead. cbn [deref ret].
  destruct (target_alive_run s0 w Htarget) as (b1 & Hb1 & _).
  rewrite (bind_Some _ _ _ _ _ Hb1).
  assert (Hseek : exists s1, seek E head s0 b1 w = Some (s1, w)
            /\ Snake.positions s1 = Snake.positions s0
            /\ Snake.snakeLength s1 = Snake.snakeLength s0
            /\ Snake.hue s1 = Snake.hue s0 /\ Snake.color s1 = Snake.color s0
            /\ Snake.angle s1 = Snake.angle s0
            /\ forall i, Snake.target s1 = Some i -> (i < length (atoms w))%nat).
  { destruct b1.
    - exists s0. by repeat split.
    - destruct (seek_scan E head s0 w) as (tg & Hrun & Htg).
      exists (with_target tg s0). split; [exact Hrun|]. do 5 (split; [reflexivity|]).
      cbn [with_target Snake.target]. intros i ->.
      destruct Htg as [[Htg _]|(i' & a & [= ->] & Hi & _)].
      + by apply Htarget.
      + by eapply lookup_lt_Some. }
  destruct Hseek as (s1 & Hseek & P1 & P2 & P3 & P4 & P5 & Htarget1).
  rewrite (bind_Some _ _ _ _ _ Hseek).
  destruct (target_alive_run s1 w Htarget1) as (b2 & Hb2 & Halive).
  rewrite (bind_Some _ _ _ _ _ Hb2).
  destruct (steer_run head s1 b2 w Halive) as (s2 & n & Hsteer & R1 & R2 & R3 & R4 & R5).
  rewrite (bind_Some _ _ _ _ _ Hsteer).
  exists s2, n. split; [reflexivity|]. repeat split; first [exact R5|congruence].
Qed.

(** X19: [Snake.update] on a canvas of positive size (on a canvas without
    width or height the wrap of the script gives NaN, which the embedding
    does not have), on a snake that has a head and whose target, if any, is
    an atom of the array.  The first half, up to the wrap of the new head,
    runs to its end and leaves positions and [snakeLength] alone; the new
    head is the head moved by 2 along the new angle and wrapped, each result
    rounded as the script rounds it.  When the new head eats no atom and is
    in reach of no black hole and no portal, the whole method changes nothing
    but this snake and the count of random numbers: the new head goes in
    front of the positions and the last position is dropped when the snake
    is at its full length. *)
Theorem Snake_update_quiet k w s0 head :
  0 < width w -> 0 < height w ->
  snakes w !! k = Some s0 ->
  Snake.positions s0 !! 0%nat = Some head ->
  (forall i, Snake.target s0 = Some i -> (i < length (atoms w))%nat) ->
  exists s n,
    aim E k w = Some ((s, advance E head s w), with_rnd n w)
    /\ Snake.positions s = Snake.positions s0
    /\ Snake.snakeLength s = Snake.snakeLength s0
    /\ (eaten E (advance E head s w) (atoms w) = [] ->
        Forall (fun h => swallows E (advance E head s w) h = false) (blackHoles w) ->
        Forall (fun p => enters E (advance E head s w) p = false) (portals w) ->
        Snake_update E k w
        = Some (tt, with_snakes
             (<[k := with_positions
                       (if (Snake.snakeLength s0
                            <=? Z.of_nat (length (Snake.positions s0)))%Z
                        then advance E head s w :: removelast (Snake.positions s0)
                        else advance E head s w :: Snake.positions s0) s]> (snakes w))
             (with_rnd n w))).
Proof.
  intros _ _ Hk Hhead Htarget.
  destruct (aim_run k w s0 head Hk Hhead Htarget) as (s & n & Haim & P1 & P2 & _).
  exists s, n. split; [exact Haim|]. split; [exact P1|]. split; [exact P2|].
  intros Qa Qh Qp. rewrite Snake_update_aim.
  rewrite (bind_Some _ _ _ _ _ Haim). cbn [fst snd].
  rewrite (bind_Some _ _ _ _ _ (eat_quiet _ s (with_rnd n w) Qa)).
  rewrite (bind_Some _ _ _ _ _ (suffer_quiet _ s (with_rnd n w) Qh)).
  rewrite (bind_Some _ _ _ _ _ (teleport_quiet _ (with_rnd n w) Qp)).
  unfold settle, set_snake, modify. cbv zeta. do 3 f_equal.
  cbn [length]. rewrite P1, P2.
  destruct (Snake.positions s0) as [|p ps] eqn:Hps; [done|].
  change (removelast (advance E head s w :: p :: ps))
    with (advance E head s w :: removelast (p :: ps)).
  destruct (Z.ltb_spec (Snake.snakeLength s0) (Z.of_nat (S (length (p :: ps))))),
           (Z.leb_spec (Snake.snakeLength s0) (Z.of_nat (length (p :: ps))));
    try reflexivity; lia.
Qed.

End Quiet.

(** ** One new head for every call of [Snake.update] *)

Section OneHead.

Variable E : Env.

(** The loop over the portals runs to its end on a ring of portals; a
    portal that takes the head draws two random numbers. *)
Lemma teleport_run newHead w :
  ring (portals w) ->
  exists nh n,
    teleport E newHead w = Some (nh, with_rnd n w)
    /\ (rnd w <= n)%nat
    /\ ((n < rnd w + 2)%nat -> nh = newHead).
Proof.
  intros Hring. unfold teleport.
  destruct (forEach_run portals
    (fun _ portal newHead =>
       let dist := hypot E (x newHead - x (Portal.position portal))
                           (y newHead - y (Portal.position portal)) in
       if Qltb dist (Portal.radius portal + SNAKE_SIZE / 2) then
         r1 <- next_random E ;;
         let offsetX := (r1 - 0.5) * 10 in
         r2 <- next_random E ;;
         let offsetY := (r2 - 0.5) * 10 in
         q <- partner_of portal ;;
         ret (mkVec2 (x (Portal.position q) + offsetX)
                     (y (Portal.position q) + offsetY))
       else ret newHead)
    (fun _ nh w1 => exists n, w1 = with_rnd n w /\ (rnd w <= n)%nat
                              /\ ((n < rnd w + 2)%nat -> nh = newHead)) newHead w)
    as (nh & w' & Hrun & (n & -> & Hn & Hsame)).
  - intros k portal nh w1 (n & -> & Hn & Hsame) Hk.
    change (portals (with_rnd n w)) with (portals w) in Hk.
    destruct (ring_partner _ _ _ Hring Hk) as (q & Hq). cbv zeta.
    destruct (Qltb _ _).
    + unfold bind at 1, next_random. unfold bind at 1.
      unfold bind at 1, partner_of.
      cbn [portals with_rnd rnd]. rewrite Hq. cbn [deref ret].
      eexists _, _. split; [reflexivity|]. exists (S (S n)).
      split; [reflexivity|]. split; [lia|]. intros Hlt. lia.
    + eexists _, _. split; [reflexivity|]. by exists n.
  - intros k nh w1 Hw1 _. exact Hw1.
  - exists (rnd w). split; [by rewrite with_rnd_same|]. split; [lia|done].
  - by exists nh, n.
Qed.

(** The loop over the atoms does not take the count of random numbers
    back. *)
Lemma eat_rnd newHead s w s' w' :
  eat E newHead s w = Some (s', w') -> (rnd w <= rnd w')%nat.
Proof.
  unfold eat.
  apply (forEach_post atoms _ (fun _ w1 => (rnd w <= rnd w1)%nat)); [|lia].
  intros k atom s1 w1 s2 w2 Hle Hk. cbv zeta.
  destruct (Atom.state atom =? 0)%Z; [|by intros [= _ <-]].
  destruct (Qltb _ _); [|by intros [= _ <-]].
  unfold bind at 1. cbn [performance_now].
  destruct (Atom_disintegrate_run E k (now E (clk w1)) atom (with_clk (S (clk w1)) w1) Hk)
    as (ps & Hdis & _).
  rewrite (bind_Some _ _ _ _ _ Hdis).
  destruct (Snake_grow (Atom.type atom) s1) as [s3|]; [|done].
  unfold bind, deref, ret. intros [= _ <-].
  cbn [rnd with_blackHoles with_rnd with_photons with_photon_store with_atoms with_clk].
  lia.
Qed.

(** [update()] runs to its end on a snake that has a head, a length of 10
    or more and a target among the atoms, on a ring of portals; it puts one
    new head in front of the positions that the collisions left. *)
Lemma Snake_update_run k w s head tail :
  snakes w !! k = Some s ->
  Snake.positions s !! 0%nat = Some head ->
  last (Snake.positions s) = Some tail ->
  (10 <= Snake.snakeLength s)%Z ->
  (forall i, Snake.target s = Some i -> (i < length (atoms w))%nat) ->
  ring (portals w) ->
  exists s1 n newHead w' s',
    aim E k w = Some ((s1, advance E head s1 w), with_rnd n w)
    /\ Snake_update E k w = Some (tt, w')
    /\ snakes w' = <[k := s']> (snakes w)
    /\ ((rnd w' <= S (rnd w))%nat -> newHead = advance E head s1 w)
    /\ let nh := advance E head s1 w in
       let g := growth (eaten E nh (atoms w)) in
       let m := length (filter (fun h => swallows E nh h = true)
                          (blackHoles w ++ flat_map spawned_holes (eaten E nh (atoms w)))) in
       let mid := take (length (Snake.positions s) + g - 10 * m)
                       (Snake.positions s ++ replicate g tail) in
       Snake.snakeLength s'
       = (if (m =? 0)%nat then Snake.snakeLength s + Z.of_nat g
          else Z.max 10 (Snake.snakeLength s + Z.of_nat g - 10 * Z.of_nat m))%Z
       /\ Snake.positions s'
          = newHead :: (if (Snake.snakeLength s' <=? Z.of_nat (length mid))%Z
                        then removelast mid else mid)
       /\ (Forall (fun p => enters E nh p = false) (portals w) -> newHead = nh).
Proof.
  intros Hk Hhead Hlast Hfloor Htarget Hring.
  destruct (aim_run E k w s head Hk Hhead Htarget)
    as (s1 & n & Haim & P1 & P2 & _ & _ & Hn).
  set (nh := advance E head s1 w) in *.
  assert (Hlast1 : last (Snake.positions s1) = Some tail) by (by rewrite P1).
  destruct (eat_run E nh s1 (with_rnd n w) tail Hlast1)
    as (s3 & w3 & Heat & [Hs3 _ _ Hholes (_ & _ & Hsn & Hpo & _)]).
  pose proof (eat_rnd nh s1 (with_rnd n w) s3 w3 Heat) as Hn3.
  change (rnd (with_rnd n w)) with n in Hn3.
  change (atoms (with_rnd n w)) with (atoms w) in *.
  change (blackHoles (with_rnd n w)) with (blackHoles w) in Hholes.
  change (snakes (with_rnd n w)) with (snakes w) in Hsn.
  change (portals (with_rnd n w)) with (portals w) in Hpo.
  rewrite firstn_all in Hs3, Hholes.
  set (g := growth (eaten E nh (atoms w))) in *.
  pose proof (suffer_exact E nh s3 w3) as Hsuffer. rewrite Hholes in Hsuffer.
  set (m := length (filter (fun h => swallows E nh h = true)
                      (blackHoles w ++ flat_map spawned_holes (eaten E nh (atoms w))))) in *.
  destruct (shrink_iter m s3) as (Q1 & Q2 & _).
  set (s4 := Nat.iter m Snake_shrink s3) in *.
  assert (Hring3 : ring (portals w3)) by (by rewrite Hpo).
  destruct (teleport_run nh w3 Hring3) as (newHead & n' & Htele & Hn' & Hsame).
  assert (Hps3 : Snake.positions s3 = Snake.positions s ++ replicate g tail)
    by (by rewrite Hs3, P1).
  assert (Hl3 : Snake.snakeLength s3 = (Snake.snakeLength s + Z.of_nat g)%Z)
    by (by rewrite Hs3, P2).
  assert (Hmid : Snake.positions s4
                 = take (length (Snake.positions s) + g - 10 * m)
                        (Snake.positions s ++ replicate g tail)).
  { rewrite Q1, Hps3, length_app, length_replicate. reflexivity. }
  assert (Hl4 : Snake.snakeLength s4
                = (if (m =? 0)%nat then Snake.snakeLength s + Z.of_nat g
                   else Z.max 10 (Snake.snakeLength s + Z.of_nat g - 10 * Z.of_nat m))%Z)
    by (by rewrite Q2, Hl3).
  assert (Hfloor4 : (10 <= Snake.snakeLength s4)%Z).
  { rewrite Hl4. destruct (m =? 0)%nat; lia. }
  exists s1, n, newHead.
  eexists. eexists.
  split; [exact Haim|]. split.
  { rewrite Snake_update_aim.
    rewrite (bind_Some _ _ _ _ _ Haim). cbn [fst snd]. fold nh.
    rewrite (bind_Some _ _ _ _ _ Heat).
    rewrite (bind_Some _ _ _ _ _ Hsuffer). fold s4.
    rewrite (bind_Some _ _ _ _ _ Htele).
    unfold settle, set_snake, modify. cbv zeta. reflexivity. }
  split.
  { cbn [snakes with_snakes with_rnd]. rewrite Hsn. reflexivity. }
  split.
  { cbn [rnd with_snakes with_rnd]. intros Hle. apply Hsame. lia. }
  cbv zeta. cbn [with_positions Snake.snakeLength Snake.positions].
  split; [exact Hl4|]. split.
  - transitivity (newHead :: (if (Snake.snakeLength s4
                                      <=? Z.of_nat (length (Snake.positions s4)))%Z
                                  then removelast (Snake.positions s4)
                                  else Snake.positions s4));
      [|rewrite Hmid; reflexivity].
    cbn [length].
    destruct (Snake.positions s4) as [|p ps] eqn:Hps4.
    + cbn [length removelast].
      destruct (Z.ltb_spec (Snake.snakeLength s4) (Z.of_nat 1)),
               (Z.leb_spec (Snake.snakeLength s4) (Z.of_nat 0)); try reflexivity; lia.
    + change (removelast (newHead :: p :: ps)) with (newHead :: removelast (p :: ps)).
      destruct (Z.ltb_spec (Snake.snakeLength s4) (Z.of_nat (S (length (p :: ps))))),
               (Z.leb_spec (Snake.snakeLength s4) (Z.of_nat (length (p :: ps))));
        try reflexivity; lia.
  - intros Hq. rewrite <- Hpo in Hq.
    rewrite (teleport_quiet E nh w3 Hq) in Htele. by injection Htele as <- _.
Qed.

(** C9: the constructor makes 40 positions and [shrink()] pops no more
    than there are.  After [init] and after every further event every snake
    has a head at index 0, so the next [update()] of every snake reads a
    head; it runs to its end without an exception and changes no other
    snake.  The positions after the call are exactly one new head followed
    by positions that were there before: the old ones, with [g] copies of
    the last one from [grow()] behind them, cut by ten for each of the [m]
    calls of [shrink()], and without the last one when the snake is then at
    its full length; so at least one position is left.  On a canvas of
    positive size, when the call drew at most one random number (the
    explosion of an eaten atom and the jump through a portal draw more), the
    new head is the old head moved by [SPEED] along an angle and wrapped. *)
Theorem Snake_head_defined innerWidth innerHeight evs :
  (forall w0, exists s n, Snake_new E w0 = Some (s, with_rnd n w0)
                          /\ length (Snake.positions s) = 40%nat)
  /\ (forall s, length (Snake.positions (Snake_shrink s))
                = (length (Snake.positions s) - 10)%nat)
  /\ exists w, run E innerWidth innerHeight evs = Some w
       /\ (width w, height w) = size_after innerWidth innerHeight evs
       /\ forall k s, snakes w !! k = Some s ->
            exists head tail w' s' newHead g m,
              Snake.positions s !! 0%nat = Some head
              /\ last (Snake.positions s) = Some tail
              /\ Snake_update E k w = Some (tt, w')
              /\ snakes w' !! k = Some s'
              /\ (forall j, j <> k -> snakes w' !! j = snakes w !! j)
              /\ (let mid := take (length (Snake.positions s) + g - 10 * m)
                                  (Snake.positions s ++ replicate g tail) in
                  Snake.positions s'
                  = newHead :: (if (Snake.snakeLength s' <=? Z.of_nat (length mid))%Z
                                then removelast mid else mid))
              /\ Snake.snakeLength s'
                 = (if (m =? 0)%nat then Snake.snakeLength s + Z.of_nat g
                    else Z.max 10 (Snake.snakeLength s + Z.of_nat g - 10 * Z.of_nat m))%Z
              /\ (1 <= length (Snake.positions s'))%nat
              /\ (0 < width w -> 0 < height w -> (rnd w' <= S (rnd w))%nat ->
                  exists angle, newHead = advance E head (with_angle angle s) w).
Proof.
  split; [|split].
  - intros w0. destruct (Snake_new_ok E w0) as (s & n & Hnew & _ & Hlen & _).
    by exists s, n.
  - intros s. cbn [Snake_shrink Snake.positions]. apply length_shrunk.
  - destruct (run_settled E innerWidth innerHeight evs)
      as (w & Hrun & HInv & _ & _ & Hsize).
    exists w. split; [exact Hrun|]. split; [exact Hsize|]. intros k s Hk.
    pose proof (inv_snakes w HInv) as Hs. rewrite Forall_lookup in Hs.
    destruct (Hs k s Hk) as [Hh [Hfloor _ Htarget]].
    destruct (Snake.positions s !! 0%nat) as [head|] eqn:Hhead.
    2:{ apply lookup_ge_None in Hhead. lia. }
    destruct (last (Snake.positions s)) as [tail|] eqn:Hlast.
    2:{ apply last_None in Hlast. rewrite Hlast in Hh. cbn in Hh. lia. }
    destruct (Snake_update_run k w s head tail Hk Hhead Hlast Hfloor Htarget
                (inv_ring w HInv))
      as (s1 & n & newHead & w' & s' & Haim & Hupd & Hsn & Hone & Hlen & Hpos & _).
    exists head, tail, w', s', newHead. eexists _, _.
    split; [reflexivity|]. split; [reflexivity|]. split; [exact Hupd|].
    split; [rewrite Hsn; apply list_lookup_insert_eq; by eapply lookup_lt_Some|].
    split; [intros j Hj; rewrite Hsn; by apply list_lookup_insert_ne|].
    split; [exact Hpos|]. split; [exact Hlen|].
    split; [rewrite Hpos; cbn [length]; lia|].
    intros _ _ Hle. exists (Snake.angle s1). rewrite (Hone Hle). reflexivity.
Qed.

End OneHead.

(** ** The properties above on concrete worlds *)

(** On a canvas that is 800 wide, with the rounding of doubles.  The
    coordinate 0.1 comes out on the canvas, but not as it was: the sum with
    800 is rounded, and the remainder is 0.10000000000002274.  A coordinate
    803 to the left of 0 stays to the left of 0, and the coordinate 5 stays
    where it is. *)
Lemma wrap_spec_witness :
  (0 <= js_rem (double ieee (binary64 0.1 + 800)) 800
   /\ js_rem (double ieee (binary64 0.1 + 800)) 800 < 800)
  /\ js_rem (double ieee (binary64 0.1 + 800)) 800 == 879609302221 # 8796093022208
  /\ binary64 0.1 < js_rem (double ieee (binary64 0.1 + 800)) 800
  /\ (- (800) < js_rem (double ieee (-803 + 800)) 800
      /\ js_rem (double ieee (-803 + 800)) 800 <= 0)
  /\ js_rem (double ieee (5 + 800)) 800 == 5.
Proof.
  split; [|split; [|split; [|split]]].
  - destruct (wrap_spec ieee (binary64 0.1) 800 eq_refl) as (H & _);
      [vm_compute; discriminate|exact binary64_rounding|].
    apply H. vm_compute. discriminate.
  - vm_compute. reflexivity.
  - vm_compute. reflexivity.
  - destruct (wrap_spec ieee (-803) 800 eq_refl) as (_ & H & _);
      [vm_compute; discriminate|exact binary64_rounding|].
    apply H. reflexivity.
  - destruct (wrap_spec ieee 5 800 eq_refl) as (_ & _ & _ & H);
      [vm_compute; discriminate|exact binary64_rounding|].
    apply H; [discriminate|reflexivity|vm_compute; reflexivity].
Defined.

(** The second photon object of [hole_and_photon] is not in the array and
    has passed its cap: its [update()] empties the array. *)
Lemma Photon_update_absent_witness :
  exists w' p',
    Photon_update demo 1 hole_and_photon = Some (tt, w')
    /\ photon_store w' !! 1%nat = Some p'
    /\ Photon.life p' = (101 + 1)%Z
    /\ photons w' = if expired w' p' then removelast (photons hole_and_photon)
                    else photons hole_and_photon.
Proof.
  apply (Photon_update_absent demo 1
           (Photon.mk (mkVec2 400 300) (mkVec2 0 1) 300 101%Z 100%Z 3 normal)
           hole_and_photon ring_nil eq_refl).
  intros H. apply list_elem_of_singleton in H. discriminate.
Defined.

(** The black hole of [hole_and_photon] grows from 10 to 10.5 and pulls the
    photon of the array. *)
Lemma BlackHole_update_pulls_witness :
  BlackHole_update demo 0 hole_and_photon
  = Some (tt, with_photon_store
                (pull_all demo (BlackHole_grow (BlackHole.mk (mkVec2 400 300) 10 50 0.5))
                          (photons hole_and_photon) (photon_store hole_and_photon))
                (with_blackHoles
                   (<[0%nat := BlackHole_grow (BlackHole.mk (mkVec2 400 300) 10 50 0.5)]>
                      (blackHoles hole_and_photon)) hole_and_photon))
  /\ forall p, photon_turn p (pulled demo (BlackHole_grow
                                             (BlackHole.mk (mkVec2 400 300) 10 50 0.5)) p).
Proof.
  apply (BlackHole_update_pulls demo 0 (BlackHole.mk (mkVec2 400 300) 10 50 0.5)
           hole_and_photon eq_refl).
  - repeat constructor.
  - apply NoDup_singleton.
Defined.

Lemma ring_three : ring (portals three_portals).
Proof.
  intros i p Hi.
  destruct i as [|[|[|i]]]; cbn in Hi; [injection Hi as <-; reflexivity..|done].
Qed.

Lemma Inv_three_portals : Inv three_portals.
Proof.
  apply fresh_Inv; [|exact ring_three|reflexivity].
  split; try reflexivity; constructor.
Qed.

(** A frame on a world with three portals and nothing else. *)
Lemma animate_frame_witness :
  exists w', animate demo three_portals = Some (tt, w') /\ frame three_portals w'.
Proof. apply (animate_frame demo three_portals). exact Inv_three_portals. Defined.

(** A snake of one position on the atom of [one_atom] eats it. *)
Lemma eat_spec_witness :
  exists s' w',
    eat demo (mkVec2 400 300) (Snake.mk 200 (Hsl 200) [mkVec2 400 300] 40 0 None) one_atom
    = Some (s', w')
    /\ s' = Snake.mk 200 (Hsl 200)
              ([mkVec2 400 300]
               ++ replicate (growth (eaten demo (mkVec2 400 300) (atoms one_atom)))
                            (mkVec2 400 300))
              (40 + Z.of_nat (growth (eaten demo (mkVec2 400 300) (atoms one_atom))))%Z
              0
              (match eaten demo (mkVec2 400 300) (atoms one_atom) with
               | [] => None
               | _ => None
               end)
    /\ Forall2 (eats demo (mkVec2 400 300)) (atoms one_atom) (atoms w')
    /\ length (photon_store w')
       = (length (photon_store one_atom)
          + burst (eaten demo (mkVec2 400 300) (atoms one_atom)))%nat
    /\ blackHoles w'
       = blackHoles one_atom
         ++ flat_map spawned_holes (eaten demo (mkVec2 400 300) (atoms one_atom)).
Proof.
  apply (eat_spec demo (mkVec2 400 300)
           (Snake.mk 200 (Hsl 200) [mkVec2 400 300] 40 0 None) one_atom (mkVec2 400 300)).
  reflexivity.
Defined.

Lemma demo_random_unit n : 0 <= random demo n <= 1.
Proof. cbn. split; discriminate. Qed.

Lemma radius_three : Forall (fun p => Portal.radius p = 20) (portals three_portals).
Proof. repeat constructor. Qed.

(** A head that is 7 away from the second portal of [three_portals]. *)
Lemma teleport_lands_at_first_witness :
  exists nh n,
    teleport demo (mkVec2 395 305) three_portals = Some (nh, with_rnd n three_portals)
    /\ ((nh = mkVec2 395 305
         /\ Forall (fun p => enters demo (mkVec2 395 305) p = false) (portals three_portals))
        \/ (Exists (fun p => enters demo (mkVec2 395 305) p = true) (portals three_portals)
            /\ exists p0, portals three_portals !! 0%nat = Some p0
                          /\ near (Portal.position p0) nh)).
Proof.
  apply (teleport_lands_at_first demo demo_random_unit demo_hypot_small
           (mkVec2 395 305) three_portals ring_three radius_three).
Defined.

(** A photon at the same place. *)
Lemma warp_lands_at_first_witness :
  exists pos' n,
    warp demo (mkVec2 395 305) three_portals = Some (pos', with_rnd n three_portals)
    /\ ((pos' = mkVec2 395 305
         /\ Forall (fun p => warps demo (mkVec2 395 305) p = false) (portals three_portals))
        \/ (Exists (fun p => warps demo (mkVec2 395 305) p = true) (portals three_portals)
            /\ exists p0, portals three_portals !! 0%nat = Some p0
                          /\ near (Portal.position p0) pos')).
Proof.
  apply (warp_lands_at_first demo demo_random_unit demo_hypot_small
           (mkVec2 395 305) three_portals ring_three radius_three).
Defined.

(** The snake of [lone_snake], on a canvas of 800 x 600 with nothing else
    on it and with the rounding of doubles, turns by 0 and moves on from
    (400, 300) to (402, 300): the new head goes in front and the last of the
    three positions is dropped. *)
Lemma Snake_update_quiet_witness :
  Snake_update ieee 0 lone_snake
  = Some (tt, with_snakes
       [with_positions
          [advance ieee (mkVec2 400 300)
             (Snake.mk 200 (Hsl 200) (replicate 3 (mkVec2 400 300)) 3
                       (0 + (0.5 - 0.5) * 0.2) None) lone_snake;
           mkVec2 400 300; mkVec2 400 300]
          (Snake.mk 200 (Hsl 200) (replicate 3 (mkVec2 400 300)) 3
                    (0 + (0.5 - 0.5) * 0.2) None)]
       (with_rnd 1 lone_snake))
  /\ x (advance ieee (mkVec2 400 300)
          (Snake.mk 200 (Hsl 200) (replicate 3 (mkVec2 400 300)) 3
                    (0 + (0.5 - 0.5) * 0.2) None) lone_snake) == 402
  /\ y (advance ieee (mkVec2 400 300)
          (Snake.mk 200 (Hsl 200) (replicate 3 (mkVec2 400 300)) 3
                    (0 + (0.5 - 0.5) * 0.2) None) lone_snake) == 300.
Proof.
  destruct (Snake_update_quiet ieee 0 lone_snake
              (Snake.mk 200 (Hsl 200) (replicate 3 (mkVec2 400 300)) 3 0 None)
              (mkVec2 400 300) eq_refl eq_refl eq_refl eq_refl)
    as (s & n & Haim & _ & _ & Hquiet).
  { intros i Hi. discriminate. }
  specialize (Hquiet eq_refl (Forall_nil_2 _) (Forall_nil_2 _)).
  assert (Hs : Some s = Some (Snake.mk 200 (Hsl 200) (replicate 3 (mkVec2 400 300)) 3
                                       (0 + (0.5 - 0.5) * 0.2) None)).
  { apply (f_equal (fun o : option (Snake.t * Vec2 * World) =>
                      match o with Some (sn, _) => Some (fst sn) | None => None end))
      in Haim. symmetry. exact Haim. }
  assert (Hn : n = 1%nat).
  { apply (f_equal (fun o : option (Snake.t * Vec2 * World) =>
                      match o with Some (_, w1) => rnd w1 | None => 0%nat end))
      in Haim. symmetry. exact Haim. }
  injection Hs as ->. subst n.
  split; [exact Hquiet|]. split; vm_compute; reflexivity.
Defined.

Lemma calm_update_le E k w w' :
  run E 800 600 [] = Some w -> Snake_update E k w = Some (tt, w') ->
  calm_update E k = true -> (rnd w' <= S (rnd w))%nat.
Proof. intros Hrun Hupd. unfold calm_update. rewrite Hrun, Hupd. apply Nat.leb_le. Qed.

Lemma head_moved_neq E k w w' s s' h h' :
  run E 800 600 [] = Some w -> Snake_update E k w = Some (tt, w') ->
  snakes w !! k = Some s -> Snake.positions s !! 0%nat = Some h ->
  snakes w' !! k = Some s' -> Snake.positions s' !! 0%nat = Some h' ->
  head_moved E k = true -> ~ x h == x h'.
Proof.
  intros Hrun Hupd Hs Hh Hs' Hh'. unfold head_moved.
  rewrite Hrun, Hupd, Hs, Hs'. cbn [mbind option_bind]. rewrite Hh, Hh'.
  intros Hne Heq. apply Qeq_bool_iff in Heq. rewrite Heq in Hne. discriminate.
Qed.

Lemma spread_calm : calm_update spread 0 = true.
Proof. vm_compute. reflexivity. Qed.

Lemma spread_moved : head_moved spread 0 = true.
Proof. vm_compute. reflexivity. Qed.

(** C9, in a window of 800 x 600 with the random numbers of [spread], the
    rounding of doubles and no event after [init]: the canvas has that size,
    the first snake has a head, and its next [update()], which draws no
    random number, puts a new head in front of positions that were there
    before; the new head is the old one moved along an angle and wrapped,
    and it is not where the old one was. *)
Lemma Snake_head_defined_witness :
  exists w s head tail w' s' newHead angle g m,
    run spread 800 600 [] = Some w
    /\ width w = 800 /\ height w = 600
    /\ snakes w !! 0%nat = Some s
    /\ Snake.positions s !! 0%nat = Some head
    /\ last (Snake.positions s) = Some tail
    /\ Snake_update spread 0 w = Some (tt, w')
    /\ snakes w' !! 0%nat = Some s'
    /\ (let mid := take (length (Snake.positions s) + g - 10 * m)
                        (Snake.positions s ++ replicate g tail) in
        Snake.positions s'
        = newHead :: (if (Snake.snakeLength s' <=? Z.of_nat (length mid))%Z
                      then removelast mid else mid))
    /\ newHead = advance spread head (with_angle angle s) w
    /\ ~ x head == x newHead.
Proof.
  destruct (Snake_head_defined spread 800 600 []) as (_ & _ & w & Hrun & Hsize & Hall).
  cbn [size_after] in Hsize. injection Hsize as Hwd Hht.
  destruct (run_settled spread 800 600 []) as (w0 & Hrun0 & _ & _ & Hn & _).
  rewrite Hrun in Hrun0. injection Hrun0 as <-.
  destruct (lookup_lt_is_Some_2 (snakes w) 0) as [s Hs]; [rewrite Hn; cbn; lia|].
  destruct (Hall 0%nat s Hs)
    as (head & tail & w' & s' & newHead & g & m & Hhead & Hlast & Hupd & Hs' & _ & Hpos
        & _ & _ & Hone).
  pose proof (calm_update_le spread 0 w w' Hrun Hupd spread_calm) as Hcalm.
  destruct Hone as (angle & Hnew);
    [rewrite Hwd; reflexivity|rewrite Hht; reflexivity|exact Hcalm|].
  exists w, s, head, tail, w', s', newHead, angle, g, m.
  split; [exact Hrun|]. split; [exact Hwd|]. split; [exact Hht|]. split; [exact Hs|].
  split; [exact Hhead|]. split; [exact Hlast|]. split; [exact Hupd|].
  split; [exact Hs'|]. split; [exact Hpos|]. split; [exact Hnew|].
  apply (head_moved_neq spread 0 w w' s s' head newHead Hrun Hupd Hs Hhead Hs');
    [|exact spread_moved].
  cbv zeta in Hpos. rewrite Hpos. reflexivity.
Defined.

Lemma refs_two : refs_ok two_photons.
Proof. repeat constructor. Qed.

(** The loop over the photons on [two_photons], where the first photon
    leaves the array. *)
Lemma photon_pass_once_witness :
  exists w',
    photon_pass demo two_photons = Some (tt, w')
    /\ photons w' `sublist_of` photons two_photons
    /\ (forall r p, photon_store two_photons !! r = Some p ->
          exists p', photon_store w' !! r = Some p'
            /\ (p' = p
                \/ (Photon.life p' = (Photon.life p + 1)%Z /\ r ∈ photons two_photons)))
    /\ (length (filter (fun r => untouched two_photons w' r = true) (photons w'))
        + length (photons w') <= length (photons two_photons))%nat
    /\ (length (photons w') = length (photons two_photons) ->
          photons w' = photons two_photons
          /\ forall r p, r ∈ photons two_photons -> photon_store two_photons !! r = Some p ->
               exists p', photon_store w' !! r = Some p'
                          /\ Photon.life p' = (Photon.life p + 1)%Z).
Proof. apply (photon_pass_once demo two_photons ring_nil refs_two NoDup_two). Defined.
